(** * rsvpub: the RSVP reading core

    A shallow embedding of the playback core of rsvpub
    (src/rsvp/word-processor.ts, src/rsvp/timing.ts, src/wordlist.ts,
    src/rsvp/engine.ts and [App.clampPosition] of src/ui/app.ts), and the
    properties its specification states about it.

    Conventions.
    - A JavaScript string is the list of its UTF-16 code units ([jsstring]);
      [length] is [String.prototype.length], [s !! i] is [s[i]].
    - A JavaScript number that the code only uses as an array index or a
      count is a [Z]; a number that carries a duration or a factor is an
      IEEE 754 binary64 value, Rocq's primitive [float].
    - An array is a [list]; [arr[i]] is [js_index arr i], which is [None]
      (JavaScript's [undefined]) out of range. *)

From Stdlib Require Import ZArith List Bool Lia String Ascii Floats Uint63.
From stdpp Require Import base option list gmap.

#[local] Set Warnings "-inexact-float".
Local Open Scope Z_scope.

(** ** JavaScript strings and arrays *)

Definition jsstring := list N.

(** An ASCII literal as a JavaScript string. *)
Definition js (s : string) : jsstring :=
  map N_of_ascii (list_ascii_of_string s).

(** [arr[i]] for a number [i] holding an integer. *)
Definition js_index {A : Type} (arr : list A) (i : Z) : option A :=
  if i <? 0 then None else arr !! Z.to_nat i.

(** [arr.length] *)
Definition js_length {A : Type} (arr : list A) : Z := Z.of_nat (length arr).

(** [Math.max], [Math.min] on integers. *)
Definition Math_max (a b : Z) : Z := Z.max a b.
Definition Math_min (a b : Z) : Z := Z.min a b.

(** Membership of a code unit in a regular-expression character class given
    by its members. *)
Definition in_class (cls : list N) (c : N) : bool := existsb (N.eqb c) cls.

(** ** Word unit: src/rsvp/word-processor.ts *)

(** The character class of the test in [calculateORP] as the source file
    spells it: the eight ASCII marks full stop, comma, exclamation mark,
    question mark, semicolon, colon, apostrophe and double quote, then the
    three characters U+00E2, U+20AC and U+201D, then the hyphen. *)
Definition ORP_PUNCT : list N :=
  [46; 44; 33; 63; 59; 58; 39; 34; 226; 8364; 8221; 45]%N.

(** [/[...]/.test(word[len - 1])]; [test(undefined)] matches against the
    text undefined, which holds none of the members. *)
Definition orp_test (c : option N) : bool :=
  match c with
  | Some u => in_class ORP_PUNCT u
  | None => false
  end.

(** [while (len > 0 && test(word[len - 1])) len--], by recursion on [len]. *)
Fixpoint strip_trailing (test : option N -> bool) (word : jsstring) (len : nat) : nat :=
  match len with
  | O => O
  | S k => if test (word !! k) then strip_trailing test word k else len
  end.

Definition orp_policy (len : Z) : Z :=
  if len <=? 1 then 0
  else if len <=? 3 then 1
  else len / 2 - 1.

Definition calculateORP (word : jsstring) : Z :=
  orp_policy (Z.of_nat (strip_trailing orp_test word (length word))).

(** The reference definition of the specification (section 4.1), for
    comparison with [calculateORP]: the stripped set is the eight ASCII
    marks, the em dash U+2014 and the hyphen. *)
Definition SPEC_PUNCT : list N :=
  [46; 44; 33; 63; 59; 58; 39; 34; 8212; 45]%N.

Definition spec_test (c : option N) : bool :=
  match c with
  | Some u => in_class SPEC_PUNCT u
  | None => false
  end.

Definition recognitionOffset_spec (word : jsstring) : Z :=
  orp_policy (Z.of_nat (strip_trailing spec_test word (length word))).

(** ** Numbers *)

(** The number that holds the integer [z]. The conversion is exact for
    [|z| < 2^53], which covers every array and string length of a JavaScript
    program. *)
Definition Number (z : Z) : float :=
  if z <? 0 then (- of_uint63 (Uint63.of_Z (- z)))%float
  else of_uint63 (Uint63.of_Z z).

(** The largest length a JavaScript string can have, [2^53 - 1]. *)
Definition MAX_STRING_LENGTH : Z := 9007199254740991.

(** ** Word frequency buckets: src/wordlist.ts *)

(** [(maxRank, multiplier)], in the order of the source. *)
Definition BUCKET_THRESHOLDS : list (Z * float) :=
  [ (1000, 0%float); (3000, 0.25%float); (5000, 0.5%float); (10000, 0.75%float) ].

Definition NOT_IN_LIST_MULTIPLIER : float := 1.0%float.

(** [/[^a-z]/] *)
Definition is_lower_alpha (c : N) : bool := ((97 <=? c) && (c <=? 122))%N.

(** [for (const bucket of BUCKET_THRESHOLDS) if (rank <= bucket.maxRank)
    return bucket.multiplier], falling through to the value after the loop. *)
Fixpoint bucket_of (rank : Z) (buckets : list (Z * float)) : float :=
  match buckets with
  | [] => NOT_IN_LIST_MULTIPLIER
  | (maxRank, multiplier) :: rest =>
      if rank <=? maxRank then multiplier else bucket_of rank rest
  end.

Section Wordlist.

(** [String.prototype.toLowerCase], a function of the host. *)
Variable toLowerCase : jsstring -> jsstring.

(** The module variable [wordRanks]: [None] is [null], before the word
    list is loaded. *)
Variable wordRanks : option (gmap jsstring Z).

Definition getWordBucketMultiplier (word : jsstring) : float :=
  match wordRanks with
  | None => 0%float
  | Some ranks =>
      if (size ranks =? 0)%nat then 0%float
      else
        let normalized := List.filter is_lower_alpha (toLowerCase word) in
        if js_length normalized =? 0 then 0%float
        else
          match ranks !! normalized with
          | None => NOT_IN_LIST_MULTIPLIER
          | Some rank => bucket_of rank BUCKET_THRESHOLDS
          end
  end.

(** ** Timing model: src/rsvp/timing.ts *)

(** The keys are one-character strings. *)
Definition PUNCTUATION_MULTIPLIERS : list (jsstring * float) :=
  [ ([44%N], 0.75%float);
    ([59%N], 0.75%float);
    ([58%N], 0.75%float);
    ([46%N], 1.5%float);
    ([33%N], 1.5%float);
    ([63%N], 1.5%float);
    ([8212%N], 1.0%float);
    ([45%N], 0.25%float) ].

(** [table[key]] on an object literal used as a table. *)
Fixpoint table_get (table : list (jsstring * float)) (key : jsstring) : option float :=
  match table with
  | [] => None
  | (k, v) :: rest => if bool_decide (k = key) then Some v else table_get rest key
  end.

Record TimingSettings := {
  lengthDelayEnabled : bool;
  lengthDelayFactor : float;
  frequencyDelayEnabled : bool;
  frequencyDelayFactor : float
}.

Definition DEFAULT_TIMING_SETTINGS : TimingSettings :=
  {| lengthDelayEnabled := false;
     lengthDelayFactor := 0.1%float;
     frequencyDelayEnabled := false;
     frequencyDelayFactor := 0.3%float |}.

Definition calculateBaseInterval (wpm : float) : float := (60000 / wpm)%float.

(** [word.slice(-1)]: the last code unit as a string, or the empty string. *)
Definition slice_last (word : jsstring) : jsstring :=
  match last word with
  | Some c => [c]
  | None => []
  end.

Definition calculatePunctuationDelay (word : jsstring) (baseInterval : float) : float :=
  let lastChar := slice_last word in
  let multiplier := default 0%float (table_get PUNCTUATION_MULTIPLIERS lastChar) in
  (baseInterval * multiplier)%float.

(** [/[^a-zA-Z0-9]/] *)
Definition is_alnum (c : N) : bool :=
  (((97 <=? c) && (c <=? 122)) || ((65 <=? c) && (c <=? 90))
   || ((48 <=? c) && (c <=? 57)))%N.

Definition calculateLengthDelay (word : jsstring) (baseInterval factor : float) : float :=
  let stripped := List.filter is_alnum word in
  let extraChars := js_length stripped - 5 in
  if extraChars <=? 0 then 0%float
  else (Number extraChars * factor * baseInterval)%float.

Definition calculateFrequencyDelay (word : jsstring) (baseInterval factor : float) : float :=
  let bucketMultiplier := getWordBucketMultiplier word in
  (bucketMultiplier * factor * baseInterval)%float.

Definition calculateTotalDelay (word : jsstring) (wpm : float) (settings : TimingSettings) : float :=
  let baseInterval := calculateBaseInterval wpm in
  let totalDelay := baseInterval in
  let totalDelay := (totalDelay + calculatePunctuationDelay word baseInterval)%float in
  let totalDelay :=
    if lengthDelayEnabled settings
    then (totalDelay + calculateLengthDelay word baseInterval (lengthDelayFactor settings))%float
    else totalDelay in
  let totalDelay :=
    if frequencyDelayEnabled settings
    then (totalDelay + calculateFrequencyDelay word baseInterval (frequencyDelayFactor settings))%float
    else totalDelay in
  totalDelay.

End Wordlist.

Definition DEFAULT_WPM : float := 300%float.
Definition MIN_WPM : Z := 100.
Definition MAX_WPM : Z := 1000.

(** ** Data model: src/types/index.ts *)

Record ReadingPosition := {
  chapterIndex : Z;
  paragraphIndex : Z;
  wordIndex : Z
}.

Record ProcessedWord := {
  text : jsstring;
  orpIndex : Z;
  delay : Z
}.

Record Paragraph := {
  words : list ProcessedWord;
  sourceElement : jsstring
}.

Record Chapter := {
  index : Z;
  title : jsstring;
  paragraphs : list Paragraph
}.

Record ProcessedBook := {
  book_title : jsstring;
  author : jsstring;
  chapters : list Chapter
}.

Inductive RSVPStatus := idle | loading | ready | playing | paused.

(** ['rsvp'] and ['paragraph']. *)
Inductive ViewMode := mode_rsvp | mode_paragraph.

Record RSVPState := {
  status : RSVPStatus;
  position : ReadingPosition;
  wpm : float;
  book : option ProcessedBook;
  viewMode : ViewMode
}.

Record CurrentWordInfo := {
  word : ProcessedWord;
  info_position : ReadingPosition;
  totalWordsInParagraph : Z;
  totalParagraphsInChapter : Z;
  totalChapters : Z;
  chapterTitle : jsstring
}.

#[global] Instance RSVPStatus_eq_dec : EqDecision RSVPStatus.
Proof. solve_decision. Defined.

#[global] Instance ViewMode_eq_dec : EqDecision ViewMode.
Proof. solve_decision. Defined.

(** The validity invariant of a position relative to a book (section 3 of
    the specification). *)
Definition valid_position (b : ProcessedBook) (p : ReadingPosition) : Prop :=
  0 <= chapterIndex p < js_length (chapters b) /\
  forall ch, js_index (chapters b) (chapterIndex p) = Some ch ->
    0 <= paragraphIndex p < js_length (paragraphs ch) /\
    forall par, js_index (paragraphs ch) (paragraphIndex p) = Some par ->
      0 <= wordIndex p < js_length (words par).

(** The same invariant as a check that computes. *)
Definition valid_positionb (b : ProcessedBook) (p : ReadingPosition) : bool :=
  match js_index (chapters b) (chapterIndex p) with
  | None => false
  | Some ch =>
      match js_index (paragraphs ch) (paragraphIndex p) with
      | None => false
      | Some par => (0 <=? wordIndex p) && (wordIndex p <? js_length (words par))
      end
  end.

(** A book without an empty chapter and without an empty paragraph, as the
    extractor (src/epub/extractor.ts) builds them. *)
Definition no_empty_paragraph (ch : Chapter) : Prop :=
  Forall (fun par => words par <> []) (paragraphs ch).

Definition dense (b : ProcessedBook) : Prop :=
  Forall (fun ch => paragraphs ch <> [] /\ no_empty_paragraph ch) (chapters b).

(** ** Completions *)

(** What a JavaScript call completes with: a value, or a thrown exception.
    The only exception of this code is the [TypeError] of reading a property
    of [undefined]. *)
Inductive JSError := TypeError.

Inductive Completion (A : Type) :=
  | Normal (a : A)
  | Throw (e : JSError).

Arguments Normal {A} a.
Arguments Throw {A} e.

(** ** Clamping a stored position: [App.clampPosition], src/ui/app.ts *)

(** [while (chapter.paragraphs.length === 0 && chapterIndex > 0)
    { chapterIndex--; chapter = book.chapters[chapterIndex]; }], by recursion
    on the counter, which [Math.max(0, ...)] has made a natural number. *)
Fixpoint clamp_walk (chs : list Chapter) (chapterIndex : nat) (chapter : option Chapter)
  : Completion (nat * Chapter) :=
  match chapter with
  | None => Throw TypeError
  | Some ch =>
      match chapterIndex with
      | S k =>
          if js_length (paragraphs ch) =? 0
          then clamp_walk chs k (chs !! k)
          else Normal (chapterIndex, ch)
      | O => Normal (O, ch)
      end
  end.

Definition clampPosition (book : ProcessedBook) (pos : ReadingPosition)
  : Completion ReadingPosition :=
  let chapterIndex0 :=
    Math_max 0 (Math_min (chapterIndex pos) (js_length (chapters book) - 1)) in
  let chapter0 := js_index (chapters book) chapterIndex0 in
  match clamp_walk (chapters book) (Z.to_nat chapterIndex0) chapter0 with
  | Throw e => Throw e
  | Normal (chapterIndex1, chapter) =>
      let paragraphIndex1 :=
        Math_max 0 (Math_min (paragraphIndex pos)
                              (Math_max 0 (js_length (paragraphs chapter) - 1))) in
      let paragraph := js_index (paragraphs chapter) paragraphIndex1 in
      let wordIndex1 :=
        match paragraph with
        | Some par =>
            Math_max 0 (Math_min (wordIndex pos)
                                  (Math_max 0 (js_length (words par) - 1)))
        | None => 0
        end in
      Normal {| chapterIndex := Z.of_nat chapterIndex1;
                paragraphIndex := paragraphIndex1;
                wordIndex := wordIndex1 |}
  end.

(** ** The engine and its host: src/rsvp/engine.ts *)

(** A listener is a function object of the caller; the model keeps its
    identity and records each invocation. Listeners are taken not to call
    the mutating methods of the engine from within an invocation (those of
    src/ui/app.ts only read it). A [Set] of listeners is the list of its
    members in insertion order, which is the order [forEach] visits them
    in. *)
Definition Listener := nat.

Record RSVPEngine := {
  state : RSVPState;
  timerId : option nat;
  wordListeners : list Listener;
  statusListeners : list Listener;
  viewModeListeners : list Listener;
  timingSettingsGetter : option (unit -> TimingSettings)
}.

(** One invocation of a listener, with the data it receives. *)
Inductive Call :=
  | CallWord (l : Listener) (info : option CurrentWordInfo)
  | CallStatus (l : Listener) (s : RSVPStatus)
  | CallViewMode (l : Listener) (m : ViewMode).

(** The engine together with the part of the host it acts on: the timers
    armed by [window.setTimeout] and not yet fired or cleared (handle and
    delay), the next handle the host will give out, and the listener
    invocations made so far, oldest first. *)
Record World := {
  engine : RSVPEngine;
  pending : list (nat * float);
  nextTimer : nat;
  calls : list Call
}.

Definition initial_state : RSVPState :=
  {| status := idle;
     position := {| chapterIndex := 0; paragraphIndex := 0; wordIndex := 0 |};
     wpm := DEFAULT_WPM;
     book := None;
     viewMode := mode_rsvp |}.

Definition new_RSVPEngine : RSVPEngine :=
  {| state := initial_state;
     timerId := None;
     wordListeners := [];
     statusListeners := [];
     viewModeListeners := [];
     timingSettingsGetter := None |}.

Definition new_World : World :=
  {| engine := new_RSVPEngine; pending := []; nextTimer := 1; calls := [] |}.

(** Field updates. *)
Definition with_status (s : RSVPStatus) (st : RSVPState) : RSVPState :=
  {| status := s; position := position st; wpm := wpm st; book := book st;
     viewMode := viewMode st |}.

Definition with_position (p : ReadingPosition) (st : RSVPState) : RSVPState :=
  {| status := status st; position := p; wpm := wpm st; book := book st;
     viewMode := viewMode st |}.

Definition with_wpm (n : float) (st : RSVPState) : RSVPState :=
  {| status := status st; position := position st; wpm := n; book := book st;
     viewMode := viewMode st |}.

Definition with_book (b : ProcessedBook) (st : RSVPState) : RSVPState :=
  {| status := status st; position := position st; wpm := wpm st; book := Some b;
     viewMode := viewMode st |}.

Definition with_viewMode (m : ViewMode) (st : RSVPState) : RSVPState :=
  {| status := status st; position := position st; wpm := wpm st; book := book st;
     viewMode := m |}.

Definition with_chapterIndex (i : Z) (p : ReadingPosition) : ReadingPosition :=
  {| chapterIndex := i; paragraphIndex := paragraphIndex p; wordIndex := wordIndex p |}.

Definition with_paragraphIndex (i : Z) (p : ReadingPosition) : ReadingPosition :=
  {| chapterIndex := chapterIndex p; paragraphIndex := i; wordIndex := wordIndex p |}.

Definition with_wordIndex (i : Z) (p : ReadingPosition) : ReadingPosition :=
  {| chapterIndex := chapterIndex p; paragraphIndex := paragraphIndex p; wordIndex := i |}.

Definition with_state (f : RSVPState -> RSVPState) (e : RSVPEngine) : RSVPEngine :=
  {| state := f (state e); timerId := timerId e;
     wordListeners := wordListeners e; statusListeners := statusListeners e;
     viewModeListeners := viewModeListeners e;
     timingSettingsGetter := timingSettingsGetter e |}.

Definition with_timerId (t : option nat) (e : RSVPEngine) : RSVPEngine :=
  {| state := state e; timerId := t;
     wordListeners := wordListeners e; statusListeners := statusListeners e;
     viewModeListeners := viewModeListeners e;
     timingSettingsGetter := timingSettingsGetter e |}.

Definition with_wordListeners (ls : list Listener) (e : RSVPEngine) : RSVPEngine :=
  {| state := state e; timerId := timerId e;
     wordListeners := ls; statusListeners := statusListeners e;
     viewModeListeners := viewModeListeners e;
     timingSettingsGetter := timingSettingsGetter e |}.

Definition with_statusListeners (ls : list Listener) (e : RSVPEngine) : RSVPEngine :=
  {| state := state e; timerId := timerId e;
     wordListeners := wordListeners e; statusListeners := ls;
     viewModeListeners := viewModeListeners e;
     timingSettingsGetter := timingSettingsGetter e |}.

Definition with_viewModeListeners (ls : list Listener) (e : RSVPEngine) : RSVPEngine :=
  {| state := state e; timerId := timerId e;
     wordListeners := wordListeners e; statusListeners := statusListeners e;
     viewModeListeners := ls;
     timingSettingsGetter := timingSettingsGetter e |}.

Definition with_timingSettingsGetter (g : unit -> TimingSettings) (e : RSVPEngine)
  : RSVPEngine :=
  {| state := state e; timerId := timerId e;
     wordListeners := wordListeners e; statusListeners := statusListeners e;
     viewModeListeners := viewModeListeners e;
     timingSettingsGetter := Some g |}.

Definition with_engine (f : RSVPEngine -> RSVPEngine) (w : World) : World :=
  {| engine := f (engine w); pending := pending w; nextTimer := nextTimer w;
     calls := calls w |}.

(** The world [w] with the position replaced by [p]. *)
Definition relocate (p : ReadingPosition) (w : World) : World :=
  with_engine (with_state (with_position p)) w.

(** The computations of the engine: a method reads and writes the world and
    completes normally or by throwing; what it wrote before throwing stays
    written. *)
Definition M (A : Type) : Type := World -> Completion A * World.

#[global] Instance M_ret : MRet M := fun A a w => (Normal a, w).

#[global] Instance M_bind : MBind M := fun A B k m w =>
  match m w with
  | (Normal a, w') => k a w'
  | (Throw e, w') => (Throw e, w')
  end.

Definition throw {A : Type} (e : JSError) : M A := fun w => (Throw e, w).

Definition gets {A : Type} (f : World -> A) : M A := fun w => (Normal (f w), w).

Definition modify (f : World -> World) : M unit := fun w => (Normal tt, f w).

(** Reading a property of a value that may be [undefined]. *)
Definition deref {A : Type} (o : option A) : M A :=
  match o with
  | Some a => mret a
  | None => throw TypeError
  end.

Definition this_state : M RSVPState := gets (fun w => state (engine w)).

Definition this_position : M ReadingPosition := gets (fun w => position (state (engine w))).

Definition set_state (f : RSVPState -> RSVPState) : M unit :=
  modify (with_engine (with_state f)).

Definition set_position (f : ReadingPosition -> ReadingPosition) : M unit :=
  set_state (fun st => with_position (f (position st)) st).

(** [listeners.forEach(cb => cb(data))] *)
Definition invoke (cs : list Call) : M unit :=
  modify (fun w =>
    {| engine := engine w; pending := pending w; nextTimer := nextTimer w;
       calls := calls w ++ cs |}).

(** [window.setTimeout(callback, delay)]; the callback the engine passes is
    always [tick] below. *)
Definition setTimeout (delay : float) : M nat := fun w =>
  (Normal (nextTimer w),
   {| engine := engine w; pending := pending w ++ [(nextTimer w, delay)];
      nextTimer := S (nextTimer w); calls := calls w |}).

Definition clearTimeout (t : nat) : M unit :=
  modify (fun w =>
    {| engine := engine w;
       pending := List.filter (fun td => negb (Nat.eqb (fst td) t)) (pending w);
       nextTimer := nextTimer w; calls := calls w |}).

Definition getCurrentWordInfo (st : RSVPState) : option CurrentWordInfo :=
  match book st with
  | None => None
  | Some b =>
      match js_index (chapters b) (chapterIndex (position st)) with
      | None => None
      | Some chapter =>
          match js_index (paragraphs chapter) (paragraphIndex (position st)) with
          | None => None
          | Some paragraph =>
              match js_index (words paragraph) (wordIndex (position st)) with
              | None => None
              | Some w =>
                  Some {| word := w;
                          info_position := position st;
                          totalWordsInParagraph := js_length (words paragraph);
                          totalParagraphsInChapter := js_length (paragraphs chapter);
                          totalChapters := js_length (chapters b);
                          chapterTitle := title chapter |}
              end
          end
      end
  end.

(** [book.chapters[c]?.paragraphs[p]?.words[w] ?? null] *)
Definition getCurrentWord (st : RSVPState) : option ProcessedWord :=
  match book st with
  | None => None
  | Some b =>
      match js_index (chapters b) (chapterIndex (position st)) with
      | None => None
      | Some chapter =>
          match js_index (paragraphs chapter) (paragraphIndex (position st)) with
          | None => None
          | Some paragraph => js_index (words paragraph) (wordIndex (position st))
          end
      end
  end.

Definition getPosition : M ReadingPosition := this_position.

Definition getBook : M (option ProcessedBook) := gets (fun w => book (state (engine w))).

Definition getStatus : M RSVPStatus := gets (fun w => status (state (engine w))).

Definition getViewMode : M ViewMode := gets (fun w => viewMode (state (engine w))).

Definition getWPM : M float := gets (fun w => wpm (state (engine w))).

Definition setWPM (n : float) : M unit := set_state (with_wpm n).

Definition setTimingSettingsGetter (getter : unit -> TimingSettings) : M unit :=
  modify (with_engine (with_timingSettingsGetter getter)).

(** [this.timingSettingsGetter?.() ?? DEFAULT_TIMING_SETTINGS] *)
Definition getTimingSettings : M TimingSettings :=
  gets (fun w =>
    match timingSettingsGetter (engine w) with
    | Some getter => getter tt
    | None => DEFAULT_TIMING_SETTINGS
    end).

Definition setStatus (s : RSVPStatus) : M unit :=
  set_state (with_status s) ;;
  ls ← gets (fun w => statusListeners (engine w));
  invoke (map (fun l => CallStatus l s) ls).

Definition notifyWordChange : M unit :=
  st ← this_state;
  let info := getCurrentWordInfo st in
  ls ← gets (fun w => wordListeners (engine w));
  invoke (map (fun l => CallWord l info) ls).

Definition pause : M unit :=
  t ← gets (fun w => timerId (engine w));
  match t with
  | Some id => clearTimeout id ;; modify (with_engine (with_timerId None))
  | None => mret tt
  end ;;
  st ← this_state;
  if bool_decide (status st = playing) then setStatus paused else mret tt.

Definition advance : M unit :=
  st ← this_state;
  match book st with
  | None => mret tt
  | Some b =>
      let ci := chapterIndex (position st) in
      let pi := paragraphIndex (position st) in
      let wi := wordIndex (position st) in
      match js_index (chapters b) ci with
      | None => mret tt
      | Some chapter =>
          match js_index (paragraphs chapter) pi with
          | None => mret tt
          | Some paragraph =>
              if wi + 1 <? js_length (words paragraph) then
                set_position (fun p => with_wordIndex (wordIndex p + 1) p)
              else if pi + 1 <? js_length (paragraphs chapter) then
                set_position (fun p => with_paragraphIndex (paragraphIndex p + 1) p) ;;
                set_position (with_wordIndex 0)
              else if ci + 1 <? js_length (chapters b) then
                set_position (fun p => with_chapterIndex (chapterIndex p + 1) p) ;;
                set_position (with_paragraphIndex 0) ;;
                set_position (with_wordIndex 0)
              else pause
          end
      end
  end.

Definition retreat : M unit :=
  st ← this_state;
  match book st with
  | None => mret tt
  | Some b =>
      let ci := chapterIndex (position st) in
      let pi := paragraphIndex (position st) in
      let wi := wordIndex (position st) in
      if wi >? 0 then
        set_position (fun p => with_wordIndex (wordIndex p - 1) p)
      else if pi >? 0 then
        set_position (fun p => with_paragraphIndex (paragraphIndex p - 1) p) ;;
        chapter ← deref (js_index (chapters b) ci);
        p ← this_position;
        newParagraph ← deref (js_index (paragraphs chapter) (paragraphIndex p));
        set_position (with_wordIndex (Math_max 0 (js_length (words newParagraph) - 1)))
      else if ci >? 0 then
        set_position (fun p => with_chapterIndex (chapterIndex p - 1) p) ;;
        p ← this_position;
        newChapter ← deref (js_index (chapters b) (chapterIndex p));
        set_position (with_paragraphIndex
                        (Math_max 0 (js_length (paragraphs newChapter) - 1))) ;;
        p ← this_position;
        newParagraph ← deref (js_index (paragraphs newChapter) (paragraphIndex p));
        set_position (with_wordIndex (Math_max 0 (js_length (words newParagraph) - 1)))
      else mret tt
  end.

Definition nextWord : M unit :=
  st ← this_state;
  match book st with
  | None => mret tt
  | Some _ => advance ;; notifyWordChange
  end.

Definition prevWord : M unit :=
  st ← this_state;
  match book st with
  | None => mret tt
  | Some _ => retreat ;; notifyWordChange
  end.

Definition restartParagraph : M unit :=
  set_position (with_wordIndex 0) ;;
  notifyWordChange.

Definition goToChapter (i : Z) : M unit :=
  st ← this_state;
  match book st with
  | None => mret tt
  | Some b =>
      if (i <? 0) || (i >=? js_length (chapters b)) then mret tt
      else
        set_position (fun _ => {| chapterIndex := i; paragraphIndex := 0; wordIndex := 0 |}) ;;
        notifyWordChange
  end.

Definition nextChapter : M unit :=
  st ← this_state;
  match book st with
  | None => mret tt
  | Some b =>
      let next := chapterIndex (position st) + 1 in
      if next <? js_length (chapters b) then goToChapter next else mret tt
  end.

Definition prevChapter : M unit :=
  st ← this_state;
  let prev := chapterIndex (position st) - 1 in
  if prev >=? 0 then goToChapter prev else mret tt.

Definition setViewMode (mode : ViewMode) : M unit :=
  st ← this_state;
  if bool_decide (viewMode st = mode) then mret tt
  else
    (if bool_decide (mode = mode_paragraph) then pause else mret tt) ;;
    set_state (with_viewMode mode) ;;
    ls ← gets (fun w => viewModeListeners (engine w));
    invoke (map (fun l => CallViewMode l mode) ls).

Definition toggleViewMode : M unit :=
  st ← this_state;
  setViewMode (if bool_decide (viewMode st = mode_rsvp) then mode_paragraph else mode_rsvp).

Definition setPosition (pos : ReadingPosition) : M unit :=
  st ← this_state;
  match book st with
  | None => mret tt
  | Some b =>
      let ci := chapterIndex pos in
      let pi := paragraphIndex pos in
      let wi := wordIndex pos in
      if (ci <? 0) || (ci >=? js_length (chapters b)) then mret tt
      else
        chapter ← deref (js_index (chapters b) ci);
        if (pi <? 0) || (pi >=? js_length (paragraphs chapter)) then mret tt
        else
          paragraph ← deref (js_index (paragraphs chapter) pi);
          if (wi <? 0) || (wi >=? js_length (words paragraph)) then mret tt
          else
            set_position (fun _ =>
              {| chapterIndex := ci; paragraphIndex := pi; wordIndex := wi |}) ;;
            notifyWordChange
  end.

(** [Set.prototype.add] and [Set.prototype.delete] on a set of listeners. *)
Definition set_add (l : Listener) (ls : list Listener) : list Listener :=
  if bool_decide (l ∈ ls) then ls else ls ++ [l].

Definition set_delete (l : Listener) (ls : list Listener) : list Listener :=
  List.filter (fun l' => negb (Nat.eqb l' l)) ls.

(** [onWordChange(callback)], and the function it returns. *)
Definition onWordChange (callback : Listener) : M unit :=
  modify (with_engine (fun e => with_wordListeners (set_add callback (wordListeners e)) e)).

Definition offWordChange (callback : Listener) : M unit :=
  modify (with_engine (fun e => with_wordListeners (set_delete callback (wordListeners e)) e)).

Definition onStatusChange (callback : Listener) : M unit :=
  modify (with_engine (fun e => with_statusListeners (set_add callback (statusListeners e)) e)).

Definition offStatusChange (callback : Listener) : M unit :=
  modify (with_engine (fun e => with_statusListeners (set_delete callback (statusListeners e)) e)).

Definition onViewModeChange (callback : Listener) : M unit :=
  modify (with_engine (fun e =>
    with_viewModeListeners (set_add callback (viewModeListeners e)) e)).

Definition offViewModeChange (callback : Listener) : M unit :=
  modify (with_engine (fun e =>
    with_viewModeListeners (set_delete callback (viewModeListeners e)) e)).

Section Playback.

Variable toLowerCase : jsstring -> jsstring.
Variable wordRanks : option (gmap jsstring Z).

Definition scheduleNext : M unit :=
  st ← this_state;
  if bool_decide (status st <> playing) then mret tt
  else
    match getCurrentWord st with
    | None => pause
    | Some w =>
        settings ← getTimingSettings;
        let totalDelay :=
          calculateTotalDelay toLowerCase wordRanks (text w) (wpm st) settings in
        t ← setTimeout totalDelay;
        modify (with_engine (with_timerId (Some t)))
    end.

Definition play : M unit :=
  st ← this_state;
  if bool_decide (status st <> ready) && bool_decide (status st <> paused) then mret tt
  else setStatus playing ;; scheduleNext.

Definition toggle : M unit :=
  st ← this_state;
  if bool_decide (status st = playing) then pause else play.

Definition loadBook (b : ProcessedBook) : M unit :=
  pause ;;
  set_state (with_book b) ;;
  set_position (fun _ => {| chapterIndex := 0; paragraphIndex := 0; wordIndex := 0 |}) ;;
  setStatus ready ;;
  notifyWordChange.

(** The callback given to [setTimeout]. *)
Definition tick : M unit :=
  advance ;;
  notifyWordChange ;;
  scheduleNext.

(** The host fires the pending timer [t]: it leaves the pending set and its
    callback runs. A handle that is not pending fires nothing. *)
Definition fire (t : nat) : M unit :=
  ts ← gets pending;
  if existsb (fun td => Nat.eqb (fst td) t) ts then clearTimeout t ;; tick
  else mret tt.

(** The public operations that section 3 of the specification speaks of. *)
Inductive Operation :=
  | OpLoadBook (b : ProcessedBook)
  | OpPlay
  | OpPause
  | OpNextWord
  | OpPrevWord
  | OpRestartParagraph
  | OpGoToChapter (i : Z)
  | OpNextChapter
  | OpPrevChapter
  | OpSetPosition (pos : ReadingPosition)
  | OpSetViewMode (mode : ViewMode).

Definition run (o : Operation) : M unit :=
  match o with
  | OpLoadBook b => loadBook b
  | OpPlay => play
  | OpPause => pause
  | OpNextWord => nextWord
  | OpPrevWord => prevWord
  | OpRestartParagraph => restartParagraph
  | OpGoToChapter i => goToChapter i
  | OpNextChapter => nextChapter
  | OpPrevChapter => prevChapter
  | OpSetPosition pos => setPosition pos
  | OpSetViewMode mode => setViewMode mode
  end.

End Playback.

(** ** Building words: src/rsvp/word-processor.ts, src/rsvp/timing.ts *)

Definition LEGACY_DELAYS : list (jsstring * Z) :=
  [ ([44%N], 150); ([59%N], 150); ([58%N], 150); ([46%N], 300);
    ([33%N], 300); ([63%N], 300); ([8212%N], 200); ([45%N], 50) ].

Fixpoint legacy_get (table : list (jsstring * Z)) (key : jsstring) : option Z :=
  match table with
  | [] => None
  | (k, v) :: rest => if bool_decide (k = key) then Some v else legacy_get rest key
  end.

Definition calculateWordDelay (w : jsstring) : Z :=
  let lastChar := slice_last w in
  default 0 (legacy_get LEGACY_DELAYS lastChar).

Definition processWord (t : jsstring) : ProcessedWord :=
  {| text := t; orpIndex := calculateORP t; delay := calculateWordDelay t |}.

(** ** Sample books *)

Definition sample_paragraph (ws : list string) : Paragraph :=
  {| words := map (fun s => processWord (js s)) ws; sourceElement := js "p" |}.

Definition sample_chapter (i : Z) (ps : list (list string)) : Chapter :=
  {| index := i; title := js "Chapter"; paragraphs := map sample_paragraph ps |}.

Definition sample_book (cs : list (list (list string))) : ProcessedBook :=
  {| book_title := js "Untitled"; author := js "Unknown";
     chapters := imap (fun i ps => sample_chapter (Z.of_nat i) ps) cs |}.

(** One chapter, one paragraph, three words. *)
Definition book_abc : ProcessedBook :=
  sample_book [ [ ["a"; "b"; "c."]%string ] ].

(** Two chapters of one paragraph each. *)
Definition book_two : ProcessedBook :=
  sample_book [ [ ["one"; "two"]%string ]; [ ["three"]%string ] ].

(** A first chapter without paragraphs, then a chapter of one word. *)
Definition book_gap : ProcessedBook :=
  sample_book [ [ ]; [ ["a"]%string ] ].

(** A single chapter without paragraphs. *)
Definition book_hollow : ProcessedBook := sample_book [ [ ] ].

(** No chapter at all. *)
Definition book_none : ProcessedBook := sample_book [ ].

Definition pos (c p w : Z) : ReadingPosition :=
  {| chapterIndex := c; paragraphIndex := p; wordIndex := w |}.

(** The world after [m] has run on [w]. *)
Definition after {A : Type} (m : M A) (w : World) : World := snd (m w).

(** ** Outstanding continuations *)

(** The engine holds the handle [t] and the host has the timer [t] armed. *)
Definition armed (t : nat) (w : World) : Prop :=
  timerId (engine w) = Some t /\ In t (map fst (pending w)).

(** A scheduled continuation is outstanding: the status is playing and the
    timer whose handle the engine holds is pending. *)
Definition outstanding (t : nat) (w : World) : Prop :=
  status (state (engine w)) = playing /\ armed t w.

(** The handle [t] is cancelled: the engine holds no handle and the host has
    no timer [t] pending. *)
Definition cancelled (t : nat) (w : World) : Prop :=
  timerId (engine w) = None /\ ~ In t (map fst (pending w)).

(** [advance] finds nothing to move to and pauses: a book is loaded, the
    chapter and the paragraph of the position exist, and its three tests (a
    next word in the paragraph, a next paragraph in the chapter, a next
    chapter in the book) all fail. For a valid position this is the last
    word of the last paragraph of the last chapter. *)
Definition at_end_of_book (w : World) : bool :=
  let st := state (engine w) in
  match book st with
  | None => false
  | Some b =>
      match js_index (chapters b) (chapterIndex (position st)) with
      | None => false
      | Some chapter =>
          match js_index (paragraphs chapter) (paragraphIndex (position st)) with
          | None => false
          | Some paragraph =>
              negb (wordIndex (position st) + 1 <? js_length (words paragraph))
              && negb (paragraphIndex (position st) + 1 <? js_length (paragraphs chapter))
              && negb (chapterIndex (position st) + 1 <? js_length (chapters b))
          end
      end
  end.

(** A world in which [book_abc] is being played: the first word is current
    and the continuation that will advance from it is armed. *)
Definition world_playing_abc : World :=
  after (loadBook book_abc ;; play (fun s => s) None) new_World.

(** ** The position invariant of the engine *)

(** A book is loaded and the position is valid for it. *)
Definition holds_valid_position (w : World) : Prop :=
  exists b, book (state (engine w)) = Some b /\
            valid_position b (position (state (engine w))).

(** What an operation asks of the book for the invariant to survive it:
    the operations that move across a paragraph or chapter boundary, or to
    the start of a chapter, rely on the book having no empty chapter and no
    empty paragraph; [loadBook] relies on the same of the book it is given,
    and on its having a chapter; the others ask nothing. *)
Definition book_requirement (o : Operation) (b : ProcessedBook) : Prop :=
  match o with
  | OpLoadBook b' => chapters b' <> [] /\ dense b'
  | OpNextWord | OpPrevWord | OpGoToChapter _ | OpNextChapter | OpPrevChapter => dense b
  | OpPlay | OpPause | OpRestartParagraph | OpSetPosition _ | OpSetViewMode _ => True
  end.

(** [book_gap] loaded, with the reader at its only word. *)
Definition world_gap : World :=
  after (loadBook book_gap ;; setPosition (pos 1 0 0)) new_World.

(** [book_two] loaded, with the reader at the last word of its first chapter. *)
Definition world_two : World :=
  after (loadBook book_two ;; setPosition (pos 0 0 1)) new_World.

(** ** Relations that a computation keeps *)

(** [preserves R m]: whatever [m] does, and however it completes, the world
    it leaves is [R]-related to the world it started in. *)
Definition preserves {A : Type} (R : relation World) (m : M A) : Prop :=
  forall w, R w (snd (m w)).

(** [total m]: [m] never throws. *)
Definition total {A : Type} (m : M A) : Prop :=
  forall w, exists a, fst (m w) = Normal a.

(** The engine holds the same handle and the host the same pending timers. *)
Definition same_timers (w w' : World) : Prop :=
  timerId (engine w') = timerId (engine w) /\ pending w' = pending w.

(** The same book and the same position. *)
Definition same_place (w w' : World) : Prop :=
  book (state (engine w')) = book (state (engine w)) /\
  position (state (engine w')) = position (state (engine w)).

(** ** Binary64 arithmetic: notions for the timing theorems *)

(** The exponent the binary64 format gives a number of magnitude [e]. *)
Definition fexp64 (e : Z) : Z := fexp prec emax e.

(** One alignment step of the rounding: the mantissa [m] at exponent [e]
    is cut down to the exponent the format gives a number of its size. *)
Definition shr_step (m e m' e' : Z) : Prop :=
  let n := fexp64 (Zdigits2 m + e) - e in
  (n <= 0 /\ m' = m /\ e' = e) \/ (0 < n /\ m' = m / 2 ^ n /\ e' = e + n).

(** The result of rounding a non-negative mantissa, in closed form. *)
Definition round_result (m3 e3 : Z) : spec_float :=
  match m3 with
  | Z0 => S754_zero false
  | Zpos q => if e3 <=? 971 then S754_finite false q e3 else S754_infinity false
  | Zneg _ => S754_nan
  end.

(** Zero of either sign or a positive finite number. *)
Definition SFfinite_nonneg (x : spec_float) : bool :=
  match x with
  | S754_zero _ => true
  | S754_finite false _ _ => true
  | _ => false
  end.

(** Zero of either sign, a positive finite number or plus infinity. *)
Definition SFnonneg (x : spec_float) : bool :=
  match x with
  | S754_zero _ => true
  | S754_finite false _ _ => true
  | S754_infinity false => true
  | _ => false
  end.

(** A positive finite number. *)
Definition SFfinite_pos (x : spec_float) : bool :=
  match x with
  | S754_finite false _ _ => true
  | _ => false
  end.

(** A positive finite number or plus infinity. *)
Definition SFpos (x : spec_float) : bool :=
  match x with
  | S754_finite false _ _ => true
  | S754_infinity false => true
  | _ => false
  end.

(** The value of mantissa [m] at exponent [e], counted in units of the
    smallest positive number, [2^-1074]. *)
Definition V (m e : Z) : Z := m * 2 ^ (e + 1074).

(** The integer speeds from [MIN_WPM] to [MAX_WPM]. *)
Definition WPM_VALUES : list Z := map (fun n => MIN_WPM + Z.of_nat n) (seq 0 901).

(** ** Every call on the engine, and the timer firing *)

Section Events.

Variable toLowerCase : jsstring -> jsstring.
Variable wordRanks : option (gmap jsstring Z).

(** What can happen to an engine: a call of one of its public methods by
    its owner, or the host firing a timer. *)
Inductive Event :=
  | EvOperation (o : Operation)
  | EvToggle
  | EvToggleViewMode
  | EvSetWPM (n : float)
  | EvSetTimingSettingsGetter (getter : unit -> TimingSettings)
  | EvOnWordChange (l : Listener)
  | EvOffWordChange (l : Listener)
  | EvOnStatusChange (l : Listener)
  | EvOffStatusChange (l : Listener)
  | EvOnViewModeChange (l : Listener)
  | EvOffViewModeChange (l : Listener)
  | EvFire (t : nat).

Definition happen (e : Event) : M unit :=
  match e with
  | EvOperation o => run toLowerCase wordRanks o
  | EvToggle => toggle toLowerCase wordRanks
  | EvToggleViewMode => toggleViewMode
  | EvSetWPM n => setWPM n
  | EvSetTimingSettingsGetter getter => setTimingSettingsGetter getter
  | EvOnWordChange l => onWordChange l
  | EvOffWordChange l => offWordChange l
  | EvOnStatusChange l => onStatusChange l
  | EvOffStatusChange l => offStatusChange l
  | EvOnViewModeChange l => onViewModeChange l
  | EvOffViewModeChange l => offViewModeChange l
  | EvFire t => fire toLowerCase wordRanks t
  end.

(** The world after a history of events, oldest first; an event that throws
    leaves what it wrote and the history goes on. *)
Definition history (es : list Event) (w : World) : World :=
  fold_left (fun w e => after (happen e) w) es w.

End Events.

(** At most one timer is pending, and then it is the one whose handle the
    engine holds, and the engine is playing. *)
Definition single_timer (w : World) : Prop :=
  pending w = [] \/
  exists t d, pending w = [(t, d)] /\ timerId (engine w) = Some t /\
              status (state (engine w)) = playing.

(** The status never is loading, and it is idle exactly while no book is
    loaded. *)
Definition lifecycle (w : World) : Prop :=
  status (state (engine w)) <> loading /\
  (book (state (engine w)) = None <-> status (state (engine w)) = idle).

(** The same handle, pending timers, status and book. *)
Definition same_control (w w' : World) : Prop :=
  timerId (engine w') = timerId (engine w) /\
  pending w' = pending w /\
  status (state (engine w')) = status (state (engine w)) /\
  book (state (engine w')) = book (state (engine w)).

(** The same book, position, speed, view mode, listeners and settings
    provider. *)
Definition same_setup (w w' : World) : Prop :=
  book (state (engine w')) = book (state (engine w)) /\
  position (state (engine w')) = position (state (engine w)) /\
  wpm (state (engine w')) = wpm (state (engine w)) /\
  viewMode (state (engine w')) = viewMode (state (engine w)) /\
  wordListeners (engine w') = wordListeners (engine w) /\
  statusListeners (engine w') = statusListeners (engine w) /\
  viewModeListeners (engine w') = viewModeListeners (engine w) /\
  timingSettingsGetter (engine w') = timingSettingsGetter (engine w).

(** The settings a scheduling decision would read in [w]. *)
Definition current_settings (w : World) : TimingSettings :=
  match timingSettingsGetter (engine w) with
  | Some getter => getter tt
  | None => DEFAULT_TIMING_SETTINGS
  end.

(** The two invariants of a running engine together. *)
Definition engine_invariant (w : World) : Prop := single_timer w /\ lifecycle w.

(** No timer is pending. *)
Definition calm (w : World) : Prop := pending w = [] /\ lifecycle w.

(** [book_abc] and [book_hollow] loaded into a new engine that has one
    listener on each channel. *)
Definition with_listeners : M unit :=
  onWordChange 1%nat ;; onStatusChange 2%nat ;; onViewModeChange 3%nat.

Definition world_ready_abc : World :=
  after (with_listeners ;; loadBook book_abc) new_World.

Definition world_ready_hollow : World :=
  after (with_listeners ;; loadBook book_hollow) new_World.

(** One of the three tests of [advance] succeeds at [p]: a word follows in
    the paragraph, or a paragraph in the chapter, or a chapter in the book. *)
Definition has_next (b : ProcessedBook) (p : ReadingPosition) : bool :=
  match js_index (chapters b) (chapterIndex p) with
  | None => false
  | Some chapter =>
      match js_index (paragraphs chapter) (paragraphIndex p) with
      | None => false
      | Some paragraph =>
          (wordIndex p + 1 <? js_length (words paragraph))
          || (paragraphIndex p + 1 <? js_length (paragraphs chapter))
          || (chapterIndex p + 1 <? js_length (chapters b))
      end
  end.

(** One of the three tests of [retreat] succeeds at [p]. *)
Definition has_previous (p : ReadingPosition) : bool :=
  (wordIndex p >? 0) || (paragraphIndex p >? 0) || (chapterIndex p >? 0).

(** [world_playing_abc] moved to the last word of the book. *)
Definition world_playing_abc_end : World :=
  after (setPosition (pos 0 0 2)) world_playing_abc.

(** [book_two] being played from its first word. *)
Definition world_playing_two : World :=
  after (loadBook book_two ;; play (fun s => s) None) new_World.

(** [book_two] loaded, at its second word. *)
Definition world_two_second : World :=
  after (loadBook book_two ;; nextWord) new_World.

(** ** Notification rounds *)

(** The same three sets of listeners. *)
Definition same_listeners (w w' : World) : Prop :=
  wordListeners (engine w') = wordListeners (engine w) /\
  statusListeners (engine w') = statusListeners (engine w) /\
  viewModeListeners (engine w') = viewModeListeners (engine w).

(** A sequence of whole rounds: in a round every listener of one kind that is
    registered in [w] is called once, in the order of registration, and all of
    them with the same value. *)
Inductive rounds (w : World) : list Call -> Prop :=
  | rounds_nil : rounds w []
  | rounds_word info cs :
      rounds w cs ->
      rounds w (map (fun l => CallWord l info) (wordListeners (engine w)) ++ cs)
  | rounds_status s cs :
      rounds w cs ->
      rounds w (map (fun l => CallStatus l s) (statusListeners (engine w)) ++ cs)
  | rounds_viewMode m cs :
      rounds w cs ->
      rounds w (map (fun l => CallViewMode l m) (viewModeListeners (engine w)) ++ cs).

(** From [w] to [w'] the listeners stayed and whole rounds were called. *)
Definition told (w w' : World) : Prop :=
  same_listeners w w' /\ exists cs, calls w' = calls w ++ cs /\ rounds w cs.

(** The event subscribes the listener [l] to word changes. *)
Definition subscribes_word (l : Listener) (e : Event) : bool :=
  match e with
  | EvOnWordChange l' => Nat.eqb l' l
  | _ => false
  end.

(** The three sets of listeners hold no listener twice. *)
Definition listeners_distinct (w : World) : Prop :=
  NoDup (wordListeners (engine w)) /\
  NoDup (statusListeners (engine w)) /\
  NoDup (viewModeListeners (engine w)).

(** ** Timing: the multipliers in use *)

(** The multipliers that [PUNCTUATION_MULTIPLIERS] holds. *)
Definition MARK_MULTIPLIERS : list float := map snd PUNCTUATION_MULTIPLIERS.


(** ** Splitting a text into words: src/rsvp/word-processor.ts *)

(** The code units that the class [\s] matches: the white space and the line
    terminators of ECMAScript. *)
Definition is_space (c : N) : bool :=
  (((9 <=? c) && (c <=? 13))
   || (c =? 32) || (c =? 160) || (c =? 5760)
   || ((8192 <=? c) && (c <=? 8202))
   || (c =? 8232) || (c =? 8233) || (c =? 8239) || (c =? 8287)
   || (c =? 12288) || (c =? 65279))%N.

(** [text.split(/\s+/)]: the pieces between the maximal runs of white space,
    an empty piece before a leading run and after a trailing one. [piece] is
    the piece being read; [in_run] tells that the code unit before was white
    space, and then [piece] is empty. *)
Fixpoint split_spaces (s piece : jsstring) (in_run : bool) : list jsstring :=
  match s with
  | [] => [piece]
  | c :: rest =>
      if is_space c then
        if in_run then split_spaces rest [] true
        else piece :: split_spaces rest [] true
      else split_spaces rest (piece ++ [c]) false
  end.

Definition split_on_spaces (text : jsstring) : list jsstring :=
  split_spaces text [] false.

Definition processText (text : jsstring) : list ProcessedWord :=
  map processWord (List.filter (fun w => js_length w >? 0) (split_on_spaces text)).

Definition processParagraph (text sourceElement : jsstring) : Paragraph :=
  {| words := processText text; sourceElement := sourceElement |}.

(** ** The spans of the displayed word: [App.renderWord], src/ui/app.ts *)

(** The index [s.slice] makes of an argument: counted from the end when
    negative, and kept within the string. *)
Definition slice_bound (len i : Z) : Z :=
  if i <? 0 then Math_max (len + i) 0 else Math_min i len.

(** [s.slice(start, end)], and [s.slice(start)] for the end [None]. *)
Definition js_slice (s : jsstring) (start : Z) (end_ : option Z) : jsstring :=
  let len := js_length s in
  let from := slice_bound len start in
  let to := match end_ with Some e => slice_bound len e | None => len end in
  take (Z.to_nat (Math_max (to - from) 0)) (drop (Z.to_nat from) s).

(** The three texts that [renderWord] puts into the spans word-before,
    word-orp and word-after (each passes through [escapeHtml] on its way
    into the page); [text[orpIndex] || ''] is the empty string where the
    index is out of range. *)
Definition renderWord (word : ProcessedWord) : jsstring * jsstring * jsstring :=
  let before := js_slice (text word) 0 (Some (orpIndex word)) in
  let orp := match js_index (text word) (orpIndex word) with
             | Some c => [c]
             | None => []
             end in
  let after := js_slice (text word) (orpIndex word + 1) None in
  (before, orp, after).

(** ** Extracting the text of a book: src/epub/extractor.ts *)

(** What the extractor reads of the parsed documents. An element is one of
    those [querySelectorAll('p, h1, h2, h3, h4, h5, h6')] yields, in document
    order: whether it holds another such element, its [textContent] and its
    [tagName]. Of a document, the elements and the [textContent] of the first
    of its [h1], [h2] and [h3] elements, if there is one. *)
Record Element := {
  contains_block : bool;
  textContent : option jsstring;
  tagName : jsstring
}.

Record Document := {
  elements : list Element;
  heading : option (option jsstring)
}.

(** The metadata of the package; a field can be missing. *)
Record Metadata := {
  metadata_title : option jsstring;
  creator : option jsstring
}.

(** [value || fallback] on a string that can be missing: the empty string
    is falsy. *)
Definition or_else (value : option jsstring) (fallback : jsstring) : jsstring :=
  match value with
  | Some (c :: s) => c :: s
  | _ => fallback
  end.

Fixpoint drop_spaces (s : jsstring) : jsstring :=
  match s with
  | [] => []
  | c :: rest => if is_space c then drop_spaces rest else s
  end.

(** [s.trim()] *)
Definition trim (s : jsstring) : jsstring :=
  rev (drop_spaces (rev (drop_spaces s))).

(** The decimal digits of a natural number, most significant first, in
    front of [acc]. *)
Fixpoint decimal_digits (fuel : nat) (n : N) (acc : jsstring) : jsstring :=
  match fuel with
  | O => acc
  | S fuel' =>
      let acc' := (48 + n mod 10)%N :: acc in
      if (n / 10 =? 0)%N then acc' else decimal_digits fuel' (n / 10) acc'
  end.

(** The string a template literal makes of a number that holds a natural
    number. *)
Definition decimal (z : Z) : jsstring :=
  let n := Z.to_N z in
  decimal_digits (S (N.to_nat (N.log2 n))) n [].

(** [`Chapter ${index + 1}`] *)
Definition default_title (index : Z) : jsstring :=
  js "Chapter " ++ decimal (index + 1).

Section Extractor.

Variable toLowerCase : jsstring -> jsstring.

Definition findChapterTitle (doc : Document) (index : Z) : jsstring :=
  let text :=
    match heading doc with
    | Some (Some t) => Some (trim t)
    | _ => None
    end in
  match text with
  | Some t =>
      if (js_length t >? 0) && (js_length t <? 100) then t else default_title index
  | None => default_title index
  end.

(** The callback of [elements.forEach] in [extractChapter], on the
    paragraphs collected so far. *)
Definition extractElement (paragraphs : list Paragraph) (el : Element) : list Paragraph :=
  if contains_block el then paragraphs
  else
    match textContent el with
    | None => paragraphs
    | Some t =>
        let text := trim t in
        if js_length text >? 0 then
          let paragraph := processParagraph text (toLowerCase (tagName el)) in
          if js_length (words paragraph) >? 0 then paragraphs ++ [paragraph]
          else paragraphs
        else paragraphs
    end.

(** [extractChapter] on what loading the section gave: [None] when there is
    no HTML to parse or loading threw, which the function catches. *)
Definition extractChapter (section : option Document) (index : Z) : Chapter :=
  match section with
  | None => {| index := index; title := default_title index; paragraphs := [] |}
  | Some doc =>
      let paragraphs := fold_left extractElement (elements doc) [] in
      let title := findChapterTitle doc index in
      {| index := index; title := title; paragraphs := paragraphs |}
  end.

(** The loop of [extractBook] from spine index [i] on; an item is [None]
    where [book.spine.get(i)] gives nothing. *)
Fixpoint extractSpine (spine : list (option (option Document))) (i : Z)
    (chapters : list Chapter) : list Chapter :=
  match spine with
  | [] => chapters
  | item :: rest =>
      let chapters :=
        match item with
        | None => chapters
        | Some section =>
            let chapter := extractChapter section i in
            if js_length (paragraphs chapter) >? 0 then chapters ++ [chapter]
            else chapters
        end in
      extractSpine rest (i + 1) chapters
  end.

Definition extractBook (metadata : Metadata) (spine : list (option (option Document)))
  : ProcessedBook :=
  {| book_title := or_else (metadata_title metadata) (js "Untitled");
     author := or_else (creator metadata) (js "Unknown");
     chapters := extractSpine spine 0 [] |}.

(** The element gives a paragraph: it holds no other block and its text has
    a code unit that is not white space. *)
Definition gives_paragraph (el : Element) : bool :=
  negb (contains_block el)
  && match textContent el with
     | Some t => existsb (fun c => negb (is_space c)) t
     | None => false
     end.

End Extractor.

(** Every word has a text and an ORP index that addresses a code unit of
    it. *)
Definition displayable (b : ProcessedBook) : Prop :=
  Forall (fun ch =>
    Forall (fun par =>
      Forall (fun w => text w <> [] /\ 0 <= orpIndex w < js_length (text w)) (words par))
      (paragraphs ch))
    (chapters b).


(** ** The progress display: [App.updateProgress], src/ui/app.ts *)

(** The inner loop of [updateProgress] over the paragraphs of chapter [c],
    from paragraph [p] on; [counts] holds [totalWords] and
    [currentWordIndex]. *)
Fixpoint progress_paragraphs (position : ReadingPosition) (c p : Z)
    (paragraphs : list Paragraph) (counts : Z * Z) : Z * Z :=
  match paragraphs with
  | [] => counts
  | para :: rest =>
      let '(totalWords, currentWordIndex) := counts in
      let currentWordIndex :=
        if (c <? chapterIndex position)
           || ((c =? chapterIndex position) && (p <? paragraphIndex position))
           || ((c =? chapterIndex position) && (p =? paragraphIndex position))
        then
          if (c =? chapterIndex position) && (p =? paragraphIndex position)
          then totalWords + wordIndex position
          else currentWordIndex
        else currentWordIndex in
      progress_paragraphs position c (p + 1) rest
        (totalWords + js_length (words para), currentWordIndex)
  end.

(** The outer loop, from chapter [c] on. *)
Fixpoint progress_chapters (position : ReadingPosition) (c : Z)
    (chapters : list Chapter) (counts : Z * Z) : Z * Z :=
  match chapters with
  | [] => counts
  | chapter :: rest =>
      progress_chapters position (c + 1) rest
        (progress_paragraphs position c 0 (paragraphs chapter) counts)
  end.

(** [totalWords] and [currentWordIndex] when the loops are done. *)
Definition progress_counts (b : ProcessedBook) (position : ReadingPosition) : Z * Z :=
  progress_chapters position 0 (chapters b) (0, 0).

(** The number of words of some paragraphs, and of some chapters. *)
Definition paragraphs_words (ps : list Paragraph) : Z :=
  fold_right (fun par n => js_length (words par) + n) 0 ps.

Definition chapters_words (cs : list Chapter) : Z :=
  fold_right (fun ch n => paragraphs_words (paragraphs ch) + n) 0 cs.

(** The number of words of the book that come before the position. *)
Definition words_before (b : ProcessedBook) (p : ReadingPosition) : Z :=
  chapters_words (take (Z.to_nat (chapterIndex p)) (chapters b))
  + match js_index (chapters b) (chapterIndex p) with
    | Some ch => paragraphs_words (take (Z.to_nat (paragraphIndex p)) (paragraphs ch))
    | None => 0
    end
  + wordIndex p.

(** ** Changing the speed: [App.adjustWPM], src/ui/app.ts *)

Definition WPM_STEP : Z := 25.

(** [Math.max] and [Math.min] on two numbers: NaN when one of them is NaN,
    and of two zeros the positive one is the larger. *)
Definition Math_max_number (a b : float) : float :=
  if PrimFloat.is_nan a || PrimFloat.is_nan b then nan
  else if (a <? b)%float then b
  else if (b <? a)%float then a
  else if PrimFloat.is_zero a && PrimFloat.get_sign a then b else a.

Definition Math_min_number (a b : float) : float :=
  if PrimFloat.is_nan a || PrimFloat.is_nan b then nan
  else if (a <? b)%float then a
  else if (b <? a)%float then b
  else if PrimFloat.is_zero a && negb (PrimFloat.get_sign a) then b else a.

(** What [adjustWPM] does to the engine; it also writes the new speed into
    the slider of the page. *)
Definition adjustWPM (delta : float) : M unit :=
  current ← getWPM;
  let newWPM :=
    Math_max_number (Number MIN_WPM) (Math_min_number (Number MAX_WPM) (current + delta)) in
  setWPM newWPM.

(** ** Building the word list: [loadWordlist], src/wordlist.ts *)

(** [text.split('\n')] *)
Fixpoint split_lines (s piece : jsstring) : list jsstring :=
  match s with
  | [] => [piece]
  | c :: rest =>
      if (c =? 10)%N then piece :: split_lines rest []
      else split_lines rest (piece ++ [c])
  end.

(** [words.forEach((word, index) => wordRanks.set(word, index + 1))] from
    [index] on; [set] on a key that is present overwrites its value. *)
Fixpoint set_ranks (words : list jsstring) (index : Z) (ranks : gmap jsstring Z)
  : gmap jsstring Z :=
  match words with
  | [] => ranks
  | word :: rest => set_ranks rest (index + 1) (<[ word := index + 1 ]> ranks)
  end.

Section LoadWordlist.

Variable toLowerCase : jsstring -> jsstring.

(** The words of the response, one to a line. *)
Definition wordlist_words (text : jsstring) : list jsstring :=
  List.filter (fun w => js_length w >? 0)
              (map (fun w => toLowerCase (trim w)) (split_lines text [])).

(** [loadWordlist] on the value of [wordRanks] and on what fetching the
    list gave: [None] for a response that is not ok and for a failure, which
    the function catches. The result is the new value of [wordRanks]. *)
Definition loadWordlist (wordRanks : option (gmap jsstring Z)) (response : option jsstring)
  : option (gmap jsstring Z) :=
  match wordRanks with
  | Some ranks => Some ranks
  | None =>
      match response with
      | None => Some ∅
      | Some text => Some (set_ranks (wordlist_words text) 0 ∅)
      end
  end.

End LoadWordlist.

(** The place of the last occurrence of [w] in [words], from 0. *)
Fixpoint last_place (w : jsstring) (words : list jsstring) : option nat :=
  match words with
  | [] => None
  | x :: rest =>
      match last_place w rest with
      | Some i => Some (S i)
      | None => if bool_decide (x = w) then Some O else None
      end
  end.

(** ** Theorems: word unit *)

Lemma strip_trailing_le test word len :
  (strip_trailing test word len <= len)%nat.
Proof.
  induction len as [|k IH]; simpl; [lia|].
  destruct (test (word !! k)); lia.
Qed.

Lemma orp_policy_range len n :
  0 <= len <= n -> 0 < n -> 0 <= orp_policy len < n.
Proof.
  intros Hlen Hn. unfold orp_policy.
  destruct (Z.leb_spec len 1); [lia|].
  destruct (Z.leb_spec len 3); [lia|].
  split; [|].
  - assert (2 <= len / 2) by (apply Z.div_le_lower_bound; lia). lia.
  - assert (len / 2 <= len) by (apply Z.div_le_upper_bound; lia). lia.
Qed.

(** C10. For every non-empty word text, [calculateORP] returns an index [i]
    with [0 <= i < text.length]: the recognition offset always points into
    the original, unstripped text. *)
Theorem calculateORP_in_bounds (text : jsstring) :
  text <> [] -> 0 <= calculateORP text < js_length text.
Proof.
  intros Hne. unfold calculateORP, js_length.
  apply orp_policy_range.
  - pose proof (strip_trailing_le orp_test text (length text)). lia.
  - destruct text; [congruence | simpl; lia].
Qed.

Lemma calculateORP_in_bounds_witness :
  js "hello," <> [] /\ 0 <= calculateORP (js "hello,") < js_length (js "hello,").
Proof.
  split; [discriminate | apply (calculateORP_in_bounds (js "hello,")); discriminate].
Defined.

(** C5 (the code departs from the reference definition). On the two code
    units of the text a— (the letter a, then the em dash U+2014) the source's class
    does not hold the em dash, so nothing is stripped: the code measures
    L = 2 and answers 1, where the reference definition strips the dash,
    measures L = 1 and answers 0. *)
Theorem calculateORP_em_dash_not_stripped :
  calculateORP [97; 8212]%N = 1 /\ recognitionOffset_spec [97; 8212]%N = 0.
Proof. split; reflexivity. Qed.


(** Away from the four code units on which the two classes differ (U+00E2,
    U+20AC, U+201D and the em dash U+2014) the code computes the reference
    definition. *)
Lemma calculateORP_agrees_elsewhere (word : jsstring) :
  Forall (fun c => in_class [226; 8364; 8221; 8212]%N c = false) word ->
  calculateORP word = recognitionOffset_spec word.
Proof.
  intros Hall. unfold calculateORP, recognitionOffset_spec. do 2 f_equal.
  assert (Hsame : forall k, orp_test (word !! k) = spec_test (word !! k)).
  { intros k. destruct (word !! k) as [c|] eqn:Hk; [|reflexivity].
    rewrite Forall_lookup in Hall. specialize (Hall k c Hk).
    unfold orp_test, spec_test, in_class, ORP_PUNCT, SPEC_PUNCT in *. simpl in *.
    repeat (apply orb_false_iff in Hall as [? Hall]).
    repeat match goal with H : (c =? _)%N = false |- _ => rewrite H; clear H end.
    reflexivity. }
  induction (length word) as [|k IH]; simpl; [reflexivity|].
  rewrite Hsame. destruct (spec_test (word !! k)); [exact IH | reflexivity].
Qed.

(** ** Theorems: arrays and the validity invariant *)

Lemma js_index_Some {A : Type} (arr : list A) (i : Z) (x : A) :
  js_index arr i = Some x -> 0 <= i < js_length arr.
Proof.
  unfold js_index, js_length. destruct (Z.ltb_spec i 0); [discriminate|].
  intros Hx. apply lookup_lt_Some in Hx. lia.
Qed.

Lemma js_index_in_range {A : Type} (arr : list A) (i : Z) :
  0 <= i < js_length arr -> exists x, js_index arr i = Some x.
Proof.
  unfold js_index, js_length. intros Hi.
  destruct (Z.ltb_spec i 0); [lia|].
  destruct (lookup_lt_is_Some_2 arr (Z.to_nat i)) as [x Hx]; [lia|].
  exists x. exact Hx.
Qed.

Lemma js_index_None {A : Type} (arr : list A) (i : Z) :
  js_index arr i = None -> i < 0 \/ js_length arr <= i.
Proof.
  intros Hn. destruct (Z_lt_dec i 0); [left; lia|].
  destruct (Z_le_dec (js_length arr) i); [right; lia|].
  destruct (js_index_in_range arr i) as [x Hx]; [lia | congruence].
Qed.

Lemma js_index_of_nat {A : Type} (arr : list A) (n : nat) :
  js_index arr (Z.of_nat n) = arr !! n.
Proof.
  unfold js_index. destruct (Z.ltb_spec (Z.of_nat n) 0); [lia|].
  now rewrite Nat2Z.id.
Qed.

Lemma js_length_nil {A : Type} (arr : list A) :
  js_length arr = 0 <-> arr = [].
Proof.
  unfold js_length. destruct arr; simpl; split; intros; try congruence; lia.
Qed.

Lemma valid_positionb_spec (b : ProcessedBook) (p : ReadingPosition) :
  valid_positionb b p = true <-> valid_position b p.
Proof.
  unfold valid_positionb, valid_position. split.
  - destruct (js_index (chapters b) (chapterIndex p)) as [ch|] eqn:Hch; [|discriminate].
    destruct (js_index (paragraphs ch) (paragraphIndex p)) as [par|] eqn:Hpar; [|discriminate].
    intros Hw. apply andb_true_iff in Hw as [Hw1 Hw2].
    apply Z.leb_le in Hw1. apply Z.ltb_lt in Hw2.
    split; [eapply js_index_Some; eauto|].
    intros ch' Hch'. assert (ch' = ch) by congruence. subst ch'.
    split; [eapply js_index_Some; eauto|].
    intros par' Hpar'. assert (par' = par) by congruence. subst par'. lia.
  - intros [Hc Hrest].
    destruct (js_index_in_range _ _ Hc) as [ch Hch]. rewrite Hch.
    destruct (Hrest ch Hch) as [Hp Hrest'].
    destruct (js_index_in_range _ _ Hp) as [par Hpar]. rewrite Hpar.
    specialize (Hrest' par Hpar).
    apply andb_true_iff. split; [apply Z.leb_le | apply Z.ltb_lt]; lia.
Qed.

(** ** Theorems: the engine *)

(** Unfolding the computations of the engine. *)
Ltac simpl_fields :=
  cbn [engine pending nextTimer calls state timerId wordListeners statusListeners
       viewModeListeners timingSettingsGetter status position wpm book viewMode
       chapterIndex paragraphIndex wordIndex with_status with_position with_wpm
       with_book with_viewMode with_chapterIndex with_paragraphIndex with_wordIndex
       with_state with_timerId with_wordListeners with_statusListeners
       with_viewModeListeners with_timingSettingsGetter with_engine relocate fst snd].

Ltac unfold_M :=
  repeat progress
    (unfold mbind, M_bind, mret, M_ret, throw, gets, modify, deref,
       this_state, this_position, set_state, set_position, invoke;
     cbv beta iota zeta; simpl_fields).

(** C6. With a book loaded, [setPosition] on a position with a component out
    of range (a position that is not valid for the book) leaves the whole
    world as it was: no field of the engine changes and no listener is
    invoked. *)
Theorem setPosition_invalid_is_noop (w : World) (b : ProcessedBook) (pos : ReadingPosition) :
  book (state (engine w)) = Some b ->
  ~ valid_position b pos ->
  setPosition pos w = (Normal tt, w).
Proof.
  intros Hb Hinv. unfold setPosition. unfold_M. rewrite Hb.
  destruct ((chapterIndex pos <? 0) || (chapterIndex pos >=? js_length (chapters b)))
    eqn:Hc; [reflexivity|].
  apply orb_false_iff in Hc as [Hc1 Hc2].
  apply Z.ltb_ge in Hc1. rewrite Z.geb_leb in Hc2. apply Z.leb_gt in Hc2.
  destruct (js_index_in_range (chapters b) (chapterIndex pos)) as [ch Hch]; [lia|].
  rewrite Hch.
  destruct ((paragraphIndex pos <? 0) || (paragraphIndex pos >=? js_length (paragraphs ch)))
    eqn:Hp; [reflexivity|].
  apply orb_false_iff in Hp as [Hp1 Hp2].
  apply Z.ltb_ge in Hp1. rewrite Z.geb_leb in Hp2. apply Z.leb_gt in Hp2.
  destruct (js_index_in_range (paragraphs ch) (paragraphIndex pos)) as [par Hpar]; [lia|].
  rewrite Hpar.
  destruct ((wordIndex pos <? 0) || (wordIndex pos >=? js_length (words par)))
    eqn:Hw; [reflexivity|].
  apply orb_false_iff in Hw as [Hw1 Hw2].
  apply Z.ltb_ge in Hw1. rewrite Z.geb_leb in Hw2. apply Z.leb_gt in Hw2.
  exfalso. apply Hinv. apply valid_positionb_spec. unfold valid_positionb.
  rewrite Hch, Hpar. apply andb_true_iff.
  split; [apply Z.leb_le | apply Z.ltb_lt]; lia.
Qed.

Lemma setPosition_invalid_is_noop_witness :
  let w := after (loadBook book_abc) new_World in
  book (state (engine w)) = Some book_abc /\
  ~ valid_position book_abc (pos 0 0 3) /\
  setPosition (pos 0 0 3) w = (Normal tt, w).
Proof.
  assert (Hinv : ~ valid_position book_abc (pos 0 0 3)).
  { intros H. apply valid_positionb_spec in H. vm_compute in H. discriminate. }
  split; [reflexivity|]. split; [exact Hinv|].
  apply (setPosition_invalid_is_noop _ book_abc (pos 0 0 3)); [reflexivity | exact Hinv].
Defined.

(** Without a book, the four navigation requests that test for the book
    return at once: the world is as it was. *)
Lemma guarded_navigation_without_book (w : World) :
  book (state (engine w)) = None ->
  nextWord w = (Normal tt, w) /\
  prevWord w = (Normal tt, w) /\
  (forall i, goToChapter i w = (Normal tt, w)) /\
  (forall p, setPosition p w = (Normal tt, w)).
Proof.
  intros Hb. unfold nextWord, prevWord, goToChapter, setPosition. unfold_M.
  rewrite Hb. auto.
Qed.

(** C7 (the code departs from the specification in [restartParagraph]). On a new
    engine (status idle, no book) with one word-change listener,
    [restartParagraph] does not throw and does not change the engine, but it
    invokes the listener, with no word: the method lacks the test for a
    loaded book that [nextWord], [prevWord], [goToChapter] and [setPosition]
    start with. *)
Theorem restartParagraph_without_book_notifies :
  let w := after (onWordChange 1%nat) new_World in
  status (state (engine w)) = idle /\
  book (state (engine w)) = None /\
  calls w = [] /\
  fst (restartParagraph w) = Normal tt /\
  engine (after restartParagraph w) = engine w /\
  calls (after restartParagraph w) = [CallWord 1%nat None].
Proof. repeat split; reflexivity. Qed.

(** C3 (the code throws). In [book_gap] the first chapter has no paragraph.
    From the valid position (1,0,0), [prevWord] steps into that chapter,
    sets the paragraph index to 0, reads [paragraphs[0]], which is
    [undefined], and throws a [TypeError] on reading its [words]; the
    position it leaves behind, (0,0,0), is not valid, and no listener is
    told. *)
Theorem prevWord_throws_into_empty_chapter :
  let w := after (loadBook book_gap ;; setPosition (pos 1 0 0) ;; onWordChange 1%nat)
                 new_World in
  book (state (engine w)) = Some book_gap /\
  position (state (engine w)) = pos 1 0 0 /\
  valid_positionb book_gap (pos 1 0 0) = true /\
  fst (prevWord w) = Throw TypeError /\
  position (state (engine (after prevWord w))) = pos 0 0 0 /\
  valid_positionb book_gap (pos 0 0 0) = false /\
  calls (after prevWord w) = calls w.
Proof. repeat split; reflexivity. Qed.

(** *** Relations that a computation keeps *)

Section Preserves.

Variable R : relation World.
Context `{!PreOrder R}.

Lemma preserves_ret {A : Type} (a : A) : preserves R (mret a).
Proof. intros w. simpl. reflexivity. Qed.

Lemma preserves_throw {A : Type} (e : JSError) : preserves R (@throw A e).
Proof. intros w. simpl. reflexivity. Qed.

Lemma preserves_gets {A : Type} (f : World -> A) : preserves R (gets f).
Proof. intros w. simpl. reflexivity. Qed.

Lemma preserves_deref {A : Type} (o : option A) : preserves R (deref o).
Proof. destruct o; [apply preserves_ret | apply preserves_throw]. Qed.

Lemma preserves_bind {A B : Type} (m : M A) (k : A -> M B) :
  preserves R m -> (forall a, preserves R (k a)) -> preserves R (m ≫= k).
Proof.
  intros Hm Hk w. unfold mbind, M_bind.
  specialize (Hm w). destruct (m w) as [[a|e] w1]; simpl in *.
  - etransitivity; [exact Hm | apply Hk].
  - exact Hm.
Qed.

Lemma preserves_modify (f : World -> World) :
  (forall w, R w (f w)) -> preserves R (modify f).
Proof. intros Hf w. simpl. apply Hf. Qed.

End Preserves.

Lemma total_ret {A : Type} (a : A) : total (mret a).
Proof. intros w. exists a. reflexivity. Qed.

Lemma total_gets {A : Type} (f : World -> A) : total (gets f).
Proof. intros w. eexists. reflexivity. Qed.

Lemma total_modify (f : World -> World) : total (modify f).
Proof. intros w. eexists. reflexivity. Qed.

Lemma total_bind {A B : Type} (m : M A) (k : A -> M B) :
  total m -> (forall a, total (k a)) -> total (m ≫= k).
Proof.
  intros Hm Hk w. unfold mbind, M_bind.
  destruct (Hm w) as [a Ha]. destruct (m w) as [c w1]. simpl in Ha. subst c.
  apply Hk.
Qed.

(** A computation that is total and preserves [R], in one statement. *)
Lemma total_preserves_run {A : Type} (R : relation World) (m : M A) (w : World) :
  total m -> preserves R m -> exists a w', m w = (Normal a, w') /\ R w w'.
Proof.
  intros Ht Hp. destruct (Ht w) as [a Ha]. specialize (Hp w).
  destruct (m w) as [c w']. simpl in *. subst c. eauto.
Qed.

Ltac step_M lem :=
  match goal with
  | |- preserves _ (mbind _ _) => apply preserves_bind; [typeclasses eauto | | intros ?]
  | |- total (mbind _ _) => apply total_bind; [|intros ?]
  | |- preserves _ (mret _) => apply preserves_ret; typeclasses eauto
  | |- preserves _ (throw _) => apply preserves_throw; typeclasses eauto
  | |- preserves _ (gets _) => apply preserves_gets; typeclasses eauto
  | |- preserves _ (deref _) => apply preserves_deref; typeclasses eauto
  | |- preserves _ this_state => apply preserves_gets; typeclasses eauto
  | |- preserves _ this_position => apply preserves_gets; typeclasses eauto
  | |- total (mret _) => apply total_ret
  | |- total (gets _) => apply total_gets
  | |- total (modify _) => apply total_modify
  | |- total this_state => apply total_gets
  | |- total this_position => apply total_gets
  | |- total (set_state _) => apply total_modify
  | |- total (set_position _) => apply total_modify
  | |- total (invoke _) => apply total_modify
  | |- total (clearTimeout _) => apply total_modify
  | |- preserves _ (match ?x with _ => _ end) => destruct x
  | |- total (match ?x with _ => _ end) => destruct x
  | |- _ => progress cbv beta zeta
  | |- _ => lem
  end.

Ltac solve_M lem := repeat (step_M lem).

(** *** The timers *)

#[local] Instance same_timers_preorder : PreOrder same_timers.
Proof.
  split.
  - intros w. split; reflexivity.
  - intros w1 w2 w3 [H1 H2] [H3 H4]. split; congruence.
Qed.

Lemma set_state_same_timers (f : RSVPState -> RSVPState) :
  preserves same_timers (set_state f).
Proof. intros w. split; reflexivity. Qed.

Lemma set_position_same_timers (f : ReadingPosition -> ReadingPosition) :
  preserves same_timers (set_position f).
Proof. intros w. split; reflexivity. Qed.

Lemma invoke_same_timers (cs : list Call) : preserves same_timers (invoke cs).
Proof. intros w. split; reflexivity. Qed.

Ltac timers_base :=
  first [ apply set_state_same_timers
        | apply set_position_same_timers
        | apply invoke_same_timers ].

Lemma notifyWordChange_same_timers : preserves same_timers notifyWordChange.
Proof. unfold notifyWordChange. solve_M timers_base. Qed.

Lemma retreat_same_timers : preserves same_timers retreat.
Proof. unfold retreat. solve_M timers_base. Qed.

Lemma prevWord_same_timers : preserves same_timers prevWord.
Proof.
  unfold prevWord.
  solve_M ltac:(first [ apply retreat_same_timers
                      | apply notifyWordChange_same_timers ]).
Qed.

Lemma restartParagraph_same_timers : preserves same_timers restartParagraph.
Proof.
  unfold restartParagraph.
  solve_M ltac:(first [ timers_base | apply notifyWordChange_same_timers ]).
Qed.

Lemma goToChapter_same_timers (i : Z) : preserves same_timers (goToChapter i).
Proof.
  unfold goToChapter.
  solve_M ltac:(first [ timers_base | apply notifyWordChange_same_timers ]).
Qed.

Lemma setPosition_same_timers (p : ReadingPosition) : preserves same_timers (setPosition p).
Proof.
  unfold setPosition.
  solve_M ltac:(first [ timers_base | apply notifyWordChange_same_timers ]).
Qed.

Lemma clearTimeout_not_pending (t : nat) (ts : list (nat * float)) :
  ~ In t (map fst (List.filter (fun td => negb (Nat.eqb (fst td) t)) ts)).
Proof.
  intros Hin. apply in_map_iff in Hin as [[t' d] [Heq Hin]]. simpl in Heq. subst t'.
  apply filter_In in Hin as [_ Hneq]. simpl in Hneq.
  rewrite Nat.eqb_refl in Hneq. discriminate.
Qed.

(** What [pause] does while a continuation is outstanding. *)
Lemma pause_while_playing (w : World) (t : nat) :
  status (state (engine w)) = playing ->
  timerId (engine w) = Some t ->
  exists w', pause w = (Normal tt, w') /\
    timerId (engine w') = None /\
    ~ In t (map fst (pending w')) /\
    status (state (engine w')) = paused /\
    position (state (engine w')) = position (state (engine w)) /\
    book (state (engine w')) = book (state (engine w)).
Proof.
  intros Hs Ht. unfold pause, setStatus, clearTimeout. unfold_M.
  rewrite Ht. simpl. rewrite Hs. simpl.
  eexists. split; [reflexivity|]. simpl.
  repeat split. apply clearTimeout_not_pending.
Qed.

(** *** What [advance] and [retreat] compute *)

(** [advance] on a world whose position resolves to a paragraph. *)
Lemma advance_run (w : World) (b : ProcessedBook) (chapter : Chapter) (paragraph : Paragraph) :
  let p := position (state (engine w)) in
  book (state (engine w)) = Some b ->
  js_index (chapters b) (chapterIndex p) = Some chapter ->
  js_index (paragraphs chapter) (paragraphIndex p) = Some paragraph ->
  advance w =
    if wordIndex p + 1 <? js_length (words paragraph)
    then (Normal tt, relocate (pos (chapterIndex p) (paragraphIndex p) (wordIndex p + 1)) w)
    else if paragraphIndex p + 1 <? js_length (paragraphs chapter)
    then (Normal tt, relocate (pos (chapterIndex p) (paragraphIndex p + 1) 0) w)
    else if chapterIndex p + 1 <? js_length (chapters b)
    then (Normal tt, relocate (pos (chapterIndex p + 1) 0 0) w)
    else pause w.
Proof.
  intros p Hb Hch Hpar. subst p. unfold advance. unfold_M.
  rewrite Hb. unfold_M. rewrite Hch. unfold_M. rewrite Hpar. unfold_M.
  repeat match goal with |- context [if ?c then _ else _] => destruct c end;
    reflexivity.
Qed.

(** [retreat] with a book loaded: the three steps back, and where reading
    through [undefined] makes it throw. *)
Lemma retreat_run (w : World) (b : ProcessedBook) :
  let p := position (state (engine w)) in
  let ci := chapterIndex p in
  let pi := paragraphIndex p in
  let wi := wordIndex p in
  book (state (engine w)) = Some b ->
  retreat w =
    if wi >? 0 then (Normal tt, relocate (pos ci pi (wi - 1)) w)
    else if pi >? 0 then
      match js_index (chapters b) ci with
      | None => (Throw TypeError, relocate (pos ci (pi - 1) wi) w)
      | Some chapter =>
          match js_index (paragraphs chapter) (pi - 1) with
          | None => (Throw TypeError, relocate (pos ci (pi - 1) wi) w)
          | Some newParagraph =>
              (Normal tt,
               relocate (pos ci (pi - 1)
                             (Math_max 0 (js_length (words newParagraph) - 1))) w)
          end
      end
    else if ci >? 0 then
      match js_index (chapters b) (ci - 1) with
      | None => (Throw TypeError, relocate (pos (ci - 1) pi wi) w)
      | Some newChapter =>
          let pi' := Math_max 0 (js_length (paragraphs newChapter) - 1) in
          match js_index (paragraphs newChapter) pi' with
          | None => (Throw TypeError, relocate (pos (ci - 1) pi' wi) w)
          | Some newParagraph =>
              (Normal tt,
               relocate (pos (ci - 1) pi'
                             (Math_max 0 (js_length (words newParagraph) - 1))) w)
          end
      end
    else (Normal tt, w).
Proof.
  intros p ci pi wi Hb. subst p ci pi wi. unfold retreat. unfold_M.
  rewrite Hb. unfold_M.
  destruct (wordIndex (position (state (engine w))) >? 0); [reflexivity|].
  destruct (paragraphIndex (position (state (engine w))) >? 0).
  { unfold_M.
    destruct (js_index (chapters b) _) as [chapter|]; [|reflexivity]. unfold_M.
    destruct (js_index (paragraphs chapter) _) as [np|]; reflexivity. }
  destruct (chapterIndex (position (state (engine w))) >? 0); [|reflexivity].
  unfold_M.
  destruct (js_index (chapters b) _) as [nc|]; [|reflexivity]. unfold_M.
  destruct (js_index (paragraphs nc) _) as [np|]; reflexivity.
Qed.

Lemma notifyWordChange_run (w : World) :
  notifyWordChange w =
    (Normal tt,
     {| engine := engine w; pending := pending w; nextTimer := nextTimer w;
        calls := calls w ++ map (fun l => CallWord l (getCurrentWordInfo (state (engine w))))
                                (wordListeners (engine w)) |}).
Proof. reflexivity. Qed.

Lemma setStatus_run (s : RSVPStatus) (w : World) :
  setStatus s w =
    (Normal tt,
     {| engine := with_state (with_status s) (engine w);
        pending := pending w; nextTimer := nextTimer w;
        calls := calls w ++ map (fun l => CallStatus l s) (statusListeners (engine w)) |}).
Proof. reflexivity. Qed.

(** [advance] relocates, or leaves the world alone, or pauses. *)
Lemma advance_cases (w : World) :
  (exists p', advance w = (Normal tt, relocate p' w)) \/
  advance w = (Normal tt, w) \/
  advance w = pause w.
Proof.
  destruct (book (state (engine w))) as [b|] eqn:Hb.
  2:{ right; left. unfold advance. unfold_M. rewrite Hb. reflexivity. }
  destruct (js_index (chapters b) (chapterIndex (position (state (engine w)))))
    as [chapter|] eqn:Hch.
  2:{ right; left. unfold advance. unfold_M. rewrite Hb. unfold_M. rewrite Hch.
      reflexivity. }
  destruct (js_index (paragraphs chapter) (paragraphIndex (position (state (engine w)))))
    as [paragraph|] eqn:Hpar.
  2:{ right; left. unfold advance. unfold_M. rewrite Hb. unfold_M. rewrite Hch.
      unfold_M. rewrite Hpar. reflexivity. }
  rewrite (advance_run w b chapter paragraph Hb Hch Hpar).
  repeat match goal with |- context [if ?c then _ else _] => destruct c end; eauto.
Qed.

(** [nextWord] keeps the timers, except at the end of the book, where it
    pauses. *)
Lemma nextWord_timers (w : World) (t : nat) :
  status (state (engine w)) = playing ->
  timerId (engine w) = Some t ->
  if at_end_of_book w
  then cancelled t (after nextWord w) /\
       status (state (engine (after nextWord w))) = paused /\
       position (state (engine (after nextWord w))) = position (state (engine w))
  else same_timers w (after nextWord w).
Proof.
  intros Hs Ht. unfold at_end_of_book, after, nextWord. unfold_M.
  destruct (book (state (engine w))) as [b|] eqn:Hb; [|split; reflexivity].
  unfold_M.
  destruct (js_index (chapters b) (chapterIndex (position (state (engine w)))))
    as [chapter|] eqn:Hch.
  2:{ assert (Ha : advance w = (Normal tt, w)).
      { unfold advance. unfold_M. rewrite Hb. unfold_M. rewrite Hch. reflexivity. }
      rewrite Ha, notifyWordChange_run. split; reflexivity. }
  destruct (js_index (paragraphs chapter) (paragraphIndex (position (state (engine w)))))
    as [paragraph|] eqn:Hpar.
  2:{ assert (Ha : advance w = (Normal tt, w)).
      { unfold advance. unfold_M. rewrite Hb. unfold_M. rewrite Hch. unfold_M.
        rewrite Hpar. reflexivity. }
      rewrite Ha, notifyWordChange_run. split; reflexivity. }
  rewrite (advance_run w b chapter paragraph Hb Hch Hpar).
  destruct (wordIndex (position (state (engine w))) + 1 <? js_length (words paragraph));
    cbn [negb andb]; cbv beta iota.
  { rewrite notifyWordChange_run. split; reflexivity. }
  destruct (paragraphIndex (position (state (engine w))) + 1
            <? js_length (paragraphs chapter));
    cbn [negb andb]; cbv beta iota.
  { rewrite notifyWordChange_run. split; reflexivity. }
  destruct (chapterIndex (position (state (engine w))) + 1 <? js_length (chapters b));
    cbn [negb andb]; cbv beta iota.
  { rewrite notifyWordChange_run. split; reflexivity. }
  destruct (pause_while_playing w t Hs Ht) as (w1 & Hp & Hid & Hpend & Hst & Hpos & _).
  rewrite Hp. rewrite notifyWordChange_run. unfold cancelled. simpl. auto.
Qed.

Lemma same_timers_armed (t : nat) (w w' : World) :
  same_timers w w' -> armed t w -> armed t w'.
Proof. intros [H1 H2] [H3 H4]. unfold armed. rewrite H1, H2. auto. Qed.

(** C2 (as the code has it). While a continuation is outstanding, [pause]
    cancels it and sets the status to paused. The direct navigation
    operations do not cancel it: after [prevWord], [restartParagraph],
    [goToChapter] and [setPosition], however they complete, the engine holds
    the same handle and the same timer is pending. So it is after [nextWord]
    wherever the call is not made at the end of the book; at the end of the
    book, and only there, [nextWord] pauses, which cancels, and leaves the
    position where it was. *)
Theorem cancellation_by_pause_only (w : World) (t : nat) :
  outstanding t w ->
  (exists w', pause w = (Normal tt, w') /\ cancelled t w' /\
              status (state (engine w')) = paused) /\
  armed t (after prevWord w) /\
  armed t (after restartParagraph w) /\
  (forall i, armed t (after (goToChapter i) w)) /\
  (forall p, armed t (after (setPosition p) w)) /\
  (if at_end_of_book w
   then cancelled t (after nextWord w) /\
        status (state (engine (after nextWord w))) = paused /\
        position (state (engine (after nextWord w))) = position (state (engine w))
   else armed t (after nextWord w)).
Proof.
  intros [Hs Harmed]. pose proof Harmed as [Ht Hpend].
  split.
  { destruct (pause_while_playing w t Hs Ht) as (w1 & Hp & Hid & Hnp & Hst & _).
    exists w1. unfold cancelled. auto. }
  split; [eapply same_timers_armed; [apply prevWord_same_timers | exact Harmed]|].
  split; [eapply same_timers_armed; [apply restartParagraph_same_timers | exact Harmed]|].
  split; [intros i; eapply same_timers_armed; [apply goToChapter_same_timers | exact Harmed]|].
  split; [intros p; eapply same_timers_armed; [apply setPosition_same_timers | exact Harmed]|].
  pose proof (nextWord_timers w t Hs Ht) as Hnext.
  destruct (at_end_of_book w); [exact Hnext|].
  eapply same_timers_armed; [exact Hnext | exact Harmed].
Qed.

Lemma world_playing_abc_outstanding : outstanding 1 world_playing_abc.
Proof. repeat split; vm_compute; auto. Qed.

Lemma cancellation_by_pause_only_witness :
  outstanding 1 world_playing_abc /\
  at_end_of_book world_playing_abc = false /\
  armed 1 (after prevWord world_playing_abc) /\
  armed 1 (after nextWord world_playing_abc).
Proof.
  assert (He : at_end_of_book world_playing_abc = false) by reflexivity.
  split; [exact world_playing_abc_outstanding|]. split; [exact He|].
  pose proof (cancellation_by_pause_only world_playing_abc 1 world_playing_abc_outstanding)
    as (_ & Hprev & _ & _ & _ & Hnext).
  split; [exact Hprev|].
  rewrite He in Hnext. exact Hnext.
Defined.

(** C2, counterexample to the original statement. In [world_playing_abc] the continuation with
    handle 1 is outstanding, scheduled when the first word was current.
    [nextWord] moves the position to the second word and returns with that
    same continuation still pending and its handle still held: nothing was
    cancelled. *)
Lemma nextWord_does_not_cancel :
  outstanding 1 world_playing_abc /\
  position (state (engine world_playing_abc)) = pos 0 0 0 /\
  fst (nextWord world_playing_abc) = Normal tt /\
  position (state (engine (after nextWord world_playing_abc))) = pos 0 0 1 /\
  armed 1 (after nextWord world_playing_abc) /\
  ~ cancelled 1 (after nextWord world_playing_abc).
Proof.
  split; [exact world_playing_abc_outstanding|].
  repeat split; try (vm_compute; auto; fail).
  intros [Hnone _]. vm_compute in Hnone. discriminate.
Qed.

(** *** The position invariant *)

#[local] Instance same_place_preorder : PreOrder same_place.
Proof.
  split.
  - intros w. split; reflexivity.
  - intros w1 w2 w3 [H1 H2] [H3 H4]. split; congruence.
Qed.

Lemma same_place_holds (w w' : World) :
  same_place w w' -> holds_valid_position w -> holds_valid_position w'.
Proof.
  intros [Hb Hp] (b & Hbook & Hv). exists b. rewrite Hb, Hp. auto.
Qed.

Lemma setTimeout_total (d : float) : total (setTimeout d).
Proof. intros w. eexists. reflexivity. Qed.

Ltac place_base :=
  first [ apply setTimeout_total
        | apply preserves_modify; [typeclasses eauto | intros ?; split; reflexivity]
        | intros ?; split; reflexivity ].

Lemma setStatus_same_place (s : RSVPStatus) : preserves same_place (setStatus s).
Proof. intros w. split; reflexivity. Qed.

Lemma setStatus_total (s : RSVPStatus) : total (setStatus s).
Proof. intros w. eexists. reflexivity. Qed.

Lemma notifyWordChange_same_place : preserves same_place notifyWordChange.
Proof. intros w. split; reflexivity. Qed.

Lemma notifyWordChange_total : total notifyWordChange.
Proof. intros w. eexists. reflexivity. Qed.

Lemma pause_same_place : preserves same_place pause.
Proof.
  unfold pause. solve_M ltac:(first [apply setStatus_same_place | place_base]).
Qed.

Lemma pause_total : total pause.
Proof.
  unfold pause. solve_M ltac:(first [apply setStatus_total | place_base]).
Qed.

Lemma scheduleNext_same_place tl wr : preserves same_place (scheduleNext tl wr).
Proof.
  unfold scheduleNext, getTimingSettings.
  solve_M ltac:(first [apply pause_same_place | place_base]).
Qed.

Lemma scheduleNext_total tl wr : total (scheduleNext tl wr).
Proof.
  unfold scheduleNext, getTimingSettings.
  solve_M ltac:(first [apply pause_total | place_base]).
Qed.

Lemma play_same_place tl wr : preserves same_place (play tl wr).
Proof.
  unfold play.
  solve_M ltac:(first [apply setStatus_same_place | apply scheduleNext_same_place
                      | place_base]).
Qed.

Lemma play_total tl wr : total (play tl wr).
Proof.
  unfold play.
  solve_M ltac:(first [apply setStatus_total | apply scheduleNext_total | place_base]).
Qed.

Lemma setViewMode_same_place mode : preserves same_place (setViewMode mode).
Proof.
  unfold setViewMode.
  solve_M ltac:(first [apply pause_same_place | place_base]).
Qed.

Lemma setViewMode_total mode : total (setViewMode mode).
Proof.
  unfold setViewMode.
  solve_M ltac:(first [apply pause_total | place_base]).
Qed.

Lemma valid_position_intro (b : ProcessedBook) (p : ReadingPosition) ch par :
  js_index (chapters b) (chapterIndex p) = Some ch ->
  js_index (paragraphs ch) (paragraphIndex p) = Some par ->
  0 <= wordIndex p < js_length (words par) ->
  valid_position b p.
Proof.
  intros Hch Hpar Hw. apply valid_positionb_spec. unfold valid_positionb.
  rewrite Hch, Hpar. apply andb_true_iff.
  split; [apply Z.leb_le | apply Z.ltb_lt]; lia.
Qed.

Lemma valid_position_elim (b : ProcessedBook) (p : ReadingPosition) :
  valid_position b p ->
  exists ch par,
    js_index (chapters b) (chapterIndex p) = Some ch /\
    js_index (paragraphs ch) (paragraphIndex p) = Some par /\
    0 <= wordIndex p < js_length (words par).
Proof.
  intros [Hc Hrest].
  destruct (js_index_in_range _ _ Hc) as [ch Hch].
  destruct (Hrest ch Hch) as [Hp Hrest'].
  destruct (js_index_in_range _ _ Hp) as [par Hpar].
  exists ch, par. auto.
Qed.

Lemma dense_chapter (b : ProcessedBook) (i : Z) (ch : Chapter) :
  dense b -> js_index (chapters b) i = Some ch ->
  0 < js_length (paragraphs ch) /\ no_empty_paragraph ch.
Proof.
  unfold dense, js_index. intros Hd Hch.
  destruct (i <? 0); [discriminate|].
  rewrite Forall_lookup in Hd. destruct (Hd _ _ Hch) as [Hne Hpars].
  split; [|exact Hpars].
  unfold js_length. destruct (paragraphs ch); [congruence | simpl; lia].
Qed.

Lemma dense_paragraph (ch : Chapter) (i : Z) (par : Paragraph) :
  no_empty_paragraph ch -> js_index (paragraphs ch) i = Some par ->
  0 < js_length (words par).
Proof.
  unfold no_empty_paragraph, js_index. intros Hd Hpar.
  destruct (i <? 0); [discriminate|].
  rewrite Forall_lookup in Hd. specialize (Hd _ _ Hpar).
  unfold js_length. destruct (words par); [congruence | simpl; lia].
Qed.

(** In a dense book the start of every chapter is a valid position. *)
Lemma valid_start_of_chapter (b : ProcessedBook) (i : Z) :
  dense b -> 0 <= i < js_length (chapters b) -> valid_position b (pos i 0 0).
Proof.
  intros Hd Hi.
  destruct (js_index_in_range _ _ Hi) as [ch Hch].
  destruct (dense_chapter b i ch Hd Hch) as [Hlen Hpars].
  destruct (js_index_in_range (paragraphs ch) 0) as [par Hpar]; [lia|].
  pose proof (dense_paragraph ch 0 par Hpars Hpar).
  apply (valid_position_intro b (pos i 0 0) ch par); simpl; auto; lia.
Qed.

(** Moving to a valid position and telling the word listeners. *)
Lemma relocate_then_notify (w : World) (b : ProcessedBook) (p : ReadingPosition) :
  book (state (engine w)) = Some b ->
  valid_position b p ->
  exists w', notifyWordChange (relocate p w) = (Normal tt, w') /\
             holds_valid_position w'.
Proof.
  intros Hb Hv. rewrite notifyWordChange_run. eexists. split; [reflexivity|].
  exists b. simpl. auto.
Qed.

Lemma notify_in_place (w : World) :
  holds_valid_position w ->
  exists w', notifyWordChange w = (Normal tt, w') /\ holds_valid_position w'.
Proof.
  intros Hv. rewrite notifyWordChange_run. eexists. split; [reflexivity|exact Hv].
Qed.

Lemma neutral_keeps_valid (m : M unit) (w : World) :
  total m -> preserves same_place m -> holds_valid_position w ->
  exists w', m w = (Normal tt, w') /\ holds_valid_position w'.
Proof.
  intros Ht Hp Hv.
  destruct (total_preserves_run same_place m w Ht Hp) as ([] & w' & Hrun & Hsame).
  exists w'. split; [exact Hrun|]. eapply same_place_holds; eauto.
Qed.

Lemma nextWord_keeps_valid (w : World) (b : ProcessedBook) :
  book (state (engine w)) = Some b ->
  valid_position b (position (state (engine w))) ->
  dense b ->
  exists w', nextWord w = (Normal tt, w') /\ holds_valid_position w'.
Proof.
  intros Hb Hv Hd.
  destruct (valid_position_elim _ _ Hv) as (ch & par & Hch & Hpar & Hw).
  unfold nextWord. unfold_M. rewrite Hb. unfold_M.
  rewrite (advance_run w b ch par Hb Hch Hpar).
  set (p := position (state (engine w))) in *.
  destruct (Z.ltb_spec (wordIndex p + 1) (js_length (words par))).
  { apply (relocate_then_notify w b _ Hb).
    apply (valid_position_intro b _ ch par); simpl; auto; lia. }
  destruct (Z.ltb_spec (paragraphIndex p + 1) (js_length (paragraphs ch))).
  { apply (relocate_then_notify w b _ Hb).
    pose proof (js_index_Some _ _ _ Hpar).
    destruct (js_index_in_range (paragraphs ch) (paragraphIndex p + 1)) as [par' Hpar']; [lia|].
    destruct (dense_chapter b _ ch Hd Hch) as [_ Hpars].
    pose proof (dense_paragraph ch _ par' Hpars Hpar').
    apply (valid_position_intro b _ ch par'); simpl; auto; lia. }
  destruct (Z.ltb_spec (chapterIndex p + 1) (js_length (chapters b))).
  { apply (relocate_then_notify w b _ Hb).
    pose proof (js_index_Some _ _ _ Hch).
    apply valid_start_of_chapter; [exact Hd | lia]. }
  destruct (neutral_keeps_valid pause w pause_total pause_same_place) as (w1 & Hp & Hv1).
  { exists b. auto. }
  rewrite Hp. apply notify_in_place. exact Hv1.
Qed.

Lemma prevWord_keeps_valid (w : World) (b : ProcessedBook) :
  book (state (engine w)) = Some b ->
  valid_position b (position (state (engine w))) ->
  dense b ->
  exists w', prevWord w = (Normal tt, w') /\ holds_valid_position w'.
Proof.
  intros Hb Hv Hd.
  destruct (valid_position_elim _ _ Hv) as (ch & par & Hch & Hpar & Hw).
  unfold prevWord. unfold_M. rewrite Hb. unfold_M.
  rewrite (retreat_run w b Hb). cbv zeta.
  set (p := position (state (engine w))) in *.
  pose proof (js_index_Some _ _ _ Hch) as Hci.
  pose proof (js_index_Some _ _ _ Hpar) as Hpi.
  destruct (Z.gtb_spec (wordIndex p) 0).
  { apply (relocate_then_notify w b _ Hb).
    apply (valid_position_intro b _ ch par); simpl; auto; lia. }
  destruct (Z.gtb_spec (paragraphIndex p) 0).
  { rewrite Hch.
    destruct (js_index_in_range (paragraphs ch) (paragraphIndex p - 1)) as [np Hnp]; [lia|].
    rewrite Hnp.
    destruct (dense_chapter b _ ch Hd Hch) as [_ Hpars].
    pose proof (dense_paragraph ch _ np Hpars Hnp).
    apply (relocate_then_notify w b _ Hb).
    apply (valid_position_intro b _ ch np); simpl; auto. unfold Math_max. lia. }
  destruct (Z.gtb_spec (chapterIndex p) 0).
  { destruct (js_index_in_range (chapters b) (chapterIndex p - 1)) as [nc Hnc]; [lia|].
    rewrite Hnc.
    destruct (dense_chapter b _ nc Hd Hnc) as [Hlen Hpars].
    destruct (js_index_in_range (paragraphs nc)
                (Math_max 0 (js_length (paragraphs nc) - 1))) as [np Hnp];
      [unfold Math_max; lia|].
    rewrite Hnp.
    pose proof (dense_paragraph nc _ np Hpars Hnp).
    apply (relocate_then_notify w b _ Hb).
    apply (valid_position_intro b _ nc np); simpl; auto. unfold Math_max. lia. }
  apply notify_in_place. exists b. auto.
Qed.

(** From a valid position, [prevWord] throws exactly when it steps from the
    first word of a chapter into a previous chapter that has no paragraph. *)
Lemma prevWord_throws_iff (w : World) (b : ProcessedBook) :
  let p := position (state (engine w)) in
  book (state (engine w)) = Some b ->
  valid_position b p ->
  (fst (prevWord w) = Throw TypeError <->
   wordIndex p = 0 /\ paragraphIndex p = 0 /\ 0 < chapterIndex p /\
   exists nc, js_index (chapters b) (chapterIndex p - 1) = Some nc /\ paragraphs nc = []).
Proof.
  intros p Hb Hv. subst p.
  destruct (valid_position_elim _ _ Hv) as (ch & par & Hch & Hpar & Hw).
  pose proof (js_index_Some _ _ _ Hch) as Hci.
  pose proof (js_index_Some _ _ _ Hpar) as Hpi.
  unfold prevWord. unfold_M. rewrite Hb. unfold_M.
  rewrite (retreat_run w b Hb). cbv zeta.
  set (p := position (state (engine w))) in *.
  destruct (Z.gtb_spec (wordIndex p) 0).
  { rewrite notifyWordChange_run. simpl. split; [discriminate | lia]. }
  destruct (Z.gtb_spec (paragraphIndex p) 0).
  { rewrite Hch.
    destruct (js_index_in_range (paragraphs ch) (paragraphIndex p - 1)) as [np Hnp]; [lia|].
    rewrite Hnp, notifyWordChange_run. simpl. split; [discriminate | lia]. }
  destruct (Z.gtb_spec (chapterIndex p) 0).
  { destruct (js_index_in_range (chapters b) (chapterIndex p - 1)) as [nc Hnc]; [lia|].
    rewrite Hnc.
    destruct (js_index (paragraphs nc) (Math_max 0 (js_length (paragraphs nc) - 1)))
      as [np|] eqn:Hnp.
    - rewrite notifyWordChange_run. simpl. split; [discriminate|].
      intros (_ & _ & _ & nc' & Hnc' & Hnil).
      assert (nc' = nc) by congruence. subst nc'.
      rewrite Hnil in Hnp. discriminate.
    - simpl. split; [|reflexivity]. intros _.
      repeat split; try lia. exists nc. split; [reflexivity|].
      apply js_index_None in Hnp. apply js_length_nil.
      unfold Math_max, js_length in *. lia. }
  rewrite notifyWordChange_run. simpl. split; [discriminate | lia].
Qed.

(** At the very start of the book [prevWord] leaves the position unchanged. *)
Lemma prevWord_at_start (w : World) (b : ProcessedBook) :
  book (state (engine w)) = Some b ->
  position (state (engine w)) = pos 0 0 0 ->
  fst (prevWord w) = Normal tt /\
  position (state (engine (after prevWord w))) = pos 0 0 0.
Proof.
  intros Hb Hp. unfold after, prevWord. unfold_M. rewrite Hb. unfold_M.
  rewrite (retreat_run w b Hb). cbv zeta. rewrite Hp.
  change (wordIndex (pos 0 0 0) >? 0) with false.
  change (paragraphIndex (pos 0 0 0) >? 0) with false.
  change (chapterIndex (pos 0 0 0) >? 0) with false.
  cbv iota. rewrite notifyWordChange_run. simpl. auto.
Qed.

Lemma goToChapter_keeps_valid (w : World) (b : ProcessedBook) (i : Z) :
  book (state (engine w)) = Some b ->
  valid_position b (position (state (engine w))) ->
  dense b ->
  exists w', goToChapter i w = (Normal tt, w') /\ holds_valid_position w'.
Proof.
  intros Hb Hv Hd. unfold goToChapter. unfold_M. rewrite Hb. unfold_M.
  destruct (Z.ltb_spec i 0); simpl.
  { eexists. split; [reflexivity|]. exists b. auto. }
  rewrite Z.geb_leb. destruct (Z.leb_spec (js_length (chapters b)) i).
  { eexists. split; [reflexivity|]. exists b. auto. }
  unfold_M. apply (relocate_then_notify w b (pos i 0 0) Hb).
  apply valid_start_of_chapter; [exact Hd | lia].
Qed.

Lemma nextChapter_keeps_valid (w : World) (b : ProcessedBook) :
  book (state (engine w)) = Some b ->
  valid_position b (position (state (engine w))) ->
  dense b ->
  exists w', nextChapter w = (Normal tt, w') /\ holds_valid_position w'.
Proof.
  intros Hb Hv Hd. unfold nextChapter. unfold_M. rewrite Hb. unfold_M.
  destruct (_ <? _).
  - apply (goToChapter_keeps_valid w b _ Hb Hv Hd).
  - eexists. split; [reflexivity|]. exists b. auto.
Qed.

Lemma prevChapter_keeps_valid (w : World) (b : ProcessedBook) :
  book (state (engine w)) = Some b ->
  valid_position b (position (state (engine w))) ->
  dense b ->
  exists w', prevChapter w = (Normal tt, w') /\ holds_valid_position w'.
Proof.
  intros Hb Hv Hd. unfold prevChapter. unfold_M.
  destruct (_ >=? _).
  - apply (goToChapter_keeps_valid w b _ Hb Hv Hd).
  - eexists. split; [reflexivity|]. exists b. auto.
Qed.

Lemma restartParagraph_keeps_valid (w : World) (b : ProcessedBook) :
  book (state (engine w)) = Some b ->
  valid_position b (position (state (engine w))) ->
  exists w', restartParagraph w = (Normal tt, w') /\ holds_valid_position w'.
Proof.
  intros Hb Hv.
  destruct (valid_position_elim _ _ Hv) as (ch & par & Hch & Hpar & Hw).
  unfold restartParagraph. unfold_M.
  apply (relocate_then_notify w b (with_wordIndex 0 (position (state (engine w)))) Hb).
  apply (valid_position_intro b _ ch par); simpl; auto; lia.
Qed.

Lemma setPosition_keeps_valid (w : World) (b : ProcessedBook) (p : ReadingPosition) :
  book (state (engine w)) = Some b ->
  valid_position b (position (state (engine w))) ->
  exists w', setPosition p w = (Normal tt, w') /\ holds_valid_position w'.
Proof.
  intros Hb Hv.
  assert (Hstay : exists w', (Normal tt, w) = (Normal tt, w') /\ holds_valid_position w').
  { exists w. split; [reflexivity | exists b; auto]. }
  unfold setPosition. unfold_M. rewrite Hb. unfold_M.
  destruct (Z.ltb_spec (chapterIndex p) 0); [exact Hstay|]. rewrite Z.geb_leb.
  destruct (Z.leb_spec (js_length (chapters b)) (chapterIndex p)); [exact Hstay|].
  destruct (js_index_in_range (chapters b) (chapterIndex p)) as [ch Hch]; [lia|].
  simpl. rewrite Hch. unfold_M.
  destruct (Z.ltb_spec (paragraphIndex p) 0); [exact Hstay|]. rewrite Z.geb_leb.
  destruct (Z.leb_spec (js_length (paragraphs ch)) (paragraphIndex p)); [exact Hstay|].
  destruct (js_index_in_range (paragraphs ch) (paragraphIndex p)) as [par Hpar]; [lia|].
  simpl. rewrite Hpar. unfold_M.
  destruct (Z.ltb_spec (wordIndex p) 0); [exact Hstay|]. rewrite Z.geb_leb.
  destruct (Z.leb_spec (js_length (words par)) (wordIndex p)); [exact Hstay|].
  simpl. unfold_M. apply (relocate_then_notify w b _ Hb).
  apply (valid_position_intro b _ ch par); simpl; auto.
Qed.

Lemma loadBook_keeps_valid (w : World) (b : ProcessedBook) :
  chapters b <> [] -> dense b ->
  exists w', loadBook b w = (Normal tt, w') /\ holds_valid_position w'.
Proof.
  intros Hne Hd. unfold loadBook.
  destruct (pause_total w) as [[] Hp].
  unfold mbind at 1. unfold M_bind.
  destruct (pause w) as [c w1]. simpl in Hp. subst c.
  unfold setStatus, notifyWordChange. unfold_M.
  eexists. split; [reflexivity|].
  exists b. split; [reflexivity|]. simpl.
  apply (valid_start_of_chapter b 0 Hd).
  unfold js_length. destruct (chapters b); [congruence | simpl; lia].
Qed.

(** C1 (as the code has it). With a book loaded and a valid position, every
    public operation completes without throwing and leaves a book loaded
    and a valid position for it, given what [book_requirement] asks:
    nothing for [play], [pause], [restartParagraph], [setPosition] and
    [setViewMode]; a book without empty chapters and empty paragraphs for
    [nextWord], [prevWord], [goToChapter], [nextChapter] and [prevChapter];
    and for [loadBook] a new book of that kind with at least one chapter. *)
Theorem operations_keep_position_valid tl wr (o : Operation) (w : World) (b : ProcessedBook) :
  book (state (engine w)) = Some b ->
  valid_position b (position (state (engine w))) ->
  book_requirement o b ->
  exists w', run tl wr o w = (Normal tt, w') /\ holds_valid_position w'.
Proof.
  intros Hb Hv Hreq.
  assert (Hh : holds_valid_position w) by (exists b; auto).
  destruct o; simpl in *.
  - destruct Hreq as [Hne Hd]. apply loadBook_keeps_valid; assumption.
  - apply neutral_keeps_valid; [apply play_total | apply play_same_place | exact Hh].
  - apply neutral_keeps_valid; [apply pause_total | apply pause_same_place | exact Hh].
  - eapply nextWord_keeps_valid; eauto.
  - eapply prevWord_keeps_valid; eauto.
  - eapply restartParagraph_keeps_valid; eauto.
  - eapply goToChapter_keeps_valid; eauto.
  - eapply nextChapter_keeps_valid; eauto.
  - eapply prevChapter_keeps_valid; eauto.
  - eapply setPosition_keeps_valid; eauto.
  - apply neutral_keeps_valid;
      [apply setViewMode_total | apply setViewMode_same_place | exact Hh].
Qed.

Lemma book_two_dense : dense book_two.
Proof.
  unfold dense, no_empty_paragraph. simpl.
  repeat (constructor; simpl; try split; try discriminate).
Qed.

Lemma operations_keep_position_valid_witness :
  book (state (engine world_two)) = Some book_two /\
  valid_position book_two (position (state (engine world_two))) /\
  book_requirement OpNextWord book_two /\
  exists w', run (fun s => s) None OpNextWord world_two = (Normal tt, w') /\
             holds_valid_position w'.
Proof.
  assert (Hv : valid_position book_two (position (state (engine world_two)))).
  { apply valid_positionb_spec. reflexivity. }
  split; [reflexivity|]. split; [exact Hv|]. split; [exact book_two_dense|].
  apply (operations_keep_position_valid (fun s => s) None OpNextWord world_two book_two);
    [reflexivity | exact Hv | exact book_two_dense].
Defined.

(** C1, counterexample to the original statement. [book_gap] has a chapter without paragraphs. With
    that book loaded and the valid position (1,0,0), [goToChapter(0)] tests
    the chapter index only: it completes normally and leaves the position
    (0,0,0), which is not valid, chapter 0 having no paragraph 0. *)
Lemma goToChapter_reaches_invalid_position :
  book (state (engine world_gap)) = Some book_gap /\
  valid_position book_gap (position (state (engine world_gap))) /\
  fst (goToChapter 0 world_gap) = Normal tt /\
  book (state (engine (after (goToChapter 0) world_gap))) = Some book_gap /\
  position (state (engine (after (goToChapter 0) world_gap))) = pos 0 0 0 /\
  ~ valid_position book_gap (position (state (engine (after (goToChapter 0) world_gap)))).
Proof.
  split; [reflexivity|].
  split; [apply valid_positionb_spec; reflexivity|].
  repeat split; try reflexivity.
  intros H. apply valid_positionb_spec in H. vm_compute in H. discriminate.
Qed.

(** ** Theorems: clamping *)

Lemma clamp_walk_spec (chs : list Chapter) (n : nat) (ch0 : Chapter) :
  chs !! n = Some ch0 ->
  exists k ch,
    clamp_walk chs n (Some ch0) = Normal (k, ch) /\
    (k <= n)%nat /\
    chs !! k = Some ch /\
    (paragraphs ch = [] -> k = O).
Proof.
  revert ch0. induction n as [|n IH]; intros ch0 Hch0.
  - exists O, ch0. simpl. auto.
  - simpl. destruct (Z.eqb_spec (js_length (paragraphs ch0)) 0) as [Hz|Hnz].
    + destruct (lookup_lt_is_Some_2 chs n) as [ch1 Hch1].
      { apply lookup_lt_Some in Hch0. lia. }
      rewrite Hch1. destruct (IH ch1 Hch1) as (k & ch & Hrun & Hle & Hk & Hempty).
      exists k, ch. repeat split; auto.
    + exists (S n), ch0. repeat split; auto.
      intros Hnil. apply js_length_nil in Hnil. contradiction.
Qed.

(** C4 (as the code has it). For a book with at least one chapter and any
    integer components, [clampPosition] completes normally with a position
    whose chapter index is in range. If that chapter has a paragraph, the
    paragraph index is in range, and if that paragraph has a word, the word
    index is in range too; an empty paragraph gets word index 0, and the
    chapter it settles on has no paragraph only when it is chapter 0, with
    paragraph and word index 0. Hence the result is valid whenever the book
    has no empty chapter and no empty paragraph. *)
Theorem clampPosition_result (b : ProcessedBook) (p : ReadingPosition) :
  chapters b <> [] ->
  exists q,
    clampPosition b p = Normal q /\
    0 <= chapterIndex q < js_length (chapters b) /\
    (forall ch, js_index (chapters b) (chapterIndex q) = Some ch ->
       (paragraphs ch = [] ->
          chapterIndex q = 0 /\ paragraphIndex q = 0 /\ wordIndex q = 0) /\
       (paragraphs ch <> [] ->
          0 <= paragraphIndex q < js_length (paragraphs ch) /\
          forall par, js_index (paragraphs ch) (paragraphIndex q) = Some par ->
            (words par = [] -> wordIndex q = 0) /\
            (words par <> [] -> 0 <= wordIndex q < js_length (words par)))) /\
    (dense b -> valid_position b q).
Proof.
  intros Hne.
  assert (Hlen : 0 < js_length (chapters b)).
  { unfold js_length. destruct (chapters b); [congruence | simpl; lia]. }
  unfold clampPosition.
  set (c0 := Math_max 0 (Math_min (chapterIndex p) (js_length (chapters b) - 1))).
  assert (Hc0 : 0 <= c0 < js_length (chapters b)) by (unfold c0, Math_max, Math_min; lia).
  destruct (js_index_in_range _ _ Hc0) as [ch0 Hch0]. rewrite Hch0.
  assert (Hch0' : chapters b !! Z.to_nat c0 = Some ch0).
  { unfold js_index in Hch0. destruct (c0 <? 0); [discriminate | exact Hch0]. }
  destruct (clamp_walk_spec _ _ _ Hch0') as (k & ch & Hrun & Hle & Hk & Hempty).
  rewrite Hrun.
  set (p1 := Math_max 0 (Math_min (paragraphIndex p)
                                   (Math_max 0 (js_length (paragraphs ch) - 1)))).
  eexists. split; [reflexivity|]. simpl.
  assert (Hkr : 0 <= Z.of_nat k < js_length (chapters b)) by lia.
  assert (Hstruct :
    (paragraphs ch = [] ->
       Z.of_nat k = 0 /\ p1 = 0 /\
       match js_index (paragraphs ch) p1 with
       | Some par => Math_max 0 (Math_min (wordIndex p) (Math_max 0 (js_length (words par) - 1)))
       | None => 0
       end = 0) /\
    (paragraphs ch <> [] ->
       0 <= p1 < js_length (paragraphs ch) /\
       forall par, js_index (paragraphs ch) p1 = Some par ->
         (words par = [] ->
            match js_index (paragraphs ch) p1 with
            | Some par => Math_max 0 (Math_min (wordIndex p) (Math_max 0 (js_length (words par) - 1)))
            | None => 0
            end = 0) /\
         (words par <> [] ->
            0 <= match js_index (paragraphs ch) p1 with
                 | Some par => Math_max 0 (Math_min (wordIndex p) (Math_max 0 (js_length (words par) - 1)))
                 | None => 0
                 end < js_length (words par)))).
  { split.
    - intros Hnil. split; [rewrite (Hempty Hnil); reflexivity|].
      assert (Hp1 : p1 = 0).
      { unfold p1. rewrite Hnil. unfold js_length, Math_max, Math_min. simpl. lia. }
      split; [exact Hp1|]. rewrite Hp1, Hnil. reflexivity.
    - intros Hnn.
      assert (0 < js_length (paragraphs ch)).
      { unfold js_length. destruct (paragraphs ch); [congruence | simpl; lia]. }
      split; [unfold p1, Math_max, Math_min; lia|].
      intros par Hpar. rewrite Hpar. split.
      + intros Hnil. rewrite Hnil. unfold js_length, Math_max, Math_min. simpl. lia.
      + intros Hwn.
        assert (0 < js_length (words par)).
        { unfold js_length. destruct (words par); [congruence | simpl; lia]. }
        unfold Math_max, Math_min. lia. }
  split; [exact Hkr|]. split.
  - intros ch' Hch'. rewrite js_index_of_nat in Hch'.
    assert (ch' = ch) by congruence. subst ch'. exact Hstruct.
  - intros Hd.
    assert (Hjs : js_index (chapters b) (Z.of_nat k) = Some ch)
      by (rewrite js_index_of_nat; exact Hk).
    destruct (dense_chapter b _ ch Hd Hjs) as [Hpl Hpars].
    destruct Hstruct as [_ Hs]. destruct Hs as [Hp1 Hw].
    { intros Hnil. rewrite Hnil in Hpl. unfold js_length in Hpl. simpl in Hpl. lia. }
    destruct (js_index_in_range _ _ Hp1) as [par Hpar].
    pose proof (dense_paragraph ch _ par Hpars Hpar) as Hwl.
    destruct (Hw par Hpar) as [_ Hin].
    apply (valid_position_intro b _ ch par); simpl; auto.
    apply Hin. intros Hnil. rewrite Hnil in Hwl. unfold js_length in Hwl. simpl in Hwl. lia.
Qed.

Lemma book_two_has_chapters : chapters book_two <> [].
Proof. discriminate. Qed.

Lemma clampPosition_result_witness :
  chapters book_two <> [] /\
  clampPosition book_two (pos 7 3 9) = Normal (pos 1 0 0) /\
  valid_position book_two (pos 1 0 0).
Proof.
  split; [exact book_two_has_chapters|].
  destruct (clampPosition_result book_two (pos 7 3 9) book_two_has_chapters)
    as (q & Hrun & _ & _ & Hvalid).
  assert (Hq : q = pos 1 0 0).
  { vm_compute in Hrun. injection Hrun as Hq. symmetry. exact Hq. }
  subst q. split; [reflexivity | exact (Hvalid book_two_dense)].
Defined.

(** C4, counterexample to the original statement. On a book without chapters [clampPosition]
    throws: it reads [chapters[0]], which is [undefined], and then its
    [paragraphs]. On a book whose only chapter has no paragraph it returns
    (0,0,0), which is not a valid position of that book. *)
Lemma clampPosition_can_fail_or_return_invalid :
  clampPosition book_none (pos 0 0 0) = Throw TypeError /\
  clampPosition book_hollow (pos 0 0 0) = Normal (pos 0 0 0) /\
  ~ valid_position book_hollow (pos 0 0 0).
Proof.
  split; [reflexivity|]. split; [reflexivity|].
  intros H. apply valid_positionb_spec in H. vm_compute in H. discriminate.
Qed.

(** ** Theorems: timing *)

(** C9. At 300 words per minute, with the length delay enabled at factor
    0.1 and the frequency delay disabled, the delay of the word
    extraordinary followed by a full stop is exactly 660 milliseconds in
    binary64 arithmetic: the base interval 200, the punctuation delay 300
    and the length delay 160 ((13 - 5) * 0.1 * 200). *)
Theorem delay_of_extraordinary tl wr (f : float) :
  let settings := {| lengthDelayEnabled := true; lengthDelayFactor := 0.1%float;
                     frequencyDelayEnabled := false; frequencyDelayFactor := f |} in
  Number 300 = 300%float /\
  calculateBaseInterval 300%float = 200%float /\
  calculatePunctuationDelay (js "extraordinary.") 200%float = 300%float /\
  js_length (List.filter is_alnum (js "extraordinary.")) = 13 /\
  calculateLengthDelay (js "extraordinary.") 200%float 0.1%float = 160%float /\
  calculateTotalDelay tl wr (js "extraordinary.") 300%float settings = 660%float.
Proof. repeat split; vm_compute; reflexivity. Qed.

(** ** Theorems: binary64 rounding *)

Lemma fexp64_eq e : fexp64 e = Z.max (e - 53) (-1074).
Proof. reflexivity. Qed.

Lemma digits2_pos_bounds (p : positive) :
  2 ^ (Zpos (digits2_pos p) - 1) <= Zpos p < 2 ^ Zpos (digits2_pos p).
Proof.
  induction p as [p IH | p IH |]; simpl digits2_pos.
  - rewrite Pos2Z.inj_succ.
    replace (Z.succ (Zpos (digits2_pos p)) - 1) with (Z.succ (Zpos (digits2_pos p) - 1)) by lia.
    rewrite !Z.pow_succ_r by lia. lia.
  - rewrite Pos2Z.inj_succ.
    replace (Z.succ (Zpos (digits2_pos p)) - 1) with (Z.succ (Zpos (digits2_pos p) - 1)) by lia.
    rewrite !Z.pow_succ_r by lia. lia.
  - simpl. lia.
Qed.

Lemma Zdigits2_bounds (m : Z) :
  0 < m -> 2 ^ (Zdigits2 m - 1) <= m < 2 ^ Zdigits2 m.
Proof.
  destruct m as [|p|p]; try lia. intros _. apply digits2_pos_bounds.
Qed.

Lemma Zdigits2_pos (m : Z) : 0 < m -> 0 < Zdigits2 m.
Proof. destruct m; simpl; lia. Qed.

Lemma shr_1_m (mrs : shr_record) :
  0 <= shr_m mrs -> shr_m (shr_1 mrs) = shr_m mrs / 2.
Proof.
  destruct mrs as [m r s]. simpl. intros Hm.
  destruct m as [|[p|p|]|p]; try lia; try reflexivity; cbn [shr_m shr_1].
  - apply Z.div_unique with (r := 1); lia.
  - apply Z.div_unique with (r := 0); lia.
Qed.

Lemma pow2_xI (p : positive) : 2 ^ Zpos p~1 = 2 * (2 ^ Zpos p * 2 ^ Zpos p).
Proof.
  rewrite (Pos2Z.inj_xI p).
  replace (2 * Zpos p + 1) with (1 + (Zpos p + Zpos p)) by lia.
  rewrite (Z.pow_add_r 2 1 (Zpos p + Zpos p)) by lia.
  rewrite (Z.pow_add_r 2 (Zpos p) (Zpos p)) by lia. reflexivity.
Qed.

Lemma pow2_xO (p : positive) : 2 ^ Zpos p~0 = 2 ^ Zpos p * 2 ^ Zpos p.
Proof.
  rewrite (Pos2Z.inj_xO p).
  replace (2 * Zpos p) with (Zpos p + Zpos p) by lia.
  rewrite (Z.pow_add_r 2 (Zpos p) (Zpos p)) by lia. reflexivity.
Qed.

Lemma pow2_pos (n : Z) : 0 <= n -> 0 < 2 ^ n.
Proof. intros. apply Z.pow_pos_nonneg; lia. Qed.

Lemma iter_shr_1_m (p : positive) (mrs : shr_record) :
  0 <= shr_m mrs ->
  shr_m (SpecFloat.iter_pos shr_1 p mrs) = shr_m mrs / 2 ^ Zpos p.
Proof.
  revert mrs. induction p as [p IH | p IH |]; intros mrs Hm; simpl SpecFloat.iter_pos.
  - assert (H1 : 0 <= shr_m (shr_1 mrs)) by (rewrite shr_1_m by auto; apply Z.div_pos; lia).
    assert (H2 : 0 <= shr_m (SpecFloat.iter_pos shr_1 p (shr_1 mrs))).
    { rewrite IH by auto. apply Z.div_pos; [auto | apply pow2_pos; lia]. }
    rewrite IH by auto. rewrite IH by auto. rewrite shr_1_m by auto.
    pose proof (pow2_pos (Zpos p)).
    rewrite !Z.div_div by lia. rewrite pow2_xI. reflexivity.
  - assert (H2 : 0 <= shr_m (SpecFloat.iter_pos shr_1 p mrs)).
    { rewrite IH by auto. apply Z.div_pos; [auto | apply pow2_pos; lia]. }
    rewrite IH by auto. rewrite IH by auto.
    pose proof (pow2_pos (Zpos p)).
    rewrite !Z.div_div by lia. rewrite pow2_xO. reflexivity.
  - rewrite shr_1_m by auto. reflexivity.
Qed.

Lemma shr_record_of_loc_m m l : shr_m (shr_record_of_loc m l) = m.
Proof. destruct l as [|[]]; reflexivity. Qed.

Lemma shr_fexp_spec (m e : Z) (l : location) (mrs : shr_record) (e' : Z) :
  0 <= m ->
  shr_fexp prec emax m e l = (mrs, e') ->
  shr_step m e (shr_m mrs) e'.
Proof.
  intros Hm. unfold shr_fexp, shr_step. fold (fexp64 (Zdigits2 m + e)).
  unfold shr. destruct (fexp64 (Zdigits2 m + e) - e) as [|p|p] eqn:Hn;
    intros Heq; injection Heq as <- <-.
  - left. rewrite shr_record_of_loc_m. lia.
  - right. rewrite iter_shr_1_m by (rewrite shr_record_of_loc_m; auto).
    rewrite shr_record_of_loc_m. lia.
  - left. rewrite shr_record_of_loc_m. lia.
Qed.

Lemma shr_step_nonneg (m e m' e' : Z) :
  0 <= m -> shr_step m e m' e' -> 0 <= m'.
Proof.
  intros Hm [(Hn & -> & _) | (Hn & -> & _)]; [exact Hm|].
  apply Z.div_pos; [exact Hm | apply pow2_pos; lia].
Qed.

Lemma round_nearest_even_bounds (m : Z) (l : location) :
  m <= round_nearest_even m l <= m + 1.
Proof.
  unfold round_nearest_even. destruct l as [|[]]; try lia.
  destruct (Z.even m); lia.
Qed.

Lemma binary_round_aux_spec (m e : Z) (l : location) :
  0 <= m ->
  exists m1 e1 m2 m3 e3,
    shr_step m e m1 e1 /\
    m1 <= m2 <= m1 + 1 /\
    shr_step m2 e1 m3 e3 /\
    0 <= m3 /\
    binary_round_aux prec emax false m e l = round_result m3 e3.
Proof.
  intros Hm. unfold binary_round_aux.
  destruct (shr_fexp prec emax m e l) as [mrs1 e1] eqn:H1.
  pose proof (shr_fexp_spec _ _ _ _ _ Hm H1) as Hs1.
  pose proof (shr_step_nonneg _ _ _ _ Hm Hs1) as Hm1.
  pose proof (round_nearest_even_bounds (shr_m mrs1) (loc_of_shr_record mrs1)) as Hr.
  set (m2 := round_nearest_even (shr_m mrs1) (loc_of_shr_record mrs1)) in *.
  assert (Hm2 : 0 <= m2) by lia.
  destruct (shr_fexp prec emax m2 e1 loc_Exact) as [mrs2 e3] eqn:H2.
  pose proof (shr_fexp_spec _ _ _ _ _ Hm2 H2) as Hs2.
  pose proof (shr_step_nonneg _ _ _ _ Hm2 Hs2) as Hm3.
  exists (shr_m mrs1), e1, m2, (shr_m mrs2), e3.
  repeat split; auto; try lia.
Qed.

Lemma round_result_nonneg (m3 e3 : Z) : 0 <= m3 -> SFnonneg (round_result m3 e3) = true.
Proof.
  destruct m3; simpl; try lia; auto. intros _. destruct (e3 <=? 971); reflexivity.
Qed.

Lemma binary_round_aux_nonneg (m e : Z) (l : location) :
  0 <= m -> SFnonneg (binary_round_aux prec emax false m e l) = true.
Proof.
  intros Hm. destruct (binary_round_aux_spec m e l Hm) as (m1 & e1 & m2 & m3 & e3 & _ & _ & _ & H3 & ->).
  apply round_result_nonneg. exact H3.
Qed.

Lemma SFmul_nonneg (x y : spec_float) :
  SFfinite_nonneg x = true -> SFfinite_nonneg y = true ->
  SFnonneg (SF64mul x y) = true.
Proof.
  destruct x as [sx|[]| |[] mx ex], y as [sy|[]| |[] my ey];
    simpl; try discriminate; auto.
  intros _ _. apply binary_round_aux_nonneg. lia.
Qed.

Lemma SFmul_nonneg_pos (x y : spec_float) :
  SFnonneg x = true -> SFfinite_pos y = true ->
  SFnonneg (SF64mul x y) = true.
Proof.
  destruct x as [sx|[]| |[] mx ex], y as [sy|[]| |[] my ey];
    simpl; try discriminate; auto.
  intros _ _. apply binary_round_aux_nonneg. lia.
Qed.

Lemma V_pos (m e : Z) : 0 < m -> -1074 <= e -> 0 < V m e.
Proof. intros. unfold V. apply Z.mul_pos_pos; [lia | apply pow2_pos; lia]. Qed.

Lemma V_mono (m m' e : Z) : -1074 <= e -> m <= m' -> V m e <= V m' e.
Proof.
  intros. unfold V. apply Z.mul_le_mono_nonneg_r; [|lia].
  pose proof (pow2_pos (e + 1074)). lia.
Qed.

Lemma V_mono_inv (m m' e : Z) : -1074 <= e -> V m e <= V m' e -> m <= m'.
Proof.
  intros He H. unfold V in H. pose proof (pow2_pos (e + 1074)).
  apply Z.mul_le_mono_pos_r in H; lia.
Qed.

Lemma pow2_split (a b : Z) : 0 <= a -> 0 <= b -> 2 ^ (a + b) = 2 ^ a * 2 ^ b.
Proof. intros. apply Z.pow_add_r; lia. Qed.

Lemma canonical_facts (mx : positive) (ex : Z) :
  canonical_mantissa prec emax mx ex = true ->
  -1074 <= ex /\ Zpos mx < 2 ^ 53 /\ (-1074 < ex -> 2 ^ 52 <= Zpos mx).
Proof.
  unfold canonical_mantissa. fold (fexp64 (Zpos (digits2_pos mx) + ex)).
  rewrite fexp64_eq. intros Hc. apply Z.eqb_eq in Hc.
  pose proof (digits2_pos_bounds mx) as [Hlo Hhi].
  set (d := Zpos (digits2_pos mx)) in *.
  assert (Hd : 0 < d) by (unfold d; lia).
  split; [lia|]. split.
  - assert (2 ^ d <= 2 ^ 53) by (apply Z.pow_le_mono_r; lia). lia.
  - intros Hn. assert (d = 53) by lia.
    replace (d - 1) with 52 in Hlo by lia. exact Hlo.
Qed.

Lemma step_lower_bound (mx : positive) (ex m e m' e' : Z) :
  canonical_mantissa prec emax mx ex = true ->
  0 < m -> -1074 <= e ->
  shr_step m e m' e' ->
  V (Zpos mx) ex <= V m e ->
  -1074 <= e' /\ m' < 2 ^ 53 /\ V (Zpos mx) ex <= V m' e'.
Proof.
  intros Hcan Hm He Hstep HV.
  destruct (canonical_facts mx ex Hcan) as (Hex & Hmx & Hnorm).
  pose proof (Zdigits2_bounds m Hm) as [Hlo Hhi].
  pose proof (Zdigits2_pos m Hm) as Hdpos.
  unfold shr_step in Hstep. rewrite fexp64_eq in Hstep.
  set (d := Zdigits2 m) in *.
  destruct Hstep as [(Hn & -> & ->) | (Hn & -> & ->)].
  - split; [lia|]. split; [|exact HV].
    assert (2 ^ d <= 2 ^ 53) by (apply Z.pow_le_mono_r; lia). lia.
  - set (n := Z.max (d + e - 53) (-1074) - e) in *.
    assert (Hnd : n = d - 53) by lia.
    assert (Hd53 : d = 53 + n) by lia.
    assert (Hd52 : d - 1 = 52 + n) by lia.
    pose proof (pow2_pos n ltac:(lia)) as HN.
    pose proof (pow2_pos (e + 1074) ltac:(lia)) as HA.
    rewrite Hd53 in Hhi. rewrite Hd52 in Hlo.
    rewrite pow2_split in Hhi, Hlo by lia.
    set (N := 2 ^ n) in *. set (A := 2 ^ (e + 1074)) in *.
    set (T52 := 2 ^ 52) in *. set (T53 := 2 ^ 53) in *.
    assert (HT : T53 = 2 * T52) by reflexivity.
    assert (HT52 : 0 < T52) by reflexivity.
    assert (Hq_lo : T52 <= m / N) by (apply Z.div_le_lower_bound; lia).
    assert (Hq_hi : m / N < T53) by (apply Z.div_lt_upper_bound; lia).
    split; [lia|]. split; [exact Hq_hi|].
    unfold V in *.
    replace (e + n + 1074) with (n + (e + 1074)) by lia.
    rewrite (pow2_split n (e + 1074)) by lia. fold N A.
    destruct (Z_le_gt_dec (e + n) ex) as [Hge | Hlt].
    + replace (ex + 1074) with ((ex - (e + n)) + (n + (e + 1074))) in * by lia.
      rewrite (pow2_split (ex - (e + n)) (n + (e + 1074))) in * by lia.
      rewrite (pow2_split n (e + 1074)) in * by lia. fold N A in HV |- *.
      pose proof (pow2_pos (ex - (e + n)) ltac:(lia)) as HK.
      set (P := 2 ^ (ex - (e + n))) in *.
      assert (HKN : N * (Zpos mx * P) <= m).
      { apply Z.mul_le_mono_pos_r with (p := A); [exact HA|]. lia. }
      assert (Zpos mx * P <= m / N) by (apply Z.div_le_lower_bound; lia).
      replace (Zpos mx * (P * (N * A))) with ((Zpos mx * P) * (N * A)) by ring.
      apply Z.mul_le_mono_nonneg_r; lia.
    + assert (Hsplit : n + (e + 1074) = (ex + 1074) + ((e + n) - ex)) by lia.
      assert (HNA : N * A = 2 ^ (ex + 1074) * 2 ^ ((e + n) - ex)).
      { unfold N, A. rewrite <- pow2_split by lia. rewrite <- pow2_split by lia.
        f_equal. lia. }
      rewrite HNA.
      pose proof (pow2_pos (ex + 1074) ltac:(lia)) as HB.
      assert (HP : 2 <= 2 ^ ((e + n) - ex)).
      { change 2 with (2 ^ 1) at 1. apply Z.pow_le_mono_r; lia. }
      set (B := 2 ^ (ex + 1074)) in *. set (P := 2 ^ ((e + n) - ex)) in *.
      assert (H1 : Zpos mx * B <= T53 * B) by (apply Z.mul_le_mono_nonneg_r; lia).
      assert (H2 : T53 * B <= T52 * (B * P)).
      { rewrite HT. replace (T52 * (B * P)) with ((T52 * B) * P) by ring.
        replace (2 * T52 * B) with ((T52 * B) * 2) by ring.
        apply Z.mul_le_mono_nonneg_l; [|lia].
        apply Z.mul_nonneg_nonneg; lia. }
      assert (H3 : T52 * (B * P) <= m / N * (B * P)).
      { apply Z.mul_le_mono_nonneg_r; [|lia]. apply Z.mul_nonneg_nonneg; lia. }
      lia.
Qed.

(** Rounding a value that is at least a representable [x] gives a result
    that is at least [x] in the order of the format. *)
Lemma round_lower_bound (mx : positive) (ex m e : Z) (l : location) :
  canonical_mantissa prec emax mx ex = true ->
  0 < m -> -1074 <= e ->
  V (Zpos mx) ex <= V m e ->
  SFleb (S754_finite false mx ex) (binary_round_aux prec emax false m e l) = true /\
  SFpos (binary_round_aux prec emax false m e l) = true.
Proof.
  intros Hcan Hm He HV.
  destruct (canonical_facts mx ex Hcan) as (Hex & Hmx & Hnorm).
  pose proof (V_pos (Zpos mx) ex ltac:(lia) Hex) as Hxpos.
  destruct (binary_round_aux_spec m e l ltac:(lia))
    as (m1 & e1 & m2 & m3 & e3 & Hs1 & Hm2 & Hs2 & Hm3 & ->).
  destruct (step_lower_bound mx ex m e m1 e1 Hcan Hm He Hs1 HV) as (He1 & _ & HV1).
  assert (Hm1 : 0 < m1).
  { destruct (Z_lt_le_dec 0 m1); [auto|].
    assert (V m1 e1 <= V 0 e1) by (apply V_mono; lia). unfold V in H at 2. lia. }
  assert (HV2 : V (Zpos mx) ex <= V m2 e1).
  { etransitivity; [exact HV1 | apply V_mono; lia]. }
  destruct (step_lower_bound mx ex m2 e1 m3 e3 Hcan ltac:(lia) He1 Hs2 HV2)
    as (He3 & Hm3' & HV3).
  assert (Hm3pos : 0 < m3).
  { destruct (Z_lt_le_dec 0 m3); [auto|].
    assert (V m3 e3 <= V 0 e3) by (apply V_mono; lia). unfold V in H at 2. lia. }
  destruct m3 as [|q|q]; try lia. unfold round_result.
  destruct (e3 <=? 971); [|split; reflexivity].
  split; [|reflexivity].
  unfold SFleb, SFcompare.
  destruct (Z.compare_spec ex e3) as [Heq | Hlt | Hgt]; [| reflexivity |].
  - subst e3. apply V_mono_inv in HV3; [|exact Hex].
    change (Pos.compare_cont Eq mx q) with (Pos.compare mx q).
    destruct (Pos.compare_spec mx q); try reflexivity. lia.
  - exfalso.
    assert (H52 : 2 ^ 52 <= Zpos mx) by (apply Hnorm; lia).
    unfold V in HV3.
    replace (ex + 1074) with ((ex - e3) + (e3 + 1074)) in HV3 by lia.
    rewrite (pow2_split (ex - e3) (e3 + 1074)) in HV3 by lia.
    pose proof (pow2_pos (e3 + 1074) ltac:(lia)) as HA.
    assert (HP : 2 <= 2 ^ (ex - e3)).
    { change 2 with (2 ^ 1) at 1. apply Z.pow_le_mono_r; lia. }
    set (A := 2 ^ (e3 + 1074)) in *. set (P := 2 ^ (ex - e3)) in *.
    set (T52 := 2 ^ 52) in *. set (T53 := 2 ^ 53) in *.
    assert (HT : T53 = 2 * T52) by reflexivity.
    assert (HT52 : 0 < T52) by reflexivity.
    assert (H1 : T53 * A <= Zpos mx * (P * A)).
    { rewrite HT. replace (Zpos mx * (P * A)) with ((Zpos mx * P) * A) by ring.
      apply Z.mul_le_mono_nonneg_r; [lia|].
      replace (2 * T52) with (T52 * 2) by ring.
      apply Z.mul_le_mono_nonneg; lia. }
    assert (H2 : Zpos q * A < T53 * A) by (apply Z.mul_lt_mono_pos_r; lia).
    lia.
Qed.

Lemma Pos_iter_xO (m d : positive) :
  Zpos (Pos.iter xO m d) = Zpos m * 2 ^ Zpos d.
Proof.
  induction d as [|d IH] using Pos.peano_ind.
  - simpl. lia.
  - rewrite Pos.iter_succ. rewrite Pos2Z.inj_xO, IH.
    rewrite Pos2Z.inj_succ. rewrite Z.pow_succ_r by lia. ring.
Qed.

Lemma shl_align_spec (mx : positive) (ex ex' : Z) :
  -1074 <= ex -> -1074 <= ex' ->
  V (Zpos (fst (shl_align mx ex ex'))) (snd (shl_align mx ex ex')) = V (Zpos mx) ex /\
  snd (shl_align mx ex ex') = Z.min ex ex'.
Proof.
  intros Hex Hex'. unfold shl_align.
  destruct (ex' - ex) as [|d|d] eqn:Hd; simpl; try (split; [reflexivity | lia]).
  split; [|lia].
  rewrite Pos_iter_xO. unfold V.
  replace (ex + 1074) with (Zpos d + (ex' + 1074)) by lia.
  rewrite (pow2_split (Zpos d) (ex' + 1074)) by lia. ring.
Qed.

(** Adding a non-negative number to a positive one does not go below the
    positive one, in binary64 arithmetic. *)
Lemma SFadd_ge_left (x y : spec_float) :
  valid_binary x = true -> valid_binary y = true ->
  SFpos x = true -> SFnonneg y = true ->
  SFleb x (SF64add x y) = true /\ SFpos (SF64add x y) = true.
Proof.
  intros Hvx Hvy Hx Hy.
  assert (Hrefl : forall m e, SFleb (S754_finite false m e) (S754_finite false m e) = true).
  { intros m e. unfold SFleb, SFcompare. rewrite Z.compare_refl.
    change (Pos.compare_cont Eq m m) with (Pos.compare m m).
    rewrite Pos.compare_refl. reflexivity. }
  destruct x as [sx|[]| |[] mx ex], y as [sy|[]| |[] my ey];
    simpl in Hx, Hy; try discriminate; try (split; reflexivity);
    try (split; [apply Hrefl | reflexivity]).
  simpl in Hvx, Hvy. unfold bounded in Hvx, Hvy.
  apply andb_true_iff in Hvx as [Hcx _]. apply andb_true_iff in Hvy as [Hcy _].
  destruct (canonical_facts mx ex Hcx) as (Hex & _ & _).
  destruct (canonical_facts my ey Hcy) as (Hey & _ & _).
  unfold SF64add, SFadd. cbv zeta.
  set (ez := Z.min ex ey).
  assert (Hez : -1074 <= ez) by (unfold ez; lia).
  destruct (shl_align_spec mx ex ez Hex Hez) as [HVx Hsx].
  destruct (shl_align_spec my ey ez Hey Hez) as [HVy Hsy].
  replace (Z.min ex ez) with ez in Hsx by (unfold ez; lia).
  replace (Z.min ey ez) with ez in Hsy by (unfold ez; lia).
  rewrite Hsx in HVx. rewrite Hsy in HVy.
  set (ax := fst (shl_align mx ex ez)) in *.
  set (ay := fst (shl_align my ey ez)) in *.
  unfold cond_Zopp. change (Zpos ax + Zpos ay) with (Zpos (ax + ay)).
  unfold binary_normalize, binary_round.
  set (et := fexp prec emax (Zpos (digits2_pos (ax + ay)) + ez)).
  assert (Het : -1074 <= et).
  { unfold et. fold (fexp64 (Zpos (digits2_pos (ax + ay)) + ez)). rewrite fexp64_eq. lia. }
  destruct (shl_align_spec (ax + ay) ez et Hez Het) as [HVz Hsz].
  destruct (shl_align (ax + ay) ez et) as [mz ez'] eqn:Hal. simpl in HVz, Hsz.
  apply round_lower_bound; [exact Hcx | lia | lia |].
  rewrite HVz. rewrite <- HVx.
  pose proof (V_pos (Zpos ay) ez ltac:(lia) Hez) as Hypos.
  unfold V in *. rewrite Pos2Z.inj_add. lia.
Qed.

(** A mantissa below [2^53] at an exponent within the format rounds to a
    positive finite number. *)
Lemma binary_round_aux_finite (m e : Z) (l : location) :
  0 < m < 2 ^ 53 -> -1074 <= e <= 900 ->
  SFfinite_pos (binary_round_aux prec emax false m e l) = true.
Proof.
  intros [Hm Hlt] [He He'].
  destruct (binary_round_aux_spec m e l ltac:(lia))
    as (m1 & e1 & m2 & m3 & e3 & Hs1 & Hm2 & Hs2 & Hm3 & ->).
  assert (Hd : Zdigits2 m <= 53).
  { pose proof (Zdigits2_bounds m Hm) as [Hlo _].
    destruct (Z_le_gt_dec (Zdigits2 m) 53); [auto|].
    assert (2 ^ 53 <= 2 ^ (Zdigits2 m - 1)) by (apply Z.pow_le_mono_r; lia). lia. }
  unfold shr_step in Hs1. rewrite fexp64_eq in Hs1.
  destruct Hs1 as [(_ & -> & ->) | (Hn & _)]; [|lia].
  assert (Hm2pos : 0 < m2) by lia.
  assert (Hd2 : Zdigits2 m2 <= 54).
  { pose proof (Zdigits2_bounds m2 Hm2pos) as [Hlo _].
    destruct (Z_le_gt_dec (Zdigits2 m2) 54); [auto|].
    assert (2 ^ 54 <= 2 ^ (Zdigits2 m2 - 1)) by (apply Z.pow_le_mono_r; lia).
    assert (2 ^ 54 = 2 * 2 ^ 53) by reflexivity. lia. }
  unfold shr_step in Hs2. rewrite fexp64_eq in Hs2.
  destruct Hs2 as [(_ & -> & ->) | (Hn & -> & ->)].
  - destruct m2; try lia. unfold round_result.
    destruct (Z.leb_spec e 971); [reflexivity | lia].
  - set (n := Z.max (Zdigits2 m2 + e - 53) (-1074) - e) in *.
    assert (Hn1 : n = 1) by lia.
    assert (Hd54 : Zdigits2 m2 = 54) by lia.
    pose proof (Zdigits2_bounds m2 Hm2pos) as [Hlo _].
    rewrite Hd54 in Hlo. rewrite Hn1 in *. change (2 ^ 1) with 2 in *.
    assert (2 ^ 52 <= m2 / 2).
    { apply Z.div_le_lower_bound; [lia|].
      assert (2 ^ (54 - 1) = 2 * 2 ^ 52) by reflexivity. lia. }
    assert (0 < 2 ^ 52) by reflexivity.
    destruct (m2 / 2); try lia. unfold round_result.
    destruct (Z.leb_spec (e + 1) 971); [reflexivity | lia].
Qed.

(** The number that holds an integer below [2^53] is finite. *)
Lemma Prim2SF_of_small_int (z : Z) :
  0 <= z < 2 ^ 53 ->
  SFfinite_nonneg (Prim2SF (of_uint63 (Uint63.of_Z z))) = true.
Proof.
  intros [Hz Hlt]. rewrite of_uint63_spec, Uint63.of_Z_spec.
  assert (Hw : 2 ^ 53 < wB) by reflexivity.
  rewrite Z.mod_small by lia.
  destruct z as [|m|m]; try lia; [reflexivity|].
  unfold binary_normalize, binary_round.
  set (et := fexp prec emax (Zpos (digits2_pos m) + 0)).
  pose proof (digits2_pos_bounds m) as [Hlo Hhi].
  assert (Hd : Zpos (digits2_pos m) <= 53).
  { destruct (Z_le_gt_dec (Zpos (digits2_pos m)) 53); [auto|].
    assert (2 ^ 53 <= 2 ^ (Zpos (digits2_pos m) - 1)) by (apply Z.pow_le_mono_r; lia).
    lia. }
  assert (Het : et = Zpos (digits2_pos m) - 53).
  { unfold et. fold (fexp64 (Zpos (digits2_pos m) + 0)). rewrite fexp64_eq. lia. }
  destruct (shl_align_spec m 0 et ltac:(lia) ltac:(lia)) as [HV Hs].
  destruct (shl_align m 0 et) as [mz ez]. simpl in HV, Hs.
  assert (Hez : ez = et) by lia.
  assert (Hfin : SFfinite_pos (binary_round_aux prec emax false (Zpos mz) ez loc_Exact) = true).
  { apply binary_round_aux_finite; [|lia]. split; [lia|].
    unfold V in HV. rewrite Hez, Het in HV.
    replace (0 + 1074) with ((53 - Zpos (digits2_pos m)) + (Zpos (digits2_pos m) - 53 + 1074))
      in HV by lia.
    rewrite (pow2_split (53 - Zpos (digits2_pos m))) in HV by lia.
    pose proof (pow2_pos (Zpos (digits2_pos m) - 53 + 1074) ltac:(lia)) as HA.
    set (A := 2 ^ (Zpos (digits2_pos m) - 53 + 1074)) in *.
    assert (Hmz : Zpos mz = Zpos m * 2 ^ (53 - Zpos (digits2_pos m))).
    { apply Z.mul_cancel_r with (p := A); [lia|]. rewrite HV. ring. }
    rewrite Hmz.
    replace (2 ^ 53) with (2 ^ Zpos (digits2_pos m) * 2 ^ (53 - Zpos (digits2_pos m))).
    2:{ rewrite <- pow2_split by lia. f_equal. lia. }
    apply Z.mul_lt_mono_pos_r; [apply pow2_pos; lia | exact Hhi]. }
  destruct (binary_round_aux prec emax false (Zpos mz) ez loc_Exact) as [| | |[]];
    simpl in Hfin; try discriminate; reflexivity.
Qed.

(** ** The order of the format *)

Lemma SFleb_trans (a b c : spec_float) :
  SFfinite_pos a = true -> SFpos b = true -> SFpos c = true ->
  SFleb a b = true -> SFleb b c = true -> SFleb a c = true.
Proof.
  destruct a as [| | |[] ma ea]; simpl; try discriminate. intros _.
  destruct b as [|[]| |[] mb eb]; simpl; try discriminate; intros _;
    destruct c as [|[]| |[] mc ec]; simpl; try discriminate; intros _; auto.
  unfold SFleb, SFcompare.
  change (Pos.compare_cont Eq ma mb) with (Pos.compare ma mb).
  change (Pos.compare_cont Eq mb mc) with (Pos.compare mb mc).
  change (Pos.compare_cont Eq ma mc) with (Pos.compare ma mc).
  destruct (Z.compare_spec ea eb), (Z.compare_spec eb ec), (Z.compare_spec ea ec);
    try discriminate; try lia; auto; subst;
    destruct (Pos.compare_spec ma mb), (Pos.compare_spec mb mc), (Pos.compare_spec ma mc);
    try discriminate; try lia; auto.
Qed.

Lemma SFltb_zero_pos (x : spec_float) :
  SFpos x = true -> SFltb (S754_zero false) x = true.
Proof. destruct x as [|[]| |[]]; simpl; try discriminate; reflexivity. Qed.

(** A number between zero and a finite bound is zero or positive and
    finite. *)
Lemma SFleb_range (x c : spec_float) :
  SFfinite_pos c = true ->
  SFleb (S754_zero false) x = true -> SFleb x c = true ->
  SFfinite_nonneg x = true.
Proof.
  destruct c as [| | |[] mc ec]; simpl; try discriminate. intros _.
  destruct x as [|[]| |[]]; simpl; try discriminate; auto.
Qed.

(** ** Theorems: the delay never falls below the base interval *)

Lemma float_add_ge (a x y : float) :
  SFfinite_pos (Prim2SF a) = true ->
  SFpos (Prim2SF x) = true ->
  SFnonneg (Prim2SF y) = true ->
  (a <=? x)%float = true ->
  (a <=? x + y)%float = true /\ SFpos (Prim2SF (x + y)) = true.
Proof.
  intros Ha Hx Hy Hle. rewrite FloatAxioms.leb_spec in *. rewrite FloatAxioms.add_spec.
  destruct (SFadd_ge_left (Prim2SF x) (Prim2SF y)
              (Prim2SF_valid x) (Prim2SF_valid y) Hx Hy) as [H1 H2].
  split; [|exact H2].
  apply (SFleb_trans (Prim2SF a) (Prim2SF x)); auto.
Qed.

Lemma float_mul_nonneg (x y : float) :
  SFfinite_nonneg (Prim2SF x) = true ->
  SFfinite_nonneg (Prim2SF y) = true ->
  SFnonneg (Prim2SF (x * y)) = true.
Proof. intros. rewrite FloatAxioms.mul_spec. apply SFmul_nonneg; assumption. Qed.

Lemma float_mul_nonneg_pos (x y : float) :
  SFnonneg (Prim2SF x) = true ->
  SFfinite_pos (Prim2SF y) = true ->
  SFnonneg (Prim2SF (x * y)) = true.
Proof. intros. rewrite FloatAxioms.mul_spec. apply SFmul_nonneg_pos; assumption. Qed.

Lemma SFfinite_pos_nonneg (x : spec_float) :
  SFfinite_pos x = true -> SFfinite_nonneg x = true.
Proof. destruct x as [| | |[]]; simpl; try discriminate; auto. Qed.

Lemma SFfinite_pos_pos (x : spec_float) :
  SFfinite_pos x = true -> SFpos x = true.
Proof. destruct x as [| | |[]]; simpl; try discriminate; auto. Qed.

Lemma float_in_range (f c : float) :
  SFfinite_pos (Prim2SF c) = true ->
  (0 <=? f)%float = true -> (f <=? c)%float = true ->
  SFfinite_nonneg (Prim2SF f) = true.
Proof.
  intros Hc H0 H1. rewrite FloatAxioms.leb_spec in H0, H1.
  apply (SFleb_range (Prim2SF f) (Prim2SF c)); auto.
Qed.

(** The base interval at every integer speed from 100 to 1000 is a positive
    finite number: checked by evaluating the division at each speed. *)
Lemma base_interval_checked :
  forallb (fun w => SFfinite_pos (Prim2SF (calculateBaseInterval (Number w)))) WPM_VALUES
  = true.
Proof. vm_compute. reflexivity. Qed.

Lemma base_interval_finite_pos (w : Z) :
  MIN_WPM <= w <= MAX_WPM ->
  SFfinite_pos (Prim2SF (calculateBaseInterval (Number w))) = true.
Proof.
  unfold MIN_WPM, MAX_WPM. intros Hw.
  pose proof base_interval_checked as Hall.
  rewrite forallb_forall in Hall. apply Hall.
  unfold WPM_VALUES, MIN_WPM. apply in_map_iff.
  exists (Z.to_nat (w - 100)). split; [lia|]. apply in_seq. lia.
Qed.

Lemma punctuation_multiplier_finite (key : jsstring) :
  SFfinite_nonneg (Prim2SF (default 0%float (table_get PUNCTUATION_MULTIPLIERS key))) = true.
Proof.
  unfold PUNCTUATION_MULTIPLIERS. simpl.
  repeat (case_bool_decide; [reflexivity|]). reflexivity.
Qed.

Lemma bucket_multiplier_finite tl wr (word : jsstring) :
  SFfinite_nonneg (Prim2SF (getWordBucketMultiplier tl wr word)) = true.
Proof.
  unfold getWordBucketMultiplier.
  destruct wr as [ranks|]; [|reflexivity].
  destruct (size ranks =? 0)%nat; [reflexivity|].
  destruct (js_length _ =? 0); [reflexivity|].
  destruct (ranks !! _) as [rank|]; [|reflexivity].
  unfold BUCKET_THRESHOLDS. simpl.
  repeat (destruct (rank <=? _); [reflexivity|]). reflexivity.
Qed.

Lemma punctuation_delay_nonneg (word : jsstring) (base : float) :
  SFfinite_pos (Prim2SF base) = true ->
  SFnonneg (Prim2SF (calculatePunctuationDelay word base)) = true.
Proof.
  intros Hb. unfold calculatePunctuationDelay.
  apply float_mul_nonneg;
    [apply SFfinite_pos_nonneg; exact Hb | apply punctuation_multiplier_finite].
Qed.

Lemma length_delay_nonneg (word : jsstring) (base factor : float) :
  js_length word <= MAX_STRING_LENGTH ->
  SFfinite_pos (Prim2SF base) = true ->
  SFfinite_nonneg (Prim2SF factor) = true ->
  SFnonneg (Prim2SF (calculateLengthDelay word base factor)) = true.
Proof.
  intros Hlen Hb Hf. unfold calculateLengthDelay. cbv zeta.
  destruct (Z.leb_spec (js_length (List.filter is_alnum word) - 5) 0); [reflexivity|].
  apply float_mul_nonneg_pos; [|exact Hb].
  apply float_mul_nonneg; [|exact Hf].
  unfold Number.
  destruct (Z.ltb_spec (js_length (List.filter is_alnum word) - 5) 0); [lia|].
  apply Prim2SF_of_small_int.
  pose proof (filter_length_le is_alnum word) as Hfl.
  unfold js_length, MAX_STRING_LENGTH in *.
  assert (2 ^ 53 = 9007199254740992) by reflexivity. lia.
Qed.

Lemma frequency_delay_nonneg tl wr (word : jsstring) (base factor : float) :
  SFfinite_pos (Prim2SF base) = true ->
  SFfinite_nonneg (Prim2SF factor) = true ->
  SFnonneg (Prim2SF (calculateFrequencyDelay tl wr word base factor)) = true.
Proof.
  intros Hb Hf. unfold calculateFrequencyDelay. cbv zeta.
  apply float_mul_nonneg_pos; [|exact Hb].
  apply float_mul_nonneg; [apply bucket_multiplier_finite | exact Hf].
Qed.

(** C8. For every word (of a length a JavaScript string can have), every
    integer speed from 100 to 1000 and every settings value whose factors
    lie in their ranges, the total delay computed in binary64 arithmetic is
    at least the base interval 60000 / wpm, and is greater than zero. The
    bucket multiplier of [getWordBucketMultiplier] always lies in [0,1]. *)
Theorem delay_at_least_base_interval tl wr (word : jsstring) (w : Z) (s : TimingSettings) :
  MIN_WPM <= w <= MAX_WPM ->
  js_length word <= MAX_STRING_LENGTH ->
  (0 <=? lengthDelayFactor s)%float = true ->
  (lengthDelayFactor s <=? 0.5)%float = true ->
  (0 <=? frequencyDelayFactor s)%float = true ->
  (frequencyDelayFactor s <=? 1)%float = true ->
  (calculateBaseInterval (Number w) <=? calculateTotalDelay tl wr word (Number w) s)%float
    = true /\
  (0 <? calculateTotalDelay tl wr word (Number w) s)%float = true.
Proof.
  intros Hw Hlen Hl0 Hl1 Hf0 Hf1.
  pose proof (base_interval_finite_pos w Hw) as Hb.
  assert (Hlf : SFfinite_nonneg (Prim2SF (lengthDelayFactor s)) = true).
  { apply (float_in_range _ 0.5%float); [reflexivity | assumption | assumption]. }
  assert (Hff : SFfinite_nonneg (Prim2SF (frequencyDelayFactor s)) = true).
  { apply (float_in_range _ 1%float); [reflexivity | assumption | assumption]. }
  unfold calculateTotalDelay. cbv zeta.
  set (base := calculateBaseInterval (Number w)) in *.
  assert (H0 : (base <=? base)%float = true /\ SFpos (Prim2SF base) = true).
  { split; [|apply SFfinite_pos_pos; exact Hb].
    rewrite FloatAxioms.leb_spec. destruct (Prim2SF base) as [| | |[] m e]; try discriminate.
    unfold SFleb, SFcompare. rewrite Z.compare_refl.
    change (Pos.compare_cont Eq m m) with (Pos.compare m m).
    rewrite Pos.compare_refl. reflexivity. }
  destruct H0 as [H0 H0'].
  destruct (float_add_ge base base (calculatePunctuationDelay word base) Hb H0'
              (punctuation_delay_nonneg word base Hb) H0) as [H1 H1'].
  set (t1 := (base + calculatePunctuationDelay word base)%float) in *.
  set (t2 := if lengthDelayEnabled s
             then (t1 + calculateLengthDelay word base (lengthDelayFactor s))%float
             else t1).
  assert (H2 : (base <=? t2)%float = true /\ SFpos (Prim2SF t2) = true).
  { unfold t2. destruct (lengthDelayEnabled s); [|auto].
    apply float_add_ge; auto. apply length_delay_nonneg; auto. }
  destruct H2 as [H2 H2'].
  set (t3 := if frequencyDelayEnabled s
             then (t2 + calculateFrequencyDelay tl wr word base (frequencyDelayFactor s))%float
             else t2).
  assert (H3 : (base <=? t3)%float = true /\ SFpos (Prim2SF t3) = true).
  { unfold t3. destruct (frequencyDelayEnabled s); [|auto].
    apply float_add_ge; auto. apply frequency_delay_nonneg; auto. }
  destruct H3 as [H3 H3'].
  split; [exact H3|].
  rewrite FloatAxioms.ltb_spec. apply SFltb_zero_pos. exact H3'.
Qed.

Lemma delay_at_least_base_interval_witness :
  let s := {| lengthDelayEnabled := true; lengthDelayFactor := 0.1%float;
              frequencyDelayEnabled := true; frequencyDelayFactor := 0.3%float |} in
  MIN_WPM <= 300 <= MAX_WPM /\
  js_length (js "extraordinary.") <= MAX_STRING_LENGTH /\
  (0 <=? lengthDelayFactor s)%float = true /\
  (lengthDelayFactor s <=? 0.5)%float = true /\
  (0 <=? frequencyDelayFactor s)%float = true /\
  (frequencyDelayFactor s <=? 1)%float = true /\
  (calculateBaseInterval (Number 300)
     <=? calculateTotalDelay (fun t => t) None (js "extraordinary.") (Number 300) s)%float
    = true /\
  (0 <? calculateTotalDelay (fun t => t) None (js "extraordinary.") (Number 300) s)%float
    = true.
Proof.
  intros s.
  assert (Hw : MIN_WPM <= 300 <= MAX_WPM) by (unfold MIN_WPM, MAX_WPM; lia).
  assert (Hlen : js_length (js "extraordinary.") <= MAX_STRING_LENGTH)
    by (vm_compute; discriminate).
  split; [exact Hw|]. split; [exact Hlen|].
  split; [reflexivity|]. split; [reflexivity|].
  split; [reflexivity|]. split; [reflexivity|].
  apply (delay_at_least_base_interval (fun t => t) None (js "extraordinary.") 300 s
           Hw Hlen); reflexivity.
Defined.

(** ** Theorems: further properties of the engine *)

#[local] Instance same_control_preorder : PreOrder same_control.
Proof.
  split.
  - intros w. repeat split; reflexivity.
  - intros w1 w2 w3 (H1 & H2 & H3 & H4) (H5 & H6 & H7 & H8).
    repeat split; congruence.
Qed.

Ltac control_base :=
  first [ apply preserves_modify; [typeclasses eauto | intros ?; repeat split; reflexivity]
        | intros ?; repeat split; reflexivity ].

Lemma notifyWordChange_same_control : preserves same_control notifyWordChange.
Proof. intros w. repeat split; reflexivity. Qed.

Lemma retreat_same_control : preserves same_control retreat.
Proof. unfold retreat. solve_M control_base. Qed.

Lemma prevWord_same_control : preserves same_control prevWord.
Proof.
  unfold prevWord.
  solve_M ltac:(first [ apply retreat_same_control
                      | apply notifyWordChange_same_control ]).
Qed.

Lemma restartParagraph_same_control : preserves same_control restartParagraph.
Proof.
  unfold restartParagraph.
  solve_M ltac:(first [ apply notifyWordChange_same_control | control_base ]).
Qed.

Lemma goToChapter_same_control (i : Z) : preserves same_control (goToChapter i).
Proof.
  unfold goToChapter.
  solve_M ltac:(first [ apply notifyWordChange_same_control | control_base ]).
Qed.

Lemma nextChapter_same_control : preserves same_control nextChapter.
Proof.
  unfold nextChapter. solve_M ltac:(first [ apply goToChapter_same_control | control_base ]).
Qed.

Lemma prevChapter_same_control : preserves same_control prevChapter.
Proof.
  unfold prevChapter. solve_M ltac:(first [ apply goToChapter_same_control | control_base ]).
Qed.

Lemma setPosition_same_control (p : ReadingPosition) : preserves same_control (setPosition p).
Proof.
  unfold setPosition.
  solve_M ltac:(first [ apply notifyWordChange_same_control | control_base ]).
Qed.

(** *** What [pause], [scheduleNext] and [play] do *)

Lemma pause_effect (w : World) :
  exists w', pause w = (Normal tt, w') /\
    same_setup w w' /\
    nextTimer w' = nextTimer w /\
    timerId (engine w') = None /\
    pending w' =
      match timerId (engine w) with
      | Some t => List.filter (fun td => negb (Nat.eqb (fst td) t)) (pending w)
      | None => pending w
      end /\
    status (state (engine w')) =
      (if bool_decide (status (state (engine w)) = playing) then paused
       else status (state (engine w))) /\
    calls w' =
      calls w ++
      (if bool_decide (status (state (engine w)) = playing)
       then map (fun l => CallStatus l paused) (statusListeners (engine w))
       else []).
Proof.
  unfold pause, setStatus, clearTimeout. unfold_M.
  destruct (timerId (engine w)) as [t|] eqn:Ht; unfold_M;
    destruct (bool_decide (status (state (engine w)) = playing)) eqn:Hs; unfold_M;
    eexists; (split; [reflexivity|]); simpl; rewrite ?app_nil_r;
    repeat split; try reflexivity; try exact Ht.
Qed.

Lemma pause_noop (w : World) :
  timerId (engine w) = None ->
  status (state (engine w)) <> playing ->
  pause w = (Normal tt, w).
Proof.
  intros Ht Hs. unfold pause. unfold_M. rewrite Ht. unfold_M.
  rewrite bool_decide_eq_false_2 by exact Hs. reflexivity.
Qed.

Lemma scheduleNext_not_playing tl wr (w : World) :
  status (state (engine w)) <> playing ->
  scheduleNext tl wr w = (Normal tt, w).
Proof.
  intros Hs. unfold scheduleNext. unfold_M.
  rewrite bool_decide_eq_true_2 by exact Hs. reflexivity.
Qed.

Lemma scheduleNext_no_word tl wr (w : World) :
  status (state (engine w)) = playing ->
  getCurrentWord (state (engine w)) = None ->
  scheduleNext tl wr w = pause w.
Proof.
  intros Hs Hw. unfold scheduleNext. unfold_M.
  rewrite bool_decide_eq_false_2 by (rewrite Hs; intros H; apply H; reflexivity).
  rewrite Hw. reflexivity.
Qed.

Lemma scheduleNext_arms tl wr (w : World) (wd : ProcessedWord) :
  status (state (engine w)) = playing ->
  getCurrentWord (state (engine w)) = Some wd ->
  exists w', scheduleNext tl wr w = (Normal tt, w') /\
    same_setup w w' /\
    status (state (engine w')) = playing /\
    calls w' = calls w /\
    nextTimer w' = S (nextTimer w) /\
    timerId (engine w') = Some (nextTimer w) /\
    pending w' =
      pending w ++
      [(nextTimer w,
        calculateTotalDelay tl wr (text wd) (wpm (state (engine w))) (current_settings w))].
Proof.
  intros Hs Hw. unfold scheduleNext, getTimingSettings, setTimeout. unfold_M.
  rewrite bool_decide_eq_false_2 by (rewrite Hs; intros H; apply H; reflexivity).
  rewrite Hw. unfold_M.
  eexists. split; [reflexivity|]. simpl. repeat split; try reflexivity. exact Hs.
Qed.

Lemma play_noop tl wr (w : World) :
  status (state (engine w)) <> ready ->
  status (state (engine w)) <> paused ->
  play tl wr w = (Normal tt, w).
Proof.
  intros H1 H2. unfold play. unfold_M.
  rewrite (bool_decide_eq_true_2 _ H1), (bool_decide_eq_true_2 _ H2). reflexivity.
Qed.

Lemma play_starts tl wr (w : World) :
  status (state (engine w)) = ready \/ status (state (engine w)) = paused ->
  play tl wr w =
    scheduleNext tl wr
      {| engine := with_state (with_status playing) (engine w);
         pending := pending w; nextTimer := nextTimer w;
         calls := calls w ++ map (fun l => CallStatus l playing) (statusListeners (engine w)) |}.
Proof.
  intros Hs. unfold play. unfold_M.
  assert (Hb : bool_decide (status (state (engine w)) <> ready)
               && bool_decide (status (state (engine w)) <> paused) = false).
  { destruct Hs as [-> | ->]; reflexivity. }
  rewrite Hb. reflexivity.
Qed.

(** *** The invariants of a running engine *)

Lemma run_seq {A B : Type} (m : M A) (k : A -> M B) (w w1 : World) (a : A) :
  m w = (Normal a, w1) -> (m ≫= k) w = k a w1.
Proof. intros H. unfold mbind, M_bind. rewrite H. reflexivity. Qed.

Lemma calm_invariant (w : World) : calm w -> engine_invariant w.
Proof. intros [Hp Hl]. split; [left; exact Hp | exact Hl]. Qed.

Lemma same_control_invariant (w w' : World) :
  same_control w w' -> engine_invariant w -> engine_invariant w'.
Proof.
  intros (Ht & Hp & Hs & Hb) [Hsingle Hlife]. split.
  - unfold single_timer in *. rewrite Ht, Hp, Hs. exact Hsingle.
  - unfold lifecycle in *. rewrite Hs, Hb. exact Hlife.
Qed.

Lemma same_control_calm (w w' : World) : same_control w w' -> calm w -> calm w'.
Proof.
  intros (Ht & Hp & Hs & Hb) [Hpend Hlife]. split.
  - rewrite Hp. exact Hpend.
  - unfold lifecycle in *. rewrite Hs, Hb. exact Hlife.
Qed.

Lemma filter_single_timer (w : World) :
  single_timer w ->
  match timerId (engine w) with
  | Some t => List.filter (fun td => negb (Nat.eqb (fst td) t)) (pending w)
  | None => pending w
  end = [].
Proof.
  intros [Hp | (t & d & Hp & Ht & _)].
  - rewrite Hp. destruct (timerId (engine w)); reflexivity.
  - rewrite Ht, Hp. simpl. rewrite Nat.eqb_refl. reflexivity.
Qed.

(** After [pause] nothing is pending and the engine is not playing. *)
Lemma pause_calms (w : World) :
  engine_invariant w ->
  exists w', pause w = (Normal tt, w') /\ calm w' /\
             timerId (engine w') = None /\
             status (state (engine w')) <> playing /\
             same_setup w w'.
Proof.
  intros [Hsingle [Hload Hidle]].
  destruct (pause_effect w) as (w' & Hrun & Hsetup & _ & Hid & Hpend & Hst & _).
  exists w'. split; [exact Hrun|].
  pose proof Hsetup as (Hb & _).
  assert (Hnp : status (state (engine w')) <> playing).
  { rewrite Hst. case_bool_decide; [discriminate | assumption]. }
  split; [|split; [exact Hid | split; [exact Hnp | exact Hsetup]]].
  split; [rewrite Hpend; apply filter_single_timer; exact Hsingle|].
  split; [rewrite Hst; case_bool_decide; [discriminate | assumption]|].
  rewrite Hb, Hst. split.
  - intros Hn. apply Hidle in Hn. case_bool_decide; [congruence | assumption].
  - case_bool_decide; [discriminate|]. apply Hidle.
Qed.

Lemma relocate_same_control (p : ReadingPosition) (w : World) :
  same_control w (relocate p w).
Proof. repeat split; reflexivity. Qed.

Lemma advance_invariant (w : World) :
  engine_invariant w ->
  exists w', advance w = (Normal tt, w') /\ engine_invariant w' /\ (calm w -> calm w').
Proof.
  intros Hinv.
  destruct (advance_cases w) as [[p' Ha] | [Ha | Ha]]; rewrite Ha.
  - eexists. split; [reflexivity|]. split.
    + eapply same_control_invariant; [apply relocate_same_control | exact Hinv].
    + apply same_control_calm, relocate_same_control.
  - eexists. split; [reflexivity|]. auto.
  - destruct (pause_calms w Hinv) as (w' & Hrun & Hcalm & _).
    exists w'. split; [exact Hrun|]. split; [apply calm_invariant; exact Hcalm | auto].
Qed.

Lemma notifyWordChange_invariant (w : World) :
  exists w', notifyWordChange w = (Normal tt, w') /\
             (engine_invariant w -> engine_invariant w') /\ (calm w -> calm w').
Proof.
  rewrite notifyWordChange_run. eexists. split; [reflexivity|].
  split; intros H; exact H.
Qed.

Lemma scheduleNext_invariant tl wr (w : World) :
  calm w ->
  exists w', scheduleNext tl wr w = (Normal tt, w') /\ engine_invariant w'.
Proof.
  intros Hcalm. pose proof Hcalm as [Hpend Hlife].
  destruct (decide (status (state (engine w)) = playing)) as [Hs | Hs].
  2:{ rewrite scheduleNext_not_playing by exact Hs.
      eexists. split; [reflexivity | apply calm_invariant; exact Hcalm]. }
  destruct (getCurrentWord (state (engine w))) as [wd|] eqn:Hw.
  - destruct (scheduleNext_arms tl wr w wd Hs Hw)
      as (w' & Hrun & Hsetup & Hst & _ & _ & Hid & Hp).
    exists w'. split; [exact Hrun|]. split.
    + right. rewrite Hpend in Hp. simpl in Hp. eauto.
    + destruct Hsetup as (Hb & _). unfold lifecycle in *.
      rewrite Hb, Hst, <- Hs. exact Hlife.
  - rewrite (scheduleNext_no_word tl wr w Hs Hw).
    destruct (pause_calms w (calm_invariant w Hcalm)) as (w' & Hrun & Hc & _).
    exists w'. split; [exact Hrun | apply calm_invariant; exact Hc].
Qed.

Lemma play_invariant tl wr (w : World) :
  engine_invariant w ->
  exists w', play tl wr w = (Normal tt, w') /\ engine_invariant w'.
Proof.
  intros Hinv.
  destruct (decide (status (state (engine w)) = ready \/ status (state (engine w)) = paused))
    as [Hs | Hs].
  2:{ rewrite play_noop by tauto. eauto. }
  rewrite (play_starts tl wr w Hs). apply scheduleNext_invariant.
  destruct Hinv as [Hsingle [Hload Hidle]]. split.
  - simpl. destruct Hsingle as [Hp | (t & d & _ & _ & Hplay)]; [exact Hp|].
    destruct Hs; congruence.
  - split; simpl; [discriminate|]. split; [|discriminate].
    intros Hn. apply Hidle in Hn. destruct Hs; congruence.
Qed.

Lemma nextWord_invariant (w : World) :
  engine_invariant w ->
  exists w', nextWord w = (Normal tt, w') /\ engine_invariant w'.
Proof.
  intros Hinv. unfold nextWord. unfold_M.
  destruct (book (state (engine w))); unfold_M; [|eauto].
  destruct (advance_invariant w Hinv) as (w1 & Hrun & Hinv1 & _). rewrite Hrun.
  destruct (notifyWordChange_invariant w1) as (w2 & Hrun2 & Hk & _).
  exists w2. split; [exact Hrun2 | auto].
Qed.

Lemma loadBook_invariant (b : ProcessedBook) (w : World) :
  engine_invariant w ->
  exists w', loadBook b w = (Normal tt, w') /\ calm w'.
Proof.
  intros Hinv. unfold loadBook.
  destruct (pause_calms w Hinv) as (w1 & Hrun & [Hpend _] & _).
  rewrite (run_seq _ _ _ _ _ Hrun).
  unfold setStatus, notifyWordChange. unfold_M.
  eexists. split; [reflexivity|]. split; [exact Hpend|].
  split; simpl; [discriminate|]. split; discriminate.
Qed.

Lemma setViewMode_invariant (mode : ViewMode) (w : World) :
  engine_invariant w ->
  exists w', setViewMode mode w = (Normal tt, w') /\ engine_invariant w'.
Proof.
  intros Hinv. unfold setViewMode. unfold_M.
  destruct (bool_decide (viewMode (state (engine w)) = mode)); unfold_M; [eauto|].
  destruct (bool_decide (mode = mode_paragraph)); unfold_M.
  - destruct (pause_calms w Hinv) as (w1 & Hrun & Hcalm & _). rewrite Hrun.
    eexists. split; [reflexivity|].
    apply calm_invariant in Hcalm.
    eapply same_control_invariant; [|exact Hcalm]. repeat split; reflexivity.
  - eexists. split; [reflexivity|].
    eapply same_control_invariant; [|exact Hinv]. repeat split; reflexivity.
Qed.

Lemma tick_invariant tl wr (w : World) :
  calm w ->
  exists w', tick tl wr w = (Normal tt, w') /\ engine_invariant w'.
Proof.
  intros Hcalm. unfold tick.
  destruct (advance_invariant w (calm_invariant w Hcalm)) as (w1 & Hrun1 & _ & Hc1).
  rewrite (run_seq _ _ _ _ _ Hrun1).
  destruct (notifyWordChange_invariant w1) as (w2 & Hrun2 & _ & Hc2).
  rewrite (run_seq _ _ _ _ _ Hrun2).
  apply scheduleNext_invariant. auto.
Qed.

Lemma fire_invariant tl wr (t : nat) (w : World) :
  engine_invariant w ->
  exists w', fire tl wr t w = (Normal tt, w') /\ engine_invariant w'.
Proof.
  intros Hinv. unfold fire. unfold_M.
  destruct (existsb (fun td => Nat.eqb (fst td) t) (pending w)) eqn:Hex; [|eauto].
  unfold clearTimeout. unfold_M.
  apply tick_invariant.
  destruct Hinv as [Hsingle Hlife]. split; [|exact Hlife]. simpl.
  destruct Hsingle as [Hp | (t' & d & Hp & _)]; rewrite Hp in *; [discriminate|].
  simpl in *. rewrite orb_false_r in Hex. rewrite Hex. reflexivity.
Qed.

Lemma preserved_control_invariant (m : M unit) (w : World) :
  preserves same_control m -> engine_invariant w -> engine_invariant (after m w).
Proof. intros Hp. apply same_control_invariant. apply Hp. Qed.

Lemma after_run {A : Type} (m : M A) (w w' : World) (a : A) :
  m w = (Normal a, w') -> after m w = w'.
Proof. intros H. unfold after. rewrite H. reflexivity. Qed.

(** Every event keeps the invariants, also when it throws. *)
Lemma happen_invariant tl wr (e : Event) (w : World) :
  engine_invariant w -> engine_invariant (after (happen tl wr e) w).
Proof.
  intros Hinv. destruct e as [o| | | | | | | | | | |t]; simpl.
  - destruct o; simpl.
    + destruct (loadBook_invariant b w Hinv) as (w' & Hrun & Hc).
      rewrite (after_run _ _ _ _ Hrun). apply calm_invariant, Hc.
    + destruct (play_invariant tl wr w Hinv) as (w' & Hrun & Hc).
      rewrite (after_run _ _ _ _ Hrun). exact Hc.
    + destruct (pause_calms w Hinv) as (w' & Hrun & Hc & _).
      rewrite (after_run _ _ _ _ Hrun). apply calm_invariant, Hc.
    + destruct (nextWord_invariant w Hinv) as (w' & Hrun & Hc).
      rewrite (after_run _ _ _ _ Hrun). exact Hc.
    + apply preserved_control_invariant; [apply prevWord_same_control | exact Hinv].
    + apply preserved_control_invariant; [apply restartParagraph_same_control | exact Hinv].
    + apply preserved_control_invariant; [apply goToChapter_same_control | exact Hinv].
    + apply preserved_control_invariant; [apply nextChapter_same_control | exact Hinv].
    + apply preserved_control_invariant; [apply prevChapter_same_control | exact Hinv].
    + apply preserved_control_invariant; [apply setPosition_same_control | exact Hinv].
    + destruct (setViewMode_invariant mode w Hinv) as (w' & Hrun & Hc).
      rewrite (after_run _ _ _ _ Hrun). exact Hc.
  - unfold toggle. unfold after. unfold_M.
    destruct (bool_decide (status (state (engine w)) = playing)).
    + destruct (pause_calms w Hinv) as (w' & Hrun & Hc & _).
      rewrite Hrun. apply calm_invariant, Hc.
    + destruct (play_invariant tl wr w Hinv) as (w' & Hrun & Hc).
      rewrite Hrun. exact Hc.
  - unfold toggleViewMode. unfold after. unfold_M.
    destruct (setViewMode_invariant
                (if bool_decide (viewMode (state (engine w)) = mode_rsvp)
                 then mode_paragraph else mode_rsvp) w Hinv) as (w' & Hrun & Hc).
    rewrite Hrun. exact Hc.
  - eapply same_control_invariant; [|exact Hinv]. repeat split; reflexivity.
  - eapply same_control_invariant; [|exact Hinv]. repeat split; reflexivity.
  - eapply same_control_invariant; [|exact Hinv]. repeat split; reflexivity.
  - eapply same_control_invariant; [|exact Hinv]. repeat split; reflexivity.
  - eapply same_control_invariant; [|exact Hinv]. repeat split; reflexivity.
  - eapply same_control_invariant; [|exact Hinv]. repeat split; reflexivity.
  - eapply same_control_invariant; [|exact Hinv]. repeat split; reflexivity.
  - eapply same_control_invariant; [|exact Hinv]. repeat split; reflexivity.
  - destruct (fire_invariant tl wr t w Hinv) as (w' & Hrun & Hc).
    rewrite (after_run _ _ _ _ Hrun). exact Hc.
Qed.

Lemma new_World_invariant : engine_invariant new_World.
Proof.
  split; [left; reflexivity|]. split; simpl; [discriminate|]. split; reflexivity.
Qed.

Lemma history_invariant tl wr (es : list Event) (w : World) :
  engine_invariant w -> engine_invariant (history tl wr es w).
Proof.
  revert w. induction es as [|e es IH]; intros w Hinv; simpl; [exact Hinv|].
  apply IH. apply happen_invariant. exact Hinv.
Qed.

(** X1. Whatever calls are made on a new engine and whatever timers fire,
    in any order and even after a call has thrown, at most one scheduled
    continuation is pending; when one is, it is the one whose handle the
    engine holds and the status is playing. *)
Theorem at_most_one_pending_timer tl wr (es : list Event) :
  single_timer (history tl wr es new_World).
Proof. apply (history_invariant tl wr es new_World new_World_invariant). Qed.

(** X2. After any history of calls and timer firings on a new engine the
    status is never loading, and it is idle exactly while no book has been
    loaded: once a book is loaded the engine never is without one. *)
Theorem status_idle_iff_no_book tl wr (es : list Event) :
  let w := history tl wr es new_World in
  status (state (engine w)) <> loading /\
  (book (state (engine w)) = None <-> status (state (engine w)) = idle).
Proof. apply (history_invariant tl wr es new_World new_World_invariant). Qed.

(** X3. [pause] is idempotent: whatever the world, a second [pause] right
    after a first one changes nothing and invokes no listener. *)
Theorem pause_twice_is_pause_once (w : World) :
  pause (after pause w) = (Normal tt, after pause w).
Proof.
  destruct (pause_effect w) as (w' & Hrun & _ & _ & Hid & _ & Hst & _).
  rewrite (after_run _ _ _ _ Hrun).
  apply pause_noop; [exact Hid|].
  rewrite Hst. case_bool_decide; [discriminate | assumption].
Qed.

(** X4. From status ready or paused, with a word at the current position
    and no timer pending, [play] sets the status to playing, tells every
    status listener so, and arms exactly one timer, whose delay is the
    total delay of the current word at the current speed under the settings
    the provider gives at that moment; the engine holds its handle. *)
Theorem play_arms_one_timer tl wr (w : World) (wd : ProcessedWord) :
  status (state (engine w)) = ready \/ status (state (engine w)) = paused ->
  getCurrentWord (state (engine w)) = Some wd ->
  pending w = [] ->
  exists w', play tl wr w = (Normal tt, w') /\
    same_setup w w' /\
    status (state (engine w')) = playing /\
    timerId (engine w') = Some (nextTimer w) /\
    pending w' =
      [(nextTimer w,
        calculateTotalDelay tl wr (text wd) (wpm (state (engine w))) (current_settings w))] /\
    calls w' = calls w ++ map (fun l => CallStatus l playing) (statusListeners (engine w)).
Proof.
  intros Hs Hw Hp. rewrite (play_starts tl wr w Hs).
  set (w1 := {| engine := with_state (with_status playing) (engine w);
                pending := pending w; nextTimer := nextTimer w;
                calls := calls w ++
                         map (fun l => CallStatus l playing) (statusListeners (engine w)) |}).
  destruct (scheduleNext_arms tl wr w1 wd eq_refl Hw)
    as (w' & Hrun & Hsetup & Hst & Hcalls & _ & Hid & Hpend).
  exists w'. split; [exact Hrun|].
  split; [exact Hsetup|]. split; [exact Hst|]. split; [exact Hid|].
  split; [|exact Hcalls].
  rewrite Hpend. simpl. rewrite Hp. reflexivity.
Qed.

Lemma play_arms_one_timer_witness :
  (status (state (engine world_ready_abc)) = ready \/
   status (state (engine world_ready_abc)) = paused) /\
  getCurrentWord (state (engine world_ready_abc)) = Some (processWord (js "a")) /\
  pending world_ready_abc = [] /\
  exists w', play (fun s => s) None world_ready_abc = (Normal tt, w') /\
             pending w' = [(1%nat, 200%float)].
Proof.
  split; [left; reflexivity|]. split; [reflexivity|]. split; [reflexivity|].
  destruct (play_arms_one_timer (fun s => s) None world_ready_abc (processWord (js "a"))
              (or_introl eq_refl) eq_refl eq_refl)
    as (w' & Hrun & _ & _ & _ & Hpend & _).
  exists w'. split; [exact Hrun|]. rewrite Hpend. vm_compute. reflexivity.
Defined.

(** X5. From status ready or paused, with no word at the current position
    (as in a book without content) and no handle held, [play] arms nothing:
    it sets the status to playing and at once back to paused, telling every
    status listener of both, and leaves the pending timers as they were. *)
Theorem play_without_word_ends_paused tl wr (w : World) :
  status (state (engine w)) = ready \/ status (state (engine w)) = paused ->
  getCurrentWord (state (engine w)) = None ->
  timerId (engine w) = None ->
  exists w', play tl wr w = (Normal tt, w') /\
    same_setup w w' /\
    status (state (engine w')) = paused /\
    timerId (engine w') = None /\
    pending w' = pending w /\
    calls w' = calls w ++ map (fun l => CallStatus l playing) (statusListeners (engine w))
                       ++ map (fun l => CallStatus l paused) (statusListeners (engine w)).
Proof.
  intros Hs Hw Ht. rewrite (play_starts tl wr w Hs).
  set (w1 := {| engine := with_state (with_status playing) (engine w);
                pending := pending w; nextTimer := nextTimer w;
                calls := calls w ++
                         map (fun l => CallStatus l playing) (statusListeners (engine w)) |}).
  rewrite (scheduleNext_no_word tl wr w1 eq_refl Hw).
  destruct (pause_effect w1) as (w' & Hrun & Hsetup & _ & Hid & Hpend & Hst & Hcalls).
  exists w'. split; [exact Hrun|].
  split; [exact Hsetup|]. split; [exact Hst|]. split; [exact Hid|].
  split.
  - rewrite Hpend. simpl. rewrite Ht. reflexivity.
  - rewrite Hcalls. simpl. rewrite <- app_assoc. reflexivity.
Qed.

Lemma play_without_word_ends_paused_witness :
  (status (state (engine world_ready_hollow)) = ready \/
   status (state (engine world_ready_hollow)) = paused) /\
  getCurrentWord (state (engine world_ready_hollow)) = None /\
  timerId (engine world_ready_hollow) = None /\
  exists w', play (fun s => s) None world_ready_hollow = (Normal tt, w') /\
             status (state (engine w')) = paused /\ pending w' = [].
Proof.
  split; [left; reflexivity|]. split; [reflexivity|]. split; [reflexivity|].
  destruct (play_without_word_ends_paused (fun s => s) None world_ready_hollow
              (or_introl eq_refl) eq_refl eq_refl)
    as (w' & Hrun & _ & Hst & _ & Hpend & _).
  exists w'. split; [exact Hrun|]. split; [exact Hst | exact Hpend].
Defined.

(** X6. Whatever the world, [loadBook] completes normally and afterwards
    the book is the one given, the position is (0,0,0), the status is ready
    and the engine holds no timer handle: the timer it held is no longer
    pending and every other pending timer still is. The speed, the view
    mode, the three sets of listeners, the settings provider and the next
    timer handle are what they were. The listeners are called in this order
    and no other call is made: the status listeners with paused when the
    status was playing, the status listeners with ready, the word listeners
    with the word at (0,0,0) of the new book. *)
Theorem loadBook_resets (b : ProcessedBook) (w : World) :
  exists w', loadBook b w = (Normal tt, w') /\
    getBook w' = (Normal (Some b), w') /\
    getPosition w' = (Normal (pos 0 0 0), w') /\
    getStatus w' = (Normal ready, w') /\
    timerId (engine w') = None /\
    pending w' =
      match timerId (engine w) with
      | Some t => List.filter (fun td => negb (Nat.eqb (fst td) t)) (pending w)
      | None => pending w
      end /\
    match timerId (engine w) with
    | Some t => ~ In t (map fst (pending w'))
    | None => True
    end /\
    nextTimer w' = nextTimer w /\
    wpm (state (engine w')) = wpm (state (engine w)) /\
    viewMode (state (engine w')) = viewMode (state (engine w)) /\
    wordListeners (engine w') = wordListeners (engine w) /\
    statusListeners (engine w') = statusListeners (engine w) /\
    viewModeListeners (engine w') = viewModeListeners (engine w) /\
    timingSettingsGetter (engine w') = timingSettingsGetter (engine w) /\
    calls w' =
      calls w
      ++ (if bool_decide (status (state (engine w)) = playing)
          then map (fun l => CallStatus l paused) (statusListeners (engine w))
          else [])
      ++ map (fun l => CallStatus l ready) (statusListeners (engine w))
      ++ map (fun l => CallWord l (getCurrentWordInfo (state (engine w'))))
             (wordListeners (engine w)).
Proof.
  unfold loadBook.
  destruct (pause_effect w) as (w1 & Hrun & Hsetup & Hnext & Hid & Hpend & _ & Hcalls).
  rewrite (run_seq _ _ _ _ _ Hrun).
  destruct Hsetup as (_ & _ & Hwpm & Hvm & Hwl & Hsl & Hvl & Hget).
  unfold setStatus, notifyWordChange. unfold_M.
  eexists. split; [reflexivity|]. simpl.
  split; [reflexivity|]. split; [reflexivity|]. split; [reflexivity|].
  split; [exact Hid|]. split; [exact Hpend|]. split.
  { rewrite Hpend. destruct (timerId (engine w)); [apply clearTimeout_not_pending | exact I]. }
  split; [exact Hnext|]. split; [exact Hwpm|]. split; [exact Hvm|].
  split; [exact Hwl|]. split; [exact Hsl|]. split; [exact Hvl|]. split; [exact Hget|].
  rewrite Hcalls, Hwl, Hsl, <- !app_assoc. reflexivity.
Qed.

(** *** The scheduled continuation *)

Lemma position_eta (p : ReadingPosition) :
  pos (chapterIndex p) (paragraphIndex p) (wordIndex p) = p.
Proof. destruct p; reflexivity. Qed.

(** Where a word follows, [advance] moves the position, to a valid one in a
    dense book, and touches nothing else. *)
Lemma advance_moves (w : World) (b : ProcessedBook) :
  book (state (engine w)) = Some b ->
  valid_position b (position (state (engine w))) ->
  has_next b (position (state (engine w))) = true ->
  exists p', advance w = (Normal tt, relocate p' w) /\
             p' <> position (state (engine w)) /\
             (dense b -> valid_position b p').
Proof.
  intros Hb Hv Hn.
  destruct (valid_position_elim _ _ Hv) as (ch & par & Hch & Hpar & Hw).
  unfold has_next in Hn. rewrite Hch, Hpar in Hn.
  rewrite (advance_run w b ch par Hb Hch Hpar).
  pose proof (js_index_Some _ _ _ Hch) as Hci.
  pose proof (js_index_Some _ _ _ Hpar) as Hpi.
  set (p := position (state (engine w))) in *.
  assert (Hneq : forall c q x, (c, q, x) <> (chapterIndex p, paragraphIndex p, wordIndex p) ->
                               pos c q x <> p).
  { intros c q x Hne Heq. apply Hne. rewrite <- Heq. reflexivity. }
  destruct (Z.ltb_spec (wordIndex p + 1) (js_length (words par))).
  { eexists. split; [reflexivity|]. split.
    - apply Hneq. intros Heq. injection Heq. lia.
    - intros _. apply (valid_position_intro b _ ch par); simpl; auto; lia. }
  destruct (Z.ltb_spec (paragraphIndex p + 1) (js_length (paragraphs ch))).
  { eexists. split; [reflexivity|]. split.
    - apply Hneq. intros Heq. injection Heq. lia.
    - intros Hd.
      destruct (js_index_in_range (paragraphs ch) (paragraphIndex p + 1)) as [par' Hpar'];
        [lia|].
      destruct (dense_chapter b _ ch Hd Hch) as [_ Hpars].
      pose proof (dense_paragraph ch _ par' Hpars Hpar').
      apply (valid_position_intro b _ ch par'); simpl; auto; lia. }
  destruct (Z.ltb_spec (chapterIndex p + 1) (js_length (chapters b))); [|discriminate].
  eexists. split; [reflexivity|]. split.
  - apply Hneq. intros Heq. injection Heq. lia.
  - intros Hd. apply valid_start_of_chapter; [exact Hd | lia].
Qed.

(** At the end of the book [advance] is [pause]. *)
Lemma advance_at_end (w : World) (b : ProcessedBook) :
  book (state (engine w)) = Some b ->
  valid_position b (position (state (engine w))) ->
  has_next b (position (state (engine w))) = false ->
  advance w = pause w.
Proof.
  intros Hb Hv Hn.
  destruct (valid_position_elim _ _ Hv) as (ch & par & Hch & Hpar & Hw).
  unfold has_next in Hn. rewrite Hch, Hpar in Hn.
  rewrite (advance_run w b ch par Hb Hch Hpar).
  apply orb_false_iff in Hn as [Hn H3]. apply orb_false_iff in Hn as [H1 H2].
  rewrite H1, H2, H3. reflexivity.
Qed.

(** X7. When the timer fires at the end of the book (the last word of the
    last paragraph of the last chapter) during playback, the position stays
    where it is, the status becomes paused, every status listener is told so
    and every word listener is told the current word, and nothing is armed
    again: playback has stopped. *)
Theorem fire_at_end_of_book_stops tl wr (w : World) (b : ProcessedBook) (t : nat) (d : float) :
  book (state (engine w)) = Some b ->
  valid_position b (position (state (engine w))) ->
  has_next b (position (state (engine w))) = false ->
  status (state (engine w)) = playing ->
  timerId (engine w) = Some t ->
  pending w = [(t, d)] ->
  exists w', fire tl wr t w = (Normal tt, w') /\
    same_setup w w' /\
    status (state (engine w')) = paused /\
    timerId (engine w') = None /\
    pending w' = [] /\
    calls w' =
      calls w
      ++ map (fun l => CallStatus l paused) (statusListeners (engine w))
      ++ map (fun l => CallWord l (getCurrentWordInfo (state (engine w))))
             (wordListeners (engine w)).
Proof.
  intros Hb Hv Hn Hs Ht Hp. unfold fire. unfold_M. rewrite Hp. simpl.
  rewrite Nat.eqb_refl. simpl. unfold clearTimeout. unfold_M.
  rewrite Hp. simpl. rewrite Nat.eqb_refl. simpl.
  set (w0 := {| engine := engine w; pending := []; nextTimer := nextTimer w;
                calls := calls w |}).
  unfold tick.
  rewrite (run_seq advance _ w0 (after pause w0) tt).
  2:{ rewrite (advance_at_end w0 b Hb Hv Hn).
      destruct (pause_effect w0) as (w1 & Hrun & _). rewrite (after_run _ _ _ _ Hrun).
      exact Hrun. }
  destruct (pause_effect w0) as (w1 & Hrun & Hsetup & _ & Hid & Hpend & Hst & Hcalls).
  rewrite (after_run _ _ _ _ Hrun).
  rewrite (run_seq notifyWordChange _ w1 _ tt (notifyWordChange_run w1)).
  simpl in Hst, Hpend, Hcalls. rewrite Hs in Hst, Hcalls. simpl in Hst, Hcalls.
  rewrite Ht in Hpend. simpl in Hpend.
  rewrite scheduleNext_not_playing by (simpl; rewrite Hst; discriminate).
  eexists. split; [reflexivity|]. simpl.
  pose proof Hsetup as (Hbk & Hpos & _ & _ & Hwl & _).
  split; [exact Hsetup|]. split; [exact Hst|]. split; [exact Hid|].
  split; [exact Hpend|].
  rewrite Hcalls, Hwl, <- app_assoc. do 3 f_equal.
  unfold getCurrentWordInfo. simpl in Hbk, Hpos. rewrite Hbk, Hpos. reflexivity.
Qed.

Lemma fire_at_end_of_book_stops_witness :
  book (state (engine world_playing_abc_end)) = Some book_abc /\
  valid_position book_abc (position (state (engine world_playing_abc_end))) /\
  has_next book_abc (position (state (engine world_playing_abc_end))) = false /\
  status (state (engine world_playing_abc_end)) = playing /\
  timerId (engine world_playing_abc_end) = Some 1%nat /\
  pending world_playing_abc_end = [(1%nat, 200%float)] /\
  exists w', fire (fun s => s) None 1 world_playing_abc_end = (Normal tt, w') /\
             status (state (engine w')) = paused /\ pending w' = [].
Proof.
  assert (Hv : valid_position book_abc (position (state (engine world_playing_abc_end)))).
  { apply valid_positionb_spec. reflexivity. }
  assert (Hp : pending world_playing_abc_end = [(1%nat, 200%float)]).
  { vm_compute. reflexivity. }
  split; [reflexivity|]. split; [exact Hv|]. split; [reflexivity|].
  split; [reflexivity|]. split; [reflexivity|]. split; [exact Hp|].
  destruct (fire_at_end_of_book_stops (fun s => s) None world_playing_abc_end book_abc
              1%nat 200%float eq_refl Hv eq_refl eq_refl eq_refl Hp)
    as (w' & Hrun & _ & Hst & _ & Hpend & _).
  exists w'. auto.
Defined.

(** X8. When the timer fires during playback in a book without empty
    chapters and paragraphs, at a valid position that a word follows, the
    position moves to another valid position, the word listeners are told
    the word there, and exactly one new timer is armed, with the total delay
    of that word; the status stays playing. *)
Theorem fire_advances_and_rearms tl wr (w : World) (b : ProcessedBook) (t : nat) (d : float) :
  book (state (engine w)) = Some b ->
  dense b ->
  valid_position b (position (state (engine w))) ->
  has_next b (position (state (engine w))) = true ->
  status (state (engine w)) = playing ->
  pending w = [(t, d)] ->
  exists w' wd, fire tl wr t w = (Normal tt, w') /\
    position (state (engine w')) <> position (state (engine w)) /\
    valid_position b (position (state (engine w'))) /\
    getCurrentWord (state (engine w')) = Some wd /\
    status (state (engine w')) = playing /\
    timerId (engine w') = Some (nextTimer w) /\
    pending w' =
      [(nextTimer w,
        calculateTotalDelay tl wr (text wd) (wpm (state (engine w))) (current_settings w))] /\
    calls w' =
      calls w ++ map (fun l => CallWord l (getCurrentWordInfo (state (engine w'))))
                     (wordListeners (engine w)).
Proof.
  intros Hb Hd Hv Hn Hs Hp. unfold fire. unfold_M. rewrite Hp. simpl.
  rewrite Nat.eqb_refl. simpl. unfold clearTimeout. unfold_M.
  rewrite Hp. simpl. rewrite Nat.eqb_refl. simpl.
  set (w0 := {| engine := engine w; pending := []; nextTimer := nextTimer w;
                calls := calls w |}).
  destruct (advance_moves w0 b Hb Hv Hn) as (p' & Hadv & Hneq & Hvalid).
  specialize (Hvalid Hd).
  unfold tick. rewrite (run_seq _ _ _ _ _ Hadv).
  rewrite (run_seq notifyWordChange _ _ _ tt (notifyWordChange_run (relocate p' w0))).
  destruct (valid_position_elim _ _ Hvalid) as (ch & par & Hch & Hpar & Hw).
  destruct (js_index_in_range (words par) (wordIndex p')) as [wd Hwd]; [lia|].
  match goal with |- context [scheduleNext tl wr ?W] => set (w2 := W) end.
  assert (Hcur : getCurrentWord (state (engine w2)) = Some wd).
  { unfold getCurrentWord. simpl. rewrite Hb, Hch, Hpar. exact Hwd. }
  destruct (scheduleNext_arms tl wr w2 wd Hs Hcur)
    as (w' & Hrun & Hsetup & Hst & Hcalls & _ & Hid & Hpend).
  exists w', wd. split; [exact Hrun|].
  pose proof Hsetup as (Hbk & Hpos & _).
  simpl in Hpos, Hbk.
  split; [rewrite Hpos; exact Hneq|].
  split; [rewrite Hpos; exact Hvalid|].
  split.
  { unfold getCurrentWord. rewrite Hbk, Hpos, Hb, Hch, Hpar. exact Hwd. }
  split; [exact Hst|]. split; [exact Hid|]. split; [exact Hpend|].
  rewrite Hcalls. simpl. do 3 f_equal.
  unfold getCurrentWordInfo. rewrite Hbk, Hpos. reflexivity.
Qed.

Lemma fire_advances_and_rearms_witness :
  book (state (engine world_playing_two)) = Some book_two /\
  dense book_two /\
  valid_position book_two (position (state (engine world_playing_two))) /\
  has_next book_two (position (state (engine world_playing_two))) = true /\
  status (state (engine world_playing_two)) = playing /\
  pending world_playing_two = [(1%nat, 200%float)] /\
  exists w', fire (fun s => s) None 1 world_playing_two = (Normal tt, w') /\
             status (state (engine w')) = playing /\
             timerId (engine w') = Some 2%nat.
Proof.
  assert (Hv : valid_position book_two (position (state (engine world_playing_two)))).
  { apply valid_positionb_spec. reflexivity. }
  assert (Hp : pending world_playing_two = [(1%nat, 200%float)]).
  { vm_compute. reflexivity. }
  split; [reflexivity|]. split; [exact book_two_dense|]. split; [exact Hv|].
  split; [reflexivity|]. split; [reflexivity|]. split; [exact Hp|].
  destruct (fire_advances_and_rearms (fun s => s) None world_playing_two book_two
              1%nat 200%float eq_refl book_two_dense Hv eq_refl eq_refl Hp)
    as (w' & wd & Hrun & _ & _ & _ & Hst & Hid & _).
  exists w'. auto.
Defined.

(** *** Stepping forward and back *)

Lemma nextWord_with_book (w : World) (b : ProcessedBook) :
  book (state (engine w)) = Some b ->
  nextWord w = (advance ;; notifyWordChange) w.
Proof. intros Hb. unfold nextWord. unfold_M. rewrite Hb. reflexivity. Qed.

Lemma prevWord_with_book (w : World) (b : ProcessedBook) :
  book (state (engine w)) = Some b ->
  prevWord w = (retreat ;; notifyWordChange) w.
Proof. intros Hb. unfold prevWord. unfold_M. rewrite Hb. reflexivity. Qed.

Lemma pos_eq (p : ReadingPosition) (c q x : Z) :
  c = chapterIndex p -> q = paragraphIndex p -> x = wordIndex p -> pos c q x = p.
Proof. intros -> -> ->. apply position_eta. Qed.

Lemma gtb_true (a : Z) : 0 < a -> (a >? 0) = true.
Proof. intros H. apply Z.gtb_lt. exact H. Qed.

Lemma gtb_false (a : Z) : a <= 0 -> (a >? 0) = false.
Proof. intros H. rewrite Z.gtb_ltb. apply Z.ltb_ge. exact H. Qed.

Lemma Math_max_0 (a : Z) : 0 <= a -> Math_max 0 a = a.
Proof. intros H. unfold Math_max. destruct (Z.ltb_spec 0 a); lia. Qed.

(** From a valid position that a word follows, [retreat] takes any world
    standing where [advance] leads back to where [advance] started. *)
Lemma retreat_after_advance (w : World) (b : ProcessedBook) :
  book (state (engine w)) = Some b ->
  valid_position b (position (state (engine w))) ->
  has_next b (position (state (engine w))) = true ->
  exists p', advance w = (Normal tt, relocate p' w) /\
    forall w1, book (state (engine w1)) = Some b ->
               position (state (engine w1)) = p' ->
               retreat w1 = (Normal tt, relocate (position (state (engine w))) w1).
Proof.
  intros Hb Hv Hn.
  destruct (valid_position_elim _ _ Hv) as (ch & par & Hch & Hpar & Hw).
  unfold has_next in Hn. rewrite Hch, Hpar in Hn.
  rewrite (advance_run w b ch par Hb Hch Hpar).
  pose proof (js_index_Some _ _ _ Hch) as Hci.
  pose proof (js_index_Some _ _ _ Hpar) as Hpi.
  set (p := position (state (engine w))) in *.
  destruct (Z.ltb_spec (wordIndex p + 1) (js_length (words par))).
  { eexists. split; [reflexivity|]. intros w1 Hb1 Hp1.
    rewrite (retreat_run w1 b Hb1), Hp1. simpl.
    rewrite gtb_true by lia.
    replace (wordIndex p + 1 - 1) with (wordIndex p) by lia.
    rewrite position_eta. reflexivity. }
  destruct (Z.ltb_spec (paragraphIndex p + 1) (js_length (paragraphs ch))).
  { eexists. split; [reflexivity|]. intros w1 Hb1 Hp1.
    rewrite (retreat_run w1 b Hb1), Hp1. simpl.
    rewrite gtb_true by lia. rewrite Hch.
    replace (paragraphIndex p + 1 - 1) with (paragraphIndex p) by lia.
    rewrite Hpar, Math_max_0 by lia.
    replace (js_length (words par) - 1) with (wordIndex p) by lia.
    rewrite position_eta. reflexivity. }
  destruct (Z.ltb_spec (chapterIndex p + 1) (js_length (chapters b))); [|discriminate].
  eexists. split; [reflexivity|]. intros w1 Hb1 Hp1.
  rewrite (retreat_run w1 b Hb1), Hp1. simpl.
  rewrite gtb_true by lia.
  replace (chapterIndex p + 1 - 1) with (chapterIndex p) by lia.
  rewrite Hch, Math_max_0 by lia.
  replace (js_length (paragraphs ch) - 1) with (paragraphIndex p) by lia.
  rewrite Hpar, Math_max_0 by lia.
  replace (js_length (words par) - 1) with (wordIndex p) by lia.
  rewrite position_eta. reflexivity.
Qed.

(** In a dense book, from a valid position that is not the first of the
    book, [advance] takes any world standing where [retreat] leads back to
    where [retreat] started. *)
Lemma advance_after_retreat (w : World) (b : ProcessedBook) :
  book (state (engine w)) = Some b ->
  dense b ->
  valid_position b (position (state (engine w))) ->
  has_previous (position (state (engine w))) = true ->
  exists p', retreat w = (Normal tt, relocate p' w) /\
    forall w1, book (state (engine w1)) = Some b ->
               position (state (engine w1)) = p' ->
               advance w1 = (Normal tt, relocate (position (state (engine w))) w1).
Proof.
  intros Hb Hd Hv Hn.
  destruct (valid_position_elim _ _ Hv) as (ch & par & Hch & Hpar & Hw).
  unfold has_previous in Hn.
  rewrite (retreat_run w b Hb).
  pose proof (js_index_Some _ _ _ Hch) as Hci.
  pose proof (js_index_Some _ _ _ Hpar) as Hpi.
  set (p := position (state (engine w))) in *.
  destruct (Z.ltb_spec 0 (wordIndex p)) as [Hwi|Hwi].
  { rewrite gtb_true by lia.
    eexists. split; [reflexivity|]. intros w1 Hb1 Hp1.
    assert (Hch1 : js_index (chapters b) (chapterIndex (position (state (engine w1)))) = Some ch)
      by (rewrite Hp1; exact Hch).
    assert (Hpar1 : js_index (paragraphs ch) (paragraphIndex (position (state (engine w1))))
                    = Some par) by (rewrite Hp1; exact Hpar).
    rewrite (advance_run w1 b ch par Hb1 Hch1 Hpar1), Hp1. simpl.
    destruct (Z.ltb_spec (wordIndex p - 1 + 1) (js_length (words par))); [|lia].
    replace (wordIndex p - 1 + 1) with (wordIndex p) by lia.
    rewrite position_eta. reflexivity. }
  rewrite (gtb_false (wordIndex p)) by lia.
  destruct (Z.ltb_spec 0 (paragraphIndex p)) as [Hpi0|Hpi0].
  { rewrite gtb_true by lia. rewrite Hch.
    destruct (js_index_in_range (paragraphs ch) (paragraphIndex p - 1)) as [np Hnp]; [lia|].
    rewrite Hnp.
    destruct (dense_chapter b _ ch Hd Hch) as [_ Hpars].
    pose proof (dense_paragraph ch _ np Hpars Hnp) as Hlen.
    rewrite Math_max_0 by lia.
    eexists. split; [reflexivity|]. intros w1 Hb1 Hp1.
    assert (Hch1 : js_index (chapters b) (chapterIndex (position (state (engine w1)))) = Some ch)
      by (rewrite Hp1; exact Hch).
    assert (Hpar1 : js_index (paragraphs ch) (paragraphIndex (position (state (engine w1))))
                    = Some np) by (rewrite Hp1; exact Hnp).
    rewrite (advance_run w1 b ch np Hb1 Hch1 Hpar1), Hp1. simpl.
    destruct (Z.ltb_spec (js_length (words np) - 1 + 1) (js_length (words np))); [lia|].
    destruct (Z.ltb_spec (paragraphIndex p - 1 + 1) (js_length (paragraphs ch))); [|lia].
    rewrite (pos_eq p) by lia. reflexivity. }
  rewrite (gtb_false (paragraphIndex p)) by lia.
  rewrite (gtb_false (wordIndex p)), (gtb_false (paragraphIndex p)) in Hn by lia.
  simpl in Hn. rewrite Hn.
  apply Z.gtb_lt in Hn.
  destruct (js_index_in_range (chapters b) (chapterIndex p - 1)) as [nc Hnc]; [lia|].
  rewrite Hnc. cbv zeta.
  destruct (dense_chapter b _ nc Hd Hnc) as [Hlp Hpars].
  rewrite Math_max_0 by lia.
  destruct (js_index_in_range (paragraphs nc) (js_length (paragraphs nc) - 1))
    as [np Hnp]; [lia|].
  rewrite Hnp.
  pose proof (dense_paragraph nc _ np Hpars Hnp) as Hlen.
  rewrite Math_max_0 by lia.
  eexists. split; [reflexivity|]. intros w1 Hb1 Hp1.
  assert (Hch1 : js_index (chapters b) (chapterIndex (position (state (engine w1)))) = Some nc)
    by (rewrite Hp1; exact Hnc).
  assert (Hpar1 : js_index (paragraphs nc) (paragraphIndex (position (state (engine w1))))
                  = Some np) by (rewrite Hp1; exact Hnp).
  rewrite (advance_run w1 b nc np Hb1 Hch1 Hpar1), Hp1. simpl.
  destruct (Z.ltb_spec (js_length (words np) - 1 + 1) (js_length (words np))); [lia|].
  destruct (Z.ltb_spec (js_length (paragraphs nc) - 1 + 1) (js_length (paragraphs nc))); [lia|].
  destruct (Z.ltb_spec (chapterIndex p - 1 + 1) (js_length (chapters b))); [|lia].
  rewrite (pos_eq p) by lia. reflexivity.
Qed.

(** X9. With a book loaded, from a valid position that a word follows,
    nextWord and then prevWord complete normally and the position is the one
    before the two calls; this needs no assumption on the book, empty
    paragraphs and chapters included. *)
Theorem prevWord_undoes_nextWord (w : World) (b : ProcessedBook) :
  book (state (engine w)) = Some b ->
  valid_position b (position (state (engine w))) ->
  has_next b (position (state (engine w))) = true ->
  exists w', (nextWord ;; prevWord) w = (Normal tt, w') /\
             position (state (engine w')) = position (state (engine w)) /\
             same_control w w'.
Proof.
  intros Hb Hv Hn.
  destruct (retreat_after_advance w b Hb Hv Hn) as (p' & Hadv & Hback).
  assert (Hnext : nextWord w = notifyWordChange (relocate p' w)).
  { rewrite (nextWord_with_book w b Hb).
    exact (run_seq advance (fun _ => notifyWordChange) _ _ _ Hadv). }
  rewrite notifyWordChange_run in Hnext.
  rewrite (run_seq _ _ _ _ _ Hnext).
  match goal with |- context [prevWord ?W] => set (w1 := W) end.
  assert (Hb1 : book (state (engine w1)) = Some b) by exact Hb.
  rewrite (prevWord_with_book w1 b Hb1).
  rewrite (run_seq _ _ _ _ _ (Hback w1 Hb1 eq_refl)).
  rewrite notifyWordChange_run.
  eexists. split; [reflexivity|]. simpl. split; [reflexivity|].
  repeat split.
Qed.

Lemma prevWord_undoes_nextWord_witness :
  book (state (engine world_two)) = Some book_two /\
  valid_position book_two (position (state (engine world_two))) /\
  has_next book_two (position (state (engine world_two))) = true /\
  exists w', (nextWord ;; prevWord) world_two = (Normal tt, w') /\
             position (state (engine w')) = position (state (engine world_two)).
Proof.
  assert (Hv : valid_position book_two (position (state (engine world_two)))).
  { apply valid_positionb_spec. reflexivity. }
  split; [reflexivity|]. split; [exact Hv|]. split; [reflexivity|].
  destruct (prevWord_undoes_nextWord world_two book_two eq_refl Hv eq_refl)
    as (w' & Hrun & Hpos & _).
  exists w'. auto.
Defined.

(** X10. With a book without empty chapters and paragraphs loaded, from a
    valid position other than the first word of the book, prevWord and then
    nextWord complete normally and the position is the one before the two
    calls. *)
Theorem nextWord_undoes_prevWord (w : World) (b : ProcessedBook) :
  book (state (engine w)) = Some b ->
  dense b ->
  valid_position b (position (state (engine w))) ->
  has_previous (position (state (engine w))) = true ->
  exists w', (prevWord ;; nextWord) w = (Normal tt, w') /\
             position (state (engine w')) = position (state (engine w)) /\
             same_control w w'.
Proof.
  intros Hb Hd Hv Hn.
  destruct (advance_after_retreat w b Hb Hd Hv Hn) as (p' & Hret & Hforth).
  assert (Hprev : prevWord w = notifyWordChange (relocate p' w)).
  { rewrite (prevWord_with_book w b Hb).
    exact (run_seq retreat (fun _ => notifyWordChange) _ _ _ Hret). }
  rewrite notifyWordChange_run in Hprev.
  rewrite (run_seq _ _ _ _ _ Hprev).
  match goal with |- context [nextWord ?W] => set (w1 := W) end.
  assert (Hb1 : book (state (engine w1)) = Some b) by exact Hb.
  rewrite (nextWord_with_book w1 b Hb1).
  rewrite (run_seq _ _ _ _ _ (Hforth w1 Hb1 eq_refl)).
  rewrite notifyWordChange_run.
  eexists. split; [reflexivity|]. simpl. split; [reflexivity|].
  repeat split.
Qed.

Lemma nextWord_undoes_prevWord_witness :
  book (state (engine world_two_second)) = Some book_two /\
  dense book_two /\
  valid_position book_two (position (state (engine world_two_second))) /\
  has_previous (position (state (engine world_two_second))) = true /\
  exists w', (prevWord ;; nextWord) world_two_second = (Normal tt, w') /\
             position (state (engine w')) = position (state (engine world_two_second)).
Proof.
  assert (Hv : valid_position book_two (position (state (engine world_two_second)))).
  { apply valid_positionb_spec. reflexivity. }
  split; [reflexivity|]. split; [exact book_two_dense|]. split; [exact Hv|].
  split; [reflexivity|].
  destruct (nextWord_undoes_prevWord world_two_second book_two eq_refl book_two_dense
              Hv eq_refl) as (w' & Hrun & Hpos & _).
  exists w'. auto.
Defined.

(** X11. getCurrentWordInfo delivers an info exactly when a book is loaded
    and the position is valid in it; the info then carries the current word
    and the position, and each index of the position is below the total the
    info reports beside it. getCurrentWord delivers the same word, and
    nothing exactly when no info is delivered. *)
Theorem getCurrentWordInfo_defined_iff_valid (st : RSVPState) :
  (getCurrentWordInfo st <> None <->
   exists b, book st = Some b /\ valid_position b (position st)) /\
  match getCurrentWordInfo st with
  | Some i =>
      getCurrentWord st = Some (word i) /\
      info_position i = position st /\
      0 <= wordIndex (info_position i) < totalWordsInParagraph i /\
      0 <= paragraphIndex (info_position i) < totalParagraphsInChapter i /\
      0 <= chapterIndex (info_position i) < totalChapters i
  | None => getCurrentWord st = None
  end.
Proof.
  unfold getCurrentWordInfo, getCurrentWord.
  destruct (book st) as [b|].
  2:{ split; [|reflexivity]. split; [congruence|]. intros (b & Hb & _). discriminate. }
  destruct (js_index (chapters b) (chapterIndex (position st))) as [ch|] eqn:Hch.
  2:{ split; [|reflexivity]. split; [congruence|]. intros (b' & Hb & Hv).
      injection Hb as <-.
      destruct (valid_position_elim _ _ Hv) as (ch & _ & Hch' & _). congruence. }
  destruct (js_index (paragraphs ch) (paragraphIndex (position st))) as [par|] eqn:Hpar.
  2:{ split; [|reflexivity]. split; [congruence|]. intros (b' & Hb & Hv).
      injection Hb as <-.
      destruct (valid_position_elim _ _ Hv) as (ch' & par & Hch' & Hpar' & _). congruence. }
  destruct (js_index (words par) (wordIndex (position st))) as [wd|] eqn:Hwd.
  2:{ split; [|reflexivity]. split; [congruence|]. intros (b' & Hb & Hv).
      injection Hb as <-.
      destruct (valid_position_elim _ _ Hv) as (ch' & par' & Hch' & Hpar' & Hw).
      assert (par' = par) as -> by congruence.
      destruct (js_index_in_range _ _ Hw) as [x Hx]. congruence. }
  pose proof (js_index_Some _ _ _ Hch). pose proof (js_index_Some _ _ _ Hpar).
  pose proof (js_index_Some _ _ _ Hwd).
  split.
  - split; [|discriminate]. intros _. exists b. split; [reflexivity|].
    apply (valid_position_intro b _ ch par); auto.
  - simpl. auto.
Qed.

(** *** Listeners *)

Lemma rounds_app (w : World) (cs1 cs2 : list Call) :
  rounds w cs1 -> rounds w cs2 -> rounds w (cs1 ++ cs2).
Proof.
  induction 1 as [|info cs H IH|s cs H IH|m cs H IH]; intros H2; simpl.
  - exact H2.
  - rewrite <- app_assoc. apply rounds_word, IH, H2.
  - rewrite <- app_assoc. apply rounds_status, IH, H2.
  - rewrite <- app_assoc. apply rounds_viewMode, IH, H2.
Qed.

Lemma rounds_same_listeners (w w' : World) (cs : list Call) :
  same_listeners w w' -> rounds w' cs -> rounds w cs.
Proof.
  intros (Hw & Hs & Hv). induction 1 as [|info cs H IH|s cs H IH|m cs H IH].
  - apply rounds_nil.
  - rewrite Hw. apply rounds_word, IH.
  - rewrite Hs. apply rounds_status, IH.
  - rewrite Hv. apply rounds_viewMode, IH.
Qed.

#[local] Instance told_preorder : PreOrder told.
Proof.
  split.
  - intros w. split; [repeat split; reflexivity|].
    exists []. split; [symmetry; apply app_nil_r | apply rounds_nil].
  - intros w1 w2 w3 [Hl1 (cs1 & Hc1 & Hr1)] [Hl2 (cs2 & Hc2 & Hr2)]. split.
    + destruct Hl1 as (? & ? & ?), Hl2 as (? & ? & ?). repeat split; congruence.
    + exists (cs1 ++ cs2). split.
      * rewrite Hc2, Hc1, app_assoc. reflexivity.
      * apply rounds_app; [exact Hr1|]. apply (rounds_same_listeners w1 w2); assumption.
Qed.

(** Nothing called and the listeners left alone. *)
Lemma told_quiet (w w' : World) :
  same_listeners w w' -> calls w' = calls w -> told w w'.
Proof.
  intros Hl Hc. split; [exact Hl|]. exists []. split.
  - rewrite Hc. symmetry. apply app_nil_r.
  - apply rounds_nil.
Qed.

Lemma setStatus_told (s : RSVPStatus) : preserves told (setStatus s).
Proof.
  intros w. rewrite setStatus_run. simpl. split; [repeat split; reflexivity|].
  eexists. split; [reflexivity|].
  rewrite <- (app_nil_r (map _ _)). apply rounds_status, rounds_nil.
Qed.

Lemma notifyWordChange_told : preserves told notifyWordChange.
Proof.
  intros w. rewrite notifyWordChange_run. simpl. split; [repeat split; reflexivity|].
  eexists. split; [reflexivity|].
  rewrite <- (app_nil_r (map _ _)). apply rounds_word, rounds_nil.
Qed.

Lemma notifyViewMode_told (mode : ViewMode) :
  preserves told
    (gets (fun w => viewModeListeners (engine w)) ≫= fun ls =>
     invoke (map (fun l => CallViewMode l mode) ls)).
Proof.
  intros w. simpl. split; [repeat split; reflexivity|].
  eexists. split; [reflexivity|].
  rewrite <- (app_nil_r (map _ _)). apply rounds_viewMode, rounds_nil.
Qed.

Ltac told_quiet_base :=
  first [ apply preserves_modify;
          [typeclasses eauto
          | intros ?; apply told_quiet; [repeat split; reflexivity | reflexivity]]
        | intros ?; apply told_quiet; [repeat split; reflexivity | reflexivity] ].

Lemma pause_told : preserves told pause.
Proof.
  unfold pause. solve_M ltac:(first [ apply setStatus_told | told_quiet_base ]).
Qed.

Lemma advance_told : preserves told advance.
Proof.
  unfold advance. solve_M ltac:(first [ apply pause_told | told_quiet_base ]).
Qed.

Lemma retreat_told : preserves told retreat.
Proof. unfold retreat. solve_M told_quiet_base. Qed.

Lemma goToChapter_told (i : Z) : preserves told (goToChapter i).
Proof.
  unfold goToChapter.
  solve_M ltac:(first [ apply notifyWordChange_told | told_quiet_base ]).
Qed.

Lemma setViewMode_told (mode : ViewMode) : preserves told (setViewMode mode).
Proof.
  unfold setViewMode.
  apply preserves_bind; [typeclasses eauto | apply preserves_gets; typeclasses eauto|].
  intros st. destruct (bool_decide (viewMode st = mode)).
  { apply preserves_ret; typeclasses eauto. }
  apply preserves_bind; [typeclasses eauto | |intros _].
  { destruct (bool_decide (mode = mode_paragraph));
      [apply pause_told | apply preserves_ret; typeclasses eauto]. }
  apply preserves_bind; [typeclasses eauto | told_quiet_base |intros _].
  apply notifyViewMode_told.
Qed.

Lemma scheduleNext_told tl wr : preserves told (scheduleNext tl wr).
Proof.
  unfold scheduleNext, getTimingSettings.
  solve_M ltac:(first [ apply pause_told | told_quiet_base ]).
Qed.

Lemma play_told tl wr : preserves told (play tl wr).
Proof.
  unfold play.
  solve_M ltac:(first [ apply setStatus_told | apply scheduleNext_told | told_quiet_base ]).
Qed.

Lemma tick_told tl wr : preserves told (tick tl wr).
Proof.
  unfold tick.
  solve_M ltac:(first [ apply advance_told | apply notifyWordChange_told
                      | apply scheduleNext_told ]).
Qed.

Lemma run_told tl wr (o : Operation) : preserves told (run tl wr o).
Proof.
  destruct o; simpl.
  - unfold loadBook.
    solve_M ltac:(first [ apply pause_told | apply setStatus_told
                        | apply notifyWordChange_told | told_quiet_base ]).
  - apply play_told.
  - apply pause_told.
  - unfold nextWord.
    solve_M ltac:(first [ apply advance_told | apply notifyWordChange_told ]).
  - unfold prevWord.
    solve_M ltac:(first [ apply retreat_told | apply notifyWordChange_told ]).
  - unfold restartParagraph.
    solve_M ltac:(first [ apply notifyWordChange_told | told_quiet_base ]).
  - apply goToChapter_told.
  - unfold nextChapter. solve_M ltac:(apply goToChapter_told).
  - unfold prevChapter. solve_M ltac:(apply goToChapter_told).
  - unfold setPosition.
    solve_M ltac:(first [ apply notifyWordChange_told | told_quiet_base ]).
  - apply setViewMode_told.
Qed.

(** The events that are no subscription call whole rounds and leave the
    listeners alone. *)
Lemma happen_told tl wr (e : Event) (w : World) :
  match e with
  | EvOnWordChange _ | EvOffWordChange _ | EvOnStatusChange _ | EvOffStatusChange _
  | EvOnViewModeChange _ | EvOffViewModeChange _ => True
  | _ => told w (after (happen tl wr e) w)
  end.
Proof.
  destruct e as [o| | | | | | | | | | |t]; simpl; try exact I;
    try (apply told_quiet; [repeat split; reflexivity | reflexivity]).
  - apply (run_told tl wr o w).
  - assert (H : preserves told (toggle tl wr)).
    { unfold toggle. solve_M ltac:(first [ apply pause_told | apply play_told ]). }
    apply (H w).
  - assert (H : preserves told toggleViewMode).
    { unfold toggleViewMode. solve_M ltac:(apply setViewMode_told). }
    apply (H w).
  - assert (H : preserves told (fire tl wr t)).
    { unfold fire. solve_M ltac:(first [ apply tick_told | told_quiet_base ]). }
    apply (H w).
Qed.

Lemma rounds_silent (w : World) (cs : list Call) (l : Listener) (info : option CurrentWordInfo) :
  rounds w cs -> l ∉ wordListeners (engine w) -> CallWord l info ∉ cs.
Proof.
  intros Hr Hl. induction Hr as [|info' cs H IH|s cs H IH|m cs H IH].
  - apply not_elem_of_nil.
  - intros Hin. apply elem_of_app in Hin as [Hin|Hin]; [|exact (IH Hin)].
    apply list_elem_of_fmap in Hin as (l' & Heq & Hin). injection Heq as -> _.
    exact (Hl Hin).
  - intros Hin. apply elem_of_app in Hin as [Hin|Hin]; [|exact (IH Hin)].
    apply list_elem_of_fmap in Hin as (l' & Heq & Hin). discriminate.
  - intros Hin. apply elem_of_app in Hin as [Hin|Hin]; [|exact (IH Hin)].
    apply list_elem_of_fmap in Hin as (l' & Heq & Hin). discriminate.
Qed.

Lemma elem_of_set_add (l l' : Listener) (ls : list Listener) :
  l ∈ set_add l' ls <-> l ∈ ls \/ l = l'.
Proof.
  unfold set_add. case_bool_decide as Hin.
  - split; [auto|]. intros [H| ->]; assumption.
  - rewrite elem_of_app, list_elem_of_singleton. reflexivity.
Qed.

Lemma elem_of_set_delete (l l' : Listener) (ls : list Listener) :
  l ∈ set_delete l' ls <-> l ∈ ls /\ l <> l'.
Proof.
  unfold set_delete. rewrite !list_elem_of_In, filter_In.
  rewrite negb_true_iff, Nat.eqb_neq. reflexivity.
Qed.

Lemma NoDup_set_add (l : Listener) (ls : list Listener) :
  NoDup ls -> NoDup (set_add l ls).
Proof.
  intros H. unfold set_add. case_bool_decide as Hin; [exact H|].
  apply NoDup_app. split; [exact H|]. split.
  - intros x Hx Hx'. apply list_elem_of_singleton in Hx'. subst. exact (Hin Hx).
  - apply NoDup_singleton.
Qed.

Lemma NoDup_set_delete (l : Listener) (ls : list Listener) :
  NoDup ls -> NoDup (set_delete l ls).
Proof.
  intros H. unfold set_delete. apply NoDup_ListNoDup.
  apply List.NoDup_filter. apply NoDup_ListNoDup. exact H.
Qed.

(** An event other than the subscription of [l] keeps [l] unregistered for
    word changes and makes no word call to it. *)
Lemma happen_silent tl wr (l : Listener) (e : Event) (w : World) :
  subscribes_word l e = false ->
  l ∉ wordListeners (engine w) ->
  (l ∉ wordListeners (engine (after (happen tl wr e) w))) /\
  exists cs, calls (after (happen tl wr e) w) = calls w ++ cs /\
             forall info, CallWord l info ∉ cs.
Proof.
  intros He Hl.
  assert (Htold : told w (after (happen tl wr e) w) ->
            (l ∉ wordListeners (engine (after (happen tl wr e) w))) /\
            exists cs, calls (after (happen tl wr e) w) = calls w ++ cs /\
                       forall info, CallWord l info ∉ cs).
  { intros [(Hw & _) (cs & Hc & Hr)]. split; [rewrite Hw; exact Hl|].
    exists cs. split; [exact Hc|]. intros info. apply (rounds_silent w); assumption. }
  assert (Hnone : forall cs : list Call, cs = [] -> forall info, CallWord l info ∉ cs).
  { intros cs -> info. apply not_elem_of_nil. }
  pose proof (happen_told tl wr e w) as Ht.
  destruct e as [o| | | | | | | | | | |t]; try (apply Htold; exact Ht); simpl.
  - split.
    + rewrite elem_of_set_add. intros [H| ->]; [exact (Hl H)|].
      simpl in He. rewrite Nat.eqb_refl in He. discriminate.
    + exists []. split; [rewrite app_nil_r; reflexivity | apply Hnone; reflexivity].
  - split.
    + rewrite elem_of_set_delete. intros [H _]. exact (Hl H).
    + exists []. split; [rewrite app_nil_r; reflexivity | apply Hnone; reflexivity].
  - split; [exact Hl|].
    exists []. split; [rewrite app_nil_r; reflexivity | apply Hnone; reflexivity].
  - split; [exact Hl|].
    exists []. split; [rewrite app_nil_r; reflexivity | apply Hnone; reflexivity].
  - split; [exact Hl|].
    exists []. split; [rewrite app_nil_r; reflexivity | apply Hnone; reflexivity].
  - split; [exact Hl|].
    exists []. split; [rewrite app_nil_r; reflexivity | apply Hnone; reflexivity].
Qed.

(** X13. Once a word listener has been unsubscribed (the function that
    onWordChange returned has been called), no later event calls it with a
    word, whatever the events are and whether or not they throw, as long as
    none of them subscribes it again. *)
Theorem unsubscribed_word_listener_is_not_called tl wr (l : Listener) (es : list Event)
    (w : World) :
  forallb (fun e => negb (subscribes_word l e)) es = true ->
  exists cs,
    calls (history tl wr es (after (offWordChange l) w))
      = calls (after (offWordChange l) w) ++ cs /\
    forall info, CallWord l info ∉ cs.
Proof.
  intros Hes.
  assert (Hstart : l ∉ wordListeners (engine (after (offWordChange l) w))).
  { simpl. rewrite elem_of_set_delete. intros [_ H]. exact (H eq_refl). }
  revert Hes Hstart. generalize (after (offWordChange l) w) as w0.
  induction es as [|e es IH]; intros w0 Hes Hl; simpl.
  { exists []. split; [rewrite app_nil_r; reflexivity|].
    intros info. apply not_elem_of_nil. }
  simpl in Hes. apply andb_true_iff in Hes as [He Hes].
  apply negb_true_iff in He.
  destruct (happen_silent tl wr l e w0 He Hl) as (Hl1 & cs1 & Hc1 & Hs1).
  destruct (IH _ Hes Hl1) as (cs2 & Hc2 & Hs2).
  exists (cs1 ++ cs2). split.
  - rewrite Hc2, Hc1, app_assoc. reflexivity.
  - intros info Hin. apply elem_of_app in Hin as [Hin|Hin].
    + exact (Hs1 info Hin).
    + exact (Hs2 info Hin).
Qed.

Lemma unsubscribed_word_listener_is_not_called_witness :
  forallb (fun e => negb (subscribes_word 1%nat e))
          [EvOperation OpNextWord; EvOnWordChange 2%nat; EvOperation OpPrevWord] = true /\
  exists cs,
    calls (history (fun s => s) None
             [EvOperation OpNextWord; EvOnWordChange 2%nat; EvOperation OpPrevWord]
             (after (offWordChange 1%nat) world_ready_abc))
      = calls (after (offWordChange 1%nat) world_ready_abc) ++ cs /\
    forall info, CallWord 1%nat info ∉ cs.
Proof.
  split; [reflexivity|].
  apply (unsubscribed_word_listener_is_not_called (fun s => s) None 1%nat
           [EvOperation OpNextWord; EvOnWordChange 2%nat; EvOperation OpPrevWord]
           world_ready_abc).
  reflexivity.
Defined.

Lemma happen_listeners_distinct tl wr (e : Event) (w : World) :
  listeners_distinct w -> listeners_distinct (after (happen tl wr e) w).
Proof.
  intros (Hw & Hs & Hv).
  assert (Htold : told w (after (happen tl wr e) w) ->
                  listeners_distinct (after (happen tl wr e) w)).
  { intros [(Hw' & Hs' & Hv') _]. unfold listeners_distinct.
    rewrite Hw', Hs', Hv'. auto. }
  pose proof (happen_told tl wr e w) as Ht.
  destruct e as [o| | | | | | | | | | |t]; try (apply Htold; exact Ht);
    unfold listeners_distinct; simpl;
    auto using NoDup_set_add, NoDup_set_delete.
Qed.

(** X14. Whatever calls are made on a new engine and whatever timers fire,
    no listener is registered twice in a set of listeners: subscribing a
    listener that is already registered registers it once, so a round calls
    it once. *)
Theorem listeners_are_registered_once tl wr (es : list Event) :
  listeners_distinct (history tl wr es new_World).
Proof.
  assert (H : forall w, listeners_distinct w -> listeners_distinct (history tl wr es w)).
  { induction es as [|e es IH]; intros w Hw; simpl; [exact Hw|].
    apply IH, happen_listeners_distinct, Hw. }
  apply H. repeat split; apply NoDup_nil_2.
Qed.

(** *** The view mode *)

(** [setViewMode] to another mode: [pause] first when the mode is the
    paragraph view, then the mode is written and its listeners are told. *)
Lemma setViewMode_switch (mode : ViewMode) (w : World) :
  viewMode (state (engine w)) <> mode ->
  setViewMode mode w =
    let w1 := if bool_decide (mode = mode_paragraph) then after pause w else w in
    (Normal tt,
     {| engine := with_state (with_viewMode mode) (engine w1);
        pending := pending w1; nextTimer := nextTimer w1;
        calls := calls w1 ++ map (fun l => CallViewMode l mode)
                                 (viewModeListeners (engine w1)) |}).
Proof.
  intros Hm. unfold setViewMode. unfold_M.
  rewrite bool_decide_eq_false_2 by exact Hm.
  destruct (bool_decide (mode = mode_paragraph)); [|reflexivity].
  destruct (pause_effect w) as (w1 & Hrun & _).
  rewrite (after_run _ _ _ _ Hrun), Hrun. reflexivity.
Qed.

Lemma setViewMode_effect (mode : ViewMode) (w : World) :
  viewMode (state (engine w)) <> mode ->
  exists w', setViewMode mode w = (Normal tt, w') /\
    viewMode (state (engine w')) = mode /\
    same_place w w' /\
    match mode with
    | mode_paragraph =>
        status (state (engine w')) =
          (if bool_decide (status (state (engine w)) = playing) then paused
           else status (state (engine w))) /\
        timerId (engine w') = None
    | mode_rsvp =>
        status (state (engine w')) = status (state (engine w)) /\
        timerId (engine w') = timerId (engine w)
    end.
Proof.
  intros Hm. rewrite (setViewMode_switch mode w Hm).
  eexists. split; [reflexivity|]. destruct mode; simpl.
  - repeat split.
  - destruct (pause_effect w) as (w1 & Hrun & Hsetup & _ & Hid & _ & Hst & _).
    rewrite (after_run _ _ _ _ Hrun).
    destruct Hsetup as (Hb & Hp & _). repeat split; assumption.
Qed.

(** X15. Switching to the paragraph view while a continuation is
    outstanding stops playback: the timer is cancelled and the handle
    dropped, the status becomes paused, the status listeners are told paused
    and then the view mode listeners are told the paragraph view; book and
    position stay. *)
Theorem paragraph_view_stops_playback (w : World) (t : nat) :
  outstanding t w ->
  viewMode (state (engine w)) = mode_rsvp ->
  exists w', setViewMode mode_paragraph w = (Normal tt, w') /\
    viewMode (state (engine w')) = mode_paragraph /\
    status (state (engine w')) = paused /\
    cancelled t w' /\
    same_place w w' /\
    calls w' =
      calls w ++ map (fun l => CallStatus l paused) (statusListeners (engine w))
              ++ map (fun l => CallViewMode l mode_paragraph) (viewModeListeners (engine w)).
Proof.
  intros (Hs & Ht & Hin) Hm.
  rewrite setViewMode_switch by (rewrite Hm; discriminate). simpl.
  destruct (pause_effect w) as (w1 & Hrun & Hsetup & _ & Hid & Hpend & Hst & Hcalls).
  rewrite (after_run _ _ _ _ Hrun).
  rewrite Hs in Hst, Hcalls. simpl in Hst, Hcalls. rewrite Ht in Hpend.
  destruct Hsetup as (Hb & Hp & _ & _ & _ & _ & Hvl & _).
  eexists. split; [reflexivity|]. simpl.
  split; [reflexivity|]. split; [exact Hst|]. split.
  { split; [exact Hid|]. rewrite Hpend. apply clearTimeout_not_pending. }
  split; [split; assumption|].
  rewrite Hcalls, Hvl, <- app_assoc. reflexivity.
Qed.

Lemma paragraph_view_stops_playback_witness :
  outstanding 1%nat world_playing_abc /\
  viewMode (state (engine world_playing_abc)) = mode_rsvp /\
  exists w', setViewMode mode_paragraph world_playing_abc = (Normal tt, w') /\
    status (state (engine w')) = paused /\ cancelled 1%nat w'.
Proof.
  split; [exact world_playing_abc_outstanding|]. split; [reflexivity|].
  destruct (paragraph_view_stops_playback world_playing_abc 1%nat
              world_playing_abc_outstanding eq_refl)
    as (w' & Hrun & _ & Hst & Hc & _).
  exists w'. auto.
Defined.

(** X16. Toggling the view mode twice restores the view mode, book and
    position but not playback: whichever mode it starts from, one of the two
    switches goes to the paragraph view and pauses, so afterwards the engine
    holds no timer handle and a status that was playing is paused. *)
Theorem toggleViewMode_twice_does_not_resume (w : World) :
  exists w', (toggleViewMode ;; toggleViewMode) w = (Normal tt, w') /\
    viewMode (state (engine w')) = viewMode (state (engine w)) /\
    same_place w w' /\
    timerId (engine w') = None /\
    status (state (engine w')) =
      (if bool_decide (status (state (engine w)) = playing) then paused
       else status (state (engine w))).
Proof.
  assert (Htoggle : forall w0, toggleViewMode w0 =
            setViewMode (if bool_decide (viewMode (state (engine w0)) = mode_rsvp)
                         then mode_paragraph else mode_rsvp) w0).
  { intros w0. reflexivity. }
  destruct (viewMode (state (engine w))) eqn:Hm.
  - destruct (setViewMode_effect mode_paragraph w) as (w1 & Hrun1 & Hm1 & Hp1 & Hs1 & Ht1).
    { rewrite Hm. discriminate. }
    destruct (setViewMode_effect mode_rsvp w1) as (w2 & Hrun2 & Hm2 & Hp2 & Hs2 & Ht2).
    { rewrite Hm1. discriminate. }
    exists w2. split.
    { rewrite (run_seq toggleViewMode (fun _ => toggleViewMode) w w1 tt).
      - rewrite Htoggle, Hm1. exact Hrun2.
      - rewrite Htoggle, Hm. exact Hrun1. }
    split; [exact Hm2|].
    split; [etransitivity; [exact Hp1 | exact Hp2]|].
    split; [rewrite Ht2; exact Ht1|]. rewrite Hs2. exact Hs1.
  - destruct (setViewMode_effect mode_rsvp w) as (w1 & Hrun1 & Hm1 & Hp1 & Hs1 & Ht1).
    { rewrite Hm. discriminate. }
    destruct (setViewMode_effect mode_paragraph w1) as (w2 & Hrun2 & Hm2 & Hp2 & Hs2 & Ht2).
    { rewrite Hm1. discriminate. }
    exists w2. split.
    { rewrite (run_seq toggleViewMode (fun _ => toggleViewMode) w w1 tt).
      - rewrite Htoggle, Hm1. exact Hrun2.
      - rewrite Htoggle, Hm. exact Hrun1. }
    split; [exact Hm2|].
    split; [etransitivity; [exact Hp1 | exact Hp2]|].
    split; [exact Ht2|]. rewrite Hs2, Hs1. reflexivity.
Qed.

(** *** Chapters *)

Lemma goToChapter_in_range (i : Z) (w : World) (b : ProcessedBook) :
  book (state (engine w)) = Some b ->
  0 <= i < js_length (chapters b) ->
  goToChapter i w = notifyWordChange (relocate (pos i 0 0) w).
Proof.
  intros Hb Hi. unfold goToChapter. unfold_M. rewrite Hb.
  destruct (Z.ltb_spec i 0); [lia|].
  destruct (Z.geb_spec i (js_length (chapters b))); [lia|]. reflexivity.
Qed.

(** X17. With a book loaded and a chapter after the current one, nextChapter
    and then prevChapter do not return to the position they started from but
    to the first word of the first paragraph of the chapter they started in;
    the word listeners are told twice and playback is not touched. *)
Theorem prevChapter_after_nextChapter_restarts_chapter (w : World) (b : ProcessedBook) :
  book (state (engine w)) = Some b ->
  0 <= chapterIndex (position (state (engine w))) ->
  chapterIndex (position (state (engine w))) + 1 < js_length (chapters b) ->
  exists w', (nextChapter ;; prevChapter) w = (Normal tt, w') /\
    position (state (engine w')) = pos (chapterIndex (position (state (engine w)))) 0 0 /\
    same_control w w'.
Proof.
  intros Hb H0 Hlt.
  set (ci := chapterIndex (position (state (engine w)))) in *.
  assert (Hnext : nextChapter w = notifyWordChange (relocate (pos (ci + 1) 0 0) w)).
  { unfold nextChapter. unfold_M. rewrite Hb. fold ci.
    destruct (Z.ltb_spec (ci + 1) (js_length (chapters b))); [|lia].
    apply (goToChapter_in_range _ w b Hb). lia. }
  rewrite notifyWordChange_run in Hnext.
  rewrite (run_seq _ _ _ _ _ Hnext).
  match goal with |- context [prevChapter ?W] => set (w1 := W) end.
  assert (Hprev : prevChapter w1 = notifyWordChange (relocate (pos ci 0 0) w1)).
  { unfold prevChapter. unfold_M. subst w1. simpl.
    destruct (Z.geb_spec (ci + 1 - 1) 0); [|lia].
    replace (ci + 1 - 1) with ci by lia.
    apply (goToChapter_in_range ci _ b); [exact Hb | lia]. }
  rewrite Hprev, notifyWordChange_run.
  eexists. split; [reflexivity|]. simpl. split; [reflexivity|]. repeat split.
Qed.

Lemma prevChapter_after_nextChapter_restarts_chapter_witness :
  book (state (engine world_two)) = Some book_two /\
  0 <= chapterIndex (position (state (engine world_two))) /\
  chapterIndex (position (state (engine world_two))) + 1 < js_length (chapters book_two) /\
  position (state (engine world_two)) = pos 0 0 1 /\
  exists w', (nextChapter ;; prevChapter) world_two = (Normal tt, w') /\
             position (state (engine w')) = pos 0 0 0.
Proof.
  assert (H0 : 0 <= chapterIndex (position (state (engine world_two)))).
  { vm_compute. discriminate. }
  assert (Hlt : chapterIndex (position (state (engine world_two))) + 1
                < js_length (chapters book_two)).
  { vm_compute. reflexivity. }
  split; [reflexivity|]. split; [exact H0|]. split; [exact Hlt|]. split; [reflexivity|].
  destruct (prevChapter_after_nextChapter_restarts_chapter world_two book_two eq_refl H0 Hlt)
    as (w' & Hrun & Hpos & _).
  exists w'. split; [exact Hrun|]. exact Hpos.
Defined.

(** ** Theorems: further properties of the timing model *)

(** At every integer speed from 100 to 1000, adding the punctuation delay
    of multiplier 0 gives the base interval back, and adding that of any
    multiplier of the table gives strictly more: checked by evaluating the
    sums at each speed. *)
Lemma punctuation_checked :
  forallb (fun w =>
             let b := calculateBaseInterval (Number w) in
             Leibniz.eqb (b + b * 0)%float b
             && forallb (fun m => (b <? b + b * m)%float) MARK_MULTIPLIERS)
          WPM_VALUES = true.
Proof. vm_compute. reflexivity. Qed.

Lemma table_get_multiplier (key : jsstring) (m : float) :
  table_get PUNCTUATION_MULTIPLIERS key = Some m -> In m MARK_MULTIPLIERS.
Proof.
  unfold MARK_MULTIPLIERS. generalize PUNCTUATION_MULTIPLIERS as table.
  induction table as [|[k v] rest IH]; simpl; [discriminate|].
  case_bool_decide.
  - intros [= <-]. left. reflexivity.
  - intros H'. right. apply IH, H'.
Qed.

(** X18. With the length delay and the frequency delay disabled, at every
    integer speed from 100 to 1000 the total delay of a word whose last
    code unit is one of the eight marks of the table is strictly larger than
    the base interval, and the total delay of every other word (the empty
    word included) is the base interval itself. *)
Theorem punctuation_lengthens_marked_words_only tl wr (word : jsstring) (w : Z)
    (s : TimingSettings) :
  MIN_WPM <= w <= MAX_WPM ->
  lengthDelayEnabled s = false ->
  frequencyDelayEnabled s = false ->
  match table_get PUNCTUATION_MULTIPLIERS (slice_last word) with
  | Some _ =>
      (calculateBaseInterval (Number w) <? calculateTotalDelay tl wr word (Number w) s)%float
      = true
  | None => calculateTotalDelay tl wr word (Number w) s = calculateBaseInterval (Number w)
  end.
Proof.
  unfold MIN_WPM, MAX_WPM. intros Hw Hl Hf.
  pose proof punctuation_checked as Hall.
  rewrite forallb_forall in Hall.
  assert (Hin : In w WPM_VALUES).
  { unfold WPM_VALUES, MIN_WPM. apply in_map_iff.
    exists (Z.to_nat (w - 100)). split; [lia|]. apply in_seq. lia. }
  specialize (Hall w Hin). cbv zeta in Hall.
  apply andb_true_iff in Hall as [Hzero Hmarks].
  rewrite forallb_forall in Hmarks.
  unfold calculateTotalDelay. rewrite Hl, Hf. cbv zeta.
  unfold calculatePunctuationDelay. cbv zeta.
  destruct (table_get PUNCTUATION_MULTIPLIERS (slice_last word)) as [m|] eqn:Hm; simpl.
  - apply Hmarks. apply (table_get_multiplier _ _ Hm).
  - apply Leibniz.eqb_spec. exact Hzero.
Qed.

Lemma punctuation_lengthens_marked_words_only_witness :
  MIN_WPM <= 450 <= MAX_WPM /\
  (calculateBaseInterval (Number 450)
     <? calculateTotalDelay (fun t => t) None (js "well,") (Number 450)
          DEFAULT_TIMING_SETTINGS)%float = true.
Proof.
  assert (Hw : MIN_WPM <= 450 <= MAX_WPM) by (unfold MIN_WPM, MAX_WPM; lia).
  split; [exact Hw|].
  exact (punctuation_lengthens_marked_words_only (fun t => t) None (js "well,") 450
           DEFAULT_TIMING_SETTINGS Hw eq_refl eq_refl).
Defined.

(** X19. The fixed delay that the word processor stores with each word
    (calculateWordDelay, the legacy table) is, for every word, the
    punctuation delay of the timing model at the default speed of 300 words
    per minute: the two tables agree mark by mark. *)
Theorem legacy_delay_is_punctuation_delay_at_default_speed (word : jsstring) :
  Number (calculateWordDelay word)
  = calculatePunctuationDelay word (calculateBaseInterval DEFAULT_WPM).
Proof.
  unfold calculateWordDelay, calculatePunctuationDelay. cbv zeta.
  generalize (slice_last word) as key. intros key.
  unfold LEGACY_DELAYS, PUNCTUATION_MULTIPLIERS. simpl.
  repeat (case_bool_decide; [vm_compute; reflexivity|]).
  vm_compute. reflexivity.
Qed.





(** ** Theorems: splitting and displaying words *)

Lemma split_spaces_concat (s piece : jsstring) (in_run : bool) :
  (in_run = true -> piece = []) ->
  concat (split_spaces s piece in_run)
  = piece ++ List.filter (fun c => negb (is_space c)) s.
Proof.
  revert piece in_run. induction s as [|c rest IH]; intros piece in_run Hrun; simpl.
  - rewrite !app_nil_r. reflexivity.
  - destruct (is_space c); simpl.
    + destruct in_run; simpl.
      * rewrite IH by reflexivity. rewrite (Hrun eq_refl). reflexivity.
      * rewrite IH by reflexivity. reflexivity.
    + rewrite IH by discriminate. rewrite <- app_assoc. reflexivity.
Qed.

Lemma split_spaces_no_space (s piece : jsstring) (in_run : bool) :
  forallb (fun c => negb (is_space c)) piece = true ->
  Forall (fun w => forallb (fun c => negb (is_space c)) w = true)
         (split_spaces s piece in_run).
Proof.
  revert piece in_run. induction s as [|c rest IH]; intros piece in_run Hp; simpl.
  - apply Forall_cons. split; [exact Hp | apply Forall_nil_2].
  - destruct (is_space c) eqn:Hc.
    + destruct in_run.
      * apply IH. reflexivity.
      * apply Forall_cons. split; [exact Hp | apply IH; reflexivity].
    + apply IH. rewrite forallb_app, Hp. simpl. rewrite Hc. reflexivity.
Qed.

Lemma concat_filter_nonempty (ws : list jsstring) :
  concat (List.filter (fun w => js_length w >? 0) ws) = concat ws.
Proof.
  induction ws as [|w ws IH]; [reflexivity|].
  cbn [List.filter concat].
  destruct (Z.ltb_spec 0 (js_length w)) as [Hpos|Hzero].
  - rewrite gtb_true by exact Hpos. cbn [concat]. rewrite IH. reflexivity.
  - rewrite gtb_false by exact Hzero.
    assert (w = []) as ->.
    { apply js_length_nil. unfold js_length in *. lia. }
    exact IH.
Qed.

Lemma calculateORP_range (t : jsstring) :
  t <> [] -> 0 <= calculateORP t < js_length t.
Proof.
  intros Hne. unfold calculateORP, js_length. apply orp_policy_range.
  - pose proof (strip_trailing_le orp_test t (length t)). lia.
  - destruct t; [congruence | simpl; lia].
Qed.

Lemma processText_concat (t : jsstring) :
  concat (map text (processText t)) = List.filter (fun c => negb (is_space c)) t.
Proof.
  unfold processText, split_on_spaces.
  rewrite map_map. simpl. rewrite map_id, concat_filter_nonempty.
  rewrite split_spaces_concat by discriminate. reflexivity.
Qed.

Lemma processText_each (t : jsstring) :
  Forall (fun w => text w <> [] /\
                   forallb (fun c => negb (is_space c)) (text w) = true /\
                   w = processWord (text w) /\
                   0 <= orpIndex w < js_length (text w))
         (processText t).
Proof.
  unfold processText, split_on_spaces.
  apply Forall_map. apply Forall_forall. intros w Hin.
  apply list_elem_of_In, filter_In in Hin as [Hin Hlen].
  apply list_elem_of_In in Hin.
  pose proof (split_spaces_no_space t [] false eq_refl) as Hall.
  rewrite Forall_forall in Hall.
  assert (Hne : w <> []).
  { intros ->. discriminate. }
  simpl. split; [exact Hne|]. split; [apply Hall; exact Hin|].
  split; [reflexivity|]. apply calculateORP_range. exact Hne.
Qed.

(** X21. processText loses no code unit that is not white space and keeps
    their order: its words, joined, are the text without its white space.
    Every word it yields is non-empty and free of white space, is the
    processed form of its own text, and has an ORP index that addresses a
    code unit of that text. So a text of white space only, and the empty
    text, yield no word. *)
Theorem processText_words (t : jsstring) :
  concat (map text (processText t)) = List.filter (fun c => negb (is_space c)) t /\
  Forall (fun w => text w <> [] /\
                   forallb (fun c => negb (is_space c)) (text w) = true /\
                   w = processWord (text w) /\
                   0 <= orpIndex w < js_length (text w))
         (processText t).
Proof. split; [apply processText_concat | apply processText_each]. Qed.

Lemma take_drop_middle_cons {A : Type} (l : list A) (i : nat) (x : A) :
  l !! i = Some x -> take i l ++ [x] ++ drop (S i) l = l.
Proof. intros H. simpl. apply take_drop_middle. exact H. Qed.

(** X22. For a word whose ORP index is not negative, the three spans that
    renderWord fills, joined in order, are the text of the word: the display
    neither drops nor repeats a code unit. When the index addresses a code
    unit, the middle span is exactly that one code unit and the first span
    has as many code units as the index says, so the last span is what
    follows the code unit. When the index is past the end, the first span
    is the whole text and the other two are empty. *)
Theorem renderWord_spans_partition_the_text (w : ProcessedWord) :
  0 <= orpIndex w ->
  let '(before, orp, after) := renderWord w in
  before ++ orp ++ after = text w /\
  (orpIndex w < js_length (text w) ->
   js_length before = orpIndex w /\
   exists c, js_index (text w) (orpIndex w) = Some c /\ orp = [c]) /\
  (js_length (text w) <= orpIndex w ->
   before = text w /\ orp = [] /\ after = []).
Proof.
  intros H0. unfold renderWord, js_slice, slice_bound, Math_max, Math_min. cbv zeta.
  set (t := text w). set (i := orpIndex w) in *.
  assert (Hlen : js_length t = Z.of_nat (length t)) by reflexivity.
  destruct (Z.ltb_spec 0 0); [lia|].
  destruct (Z.ltb_spec i 0); [lia|].
  destruct (Z.ltb_spec (i + 1) 0); [lia|].
  destruct (Z_lt_dec i (js_length t)) as [Hin|Hout].
  - destruct (js_index_in_range t i) as [c Hc]; [lia|]. rewrite Hc.
    assert (Hc' : t !! Z.to_nat i = Some c).
    { unfold js_index in Hc. destruct (i <? 0); [discriminate | exact Hc]. }
    replace (Z.to_nat (Z.max (Z.min i (js_length t) - Z.min 0 (js_length t)) 0))
      with (Z.to_nat i) by lia.
    replace (Z.to_nat (Z.min 0 (js_length t))) with O by lia.
    replace (Z.to_nat (Z.max (js_length t - Z.min (i + 1) (js_length t)) 0))
      with (length t - S (Z.to_nat i))%nat by lia.
    replace (Z.to_nat (Z.min (i + 1) (js_length t))) with (S (Z.to_nat i)) by lia.
    rewrite drop_0.
    rewrite (take_ge (drop _ _)) by (rewrite length_drop; lia).
    split; [apply take_drop_middle_cons; exact Hc'|].
    split; [|intros Hge; lia].
    intros _. split; [|exists c; split; reflexivity].
    unfold js_length. rewrite length_take. lia.
  - assert (Hnone : js_index t i = None).
    { unfold js_index. destruct (i <? 0); [reflexivity|].
      apply lookup_ge_None. lia. }
    rewrite Hnone.
    replace (Z.to_nat (Z.min 0 (js_length t))) with O by lia.
    rewrite drop_0, take_ge by lia.
    rewrite (drop_ge t) by lia. rewrite take_nil. simpl.
    split; [apply app_nil_r|]. split; [intros Hlt; lia|].
    intros _. split; [reflexivity|]. split; reflexivity.
Qed.

Lemma renderWord_spans_partition_the_text_witness :
  0 <= orpIndex (processWord (js "reading,")) /\
  renderWord (processWord (js "reading,")) = (js "re", js "a", js "ding,").
Proof.
  assert (H0 : 0 <= orpIndex (processWord (js "reading,"))) by (vm_compute; discriminate).
  split; [exact H0|].
  pose proof (renderWord_spans_partition_the_text (processWord (js "reading,")) H0) as H.
  destruct (renderWord (processWord (js "reading,"))) as [[before orp] after] eqn:Hr.
  destruct H as [_ _]. rewrite <- Hr. vm_compute. reflexivity.
Defined.

(** ** Theorems: the extracted book *)

Lemma drop_spaces_nil (s : jsstring) :
  drop_spaces s = [] <-> forallb is_space s = true.
Proof.
  induction s as [|c s IH]; simpl; [tauto|].
  destruct (is_space c); simpl; [exact IH|]. split; discriminate.
Qed.

(** What [drop_spaces] leaves starts with a code unit that is not white
    space. *)
Lemma drop_spaces_head (s : jsstring) :
  drop_spaces s = [] \/
  exists c rest, drop_spaces s = c :: rest /\ is_space c = false.
Proof.
  induction s as [|c s IH]; simpl; [left; reflexivity|].
  destruct (is_space c) eqn:Hc; [exact IH|].
  right. exists c, s. auto.
Qed.

Lemma forallb_rev {A : Type} (f : A -> bool) (l : list A) :
  forallb f (rev l) = forallb f l.
Proof.
  induction l as [|x l IH]; simpl; [reflexivity|].
  rewrite forallb_app, IH. simpl. rewrite andb_true_r. apply andb_comm.
Qed.

Lemma existsb_rev {A : Type} (f : A -> bool) (l : list A) :
  existsb f (rev l) = existsb f l.
Proof.
  induction l as [|x l IH]; simpl; [reflexivity|].
  rewrite existsb_app, IH. simpl. rewrite orb_false_r. apply orb_comm.
Qed.

Lemma drop_spaces_exists (s : jsstring) :
  existsb (fun c => negb (is_space c)) (drop_spaces s)
  = existsb (fun c => negb (is_space c)) s.
Proof.
  induction s as [|c s IH]; simpl; [reflexivity|].
  destruct (is_space c) eqn:Hc; simpl; [exact IH|]. rewrite Hc. reflexivity.
Qed.

Lemma forallb_existsb_neg (s : jsstring) :
  forallb is_space s = negb (existsb (fun c => negb (is_space c)) s).
Proof.
  induction s as [|c s IH]; simpl; [reflexivity|].
  rewrite IH. destruct (is_space c); reflexivity.
Qed.

(** [trim] keeps the code units that are not white space, so it leaves
    something exactly when there is one. *)
Lemma trim_exists (t : jsstring) :
  existsb (fun c => negb (is_space c)) (trim t)
  = existsb (fun c => negb (is_space c)) t.
Proof.
  unfold trim. rewrite existsb_rev, drop_spaces_exists, existsb_rev, drop_spaces_exists.
  reflexivity.
Qed.

Lemma trim_nonempty (t : jsstring) :
  (js_length (trim t) >? 0) = existsb (fun c => negb (is_space c)) t.
Proof.
  rewrite <- trim_exists.
  destruct (trim t) as [|c rest] eqn:Ht; [reflexivity|].
  rewrite gtb_true by (unfold js_length; simpl; lia).
  symmetry. unfold trim in Ht.
  destruct (drop_spaces_head (rev (drop_spaces t))) as [Hnil|(c' & rest' & Heq & Hc')].
  - rewrite Hnil in Ht. discriminate.
  - rewrite Heq in Ht. rewrite <- Ht, existsb_rev. simpl. rewrite Hc'. reflexivity.
Qed.

Lemma processText_nonempty (t : jsstring) :
  existsb (fun c => negb (is_space c)) t = true ->
  (js_length (processText t) >? 0) = true.
Proof.
  intros Hex. pose proof (processText_concat t) as Hc.
  destruct (processText t) as [|w ws]; [|apply gtb_true; unfold js_length; simpl; lia].
  simpl in Hc. apply existsb_exists in Hex as (c & Hin & Hc').
  assert (Hf : In c (List.filter (fun c => negb (is_space c)) t)).
  { apply filter_In. auto. }
  rewrite <- Hc in Hf. destruct Hf.
Qed.

Lemma extractElements_run tl (els : list Element) (acc : list Paragraph) :
  fold_left (extractElement tl) els acc
  = acc ++ map (fun el => processParagraph (trim (default [] (textContent el)))
                                           (tl (tagName el)))
               (List.filter gives_paragraph els).
Proof.
  revert acc. induction els as [|el els IH]; intros acc; simpl.
  { rewrite app_nil_r. reflexivity. }
  rewrite IH. unfold extractElement, gives_paragraph.
  destruct (contains_block el); simpl; [reflexivity|].
  destruct (textContent el) as [t|] eqn:Ht; simpl; [|reflexivity].
  rewrite trim_nonempty.
  destruct (existsb (fun c => negb (is_space c)) t) eqn:Hex; [|reflexivity].
  rewrite processText_nonempty by (rewrite trim_exists; exact Hex).
  rewrite <- app_assoc. simpl. rewrite Ht. reflexivity.
Qed.

(** X23. In every chapter that extractChapter builds from a document, the
    paragraphs are, in document order, those of the elements that hold no
    other block element and whose text has a code unit that is not white
    space; each is the processed form of the trimmed text. The test on the
    number of words of a paragraph agrees with the test on the length of the
    trimmed text before it: a trimmed text has a word exactly when it is not
    empty. *)
Theorem extractChapter_paragraphs tl (doc : Document) (i : Z) :
  paragraphs (extractChapter tl (Some doc) i)
  = map (fun el => processParagraph (trim (default [] (textContent el))) (tl (tagName el)))
        (List.filter gives_paragraph (elements doc)) /\
  forall t tag, (js_length (words (processParagraph (trim t) tag)) >? 0)
                = (js_length (trim t) >? 0).
Proof.
  split.
  - simpl. apply extractElements_run.
  - intros t tag. simpl. rewrite trim_nonempty.
    destruct (existsb (fun c => negb (is_space c)) t) eqn:Hex.
    + apply processText_nonempty. rewrite trim_exists. exact Hex.
    + rewrite <- trim_nonempty in Hex.
      destruct (trim t) as [|c rest]; [reflexivity|].
      rewrite gtb_true in Hex by (unfold js_length; simpl; lia). discriminate.
Qed.

Lemma extractChapter_sound tl (section : option Document) (i : Z) :
  no_empty_paragraph (extractChapter tl section i) /\
  Forall (fun par =>
            Forall (fun w => text w <> [] /\ 0 <= orpIndex w < js_length (text w))
                   (words par))
         (paragraphs (extractChapter tl section i)).
Proof.
  unfold no_empty_paragraph.
  destruct section as [doc|]; simpl; [|split; apply Forall_nil_2].
  rewrite extractElements_run. simpl.
  split; apply Forall_map; apply Forall_forall; intros el Hin;
    apply list_elem_of_In, filter_In in Hin as [_ Hg]; simpl.
  - unfold gives_paragraph in Hg. apply andb_true_iff in Hg as [_ Hg].
    destruct (textContent el) as [t|]; [|discriminate]. simpl.
    pose proof (processText_nonempty (trim t)) as Hne.
    rewrite trim_exists in Hne. specialize (Hne Hg).
    intros Hnil. rewrite Hnil in Hne. discriminate.
  - eapply Forall_impl; [apply processText_each|].
    intros w (H1 & _ & _ & H2). auto.
Qed.

Lemma extractSpine_sound tl (spine : list (option (option Document))) (i : Z)
    (acc : list Chapter) (P : Chapter -> Prop) :
  (forall section j, js_length (paragraphs (extractChapter tl section j)) > 0 ->
                     P (extractChapter tl section j)) ->
  Forall P acc -> Forall P (extractSpine tl spine i acc).
Proof.
  intros HP. revert i acc. induction spine as [|item rest IH]; intros i acc Hacc; simpl.
  - exact Hacc.
  - apply IH. destruct item as [section|]; [|exact Hacc].
    destruct (Z.ltb_spec 0 (js_length (paragraphs (extractChapter tl section i))))
      as [Hpos|Hzero].
    + rewrite gtb_true by exact Hpos. apply Forall_app. split; [exact Hacc|].
      apply Forall_cons. split; [apply HP; lia | apply Forall_nil_2].
    + rewrite gtb_false by exact Hzero. exact Hacc.
Qed.

(** X24. Whatever the spine holds, sections that cannot be loaded and
    documents without text included, the book that extractBook returns has
    no chapter without paragraphs and no paragraph without words, and every
    word in it has a non-empty text and an ORP index that addresses a code
    unit of that text. *)
Theorem extractBook_is_dense tl (metadata : Metadata)
    (spine : list (option (option Document))) :
  dense (extractBook tl metadata spine) /\ displayable (extractBook tl metadata spine).
Proof.
  unfold dense, displayable, extractBook. simpl. split.
  - apply extractSpine_sound; [|apply Forall_nil_2].
    intros section j Hpos. split.
    + intros Hnil. rewrite Hnil in Hpos. unfold js_length in Hpos. simpl in Hpos. lia.
    + apply extractChapter_sound.
  - apply extractSpine_sound; [|apply Forall_nil_2].
    intros section j _. apply extractChapter_sound.
Qed.

(** ** Theorems: restoring a stored position *)

Lemma setPosition_valid_run (w : World) (b : ProcessedBook) (p : ReadingPosition) :
  book (state (engine w)) = Some b ->
  valid_position b p ->
  setPosition p w = notifyWordChange (relocate p w).
Proof.
  intros Hb Hv.
  destruct (valid_position_elim _ _ Hv) as (ch & par & Hch & Hpar & Hw).
  pose proof (js_index_Some _ _ _ Hch) as Hci.
  pose proof (js_index_Some _ _ _ Hpar) as Hpi.
  unfold setPosition. unfold_M. rewrite Hb. unfold_M.
  destruct (Z.ltb_spec (chapterIndex p) 0); [lia|]. rewrite Z.geb_leb.
  destruct (Z.leb_spec (js_length (chapters b)) (chapterIndex p)); [lia|].
  simpl. rewrite Hch. unfold_M.
  destruct (Z.ltb_spec (paragraphIndex p) 0); [lia|]. rewrite Z.geb_leb.
  destruct (Z.leb_spec (js_length (paragraphs ch)) (paragraphIndex p)); [lia|].
  simpl. rewrite Hpar. unfold_M.
  destruct (Z.ltb_spec (wordIndex p) 0); [lia|]. rewrite Z.geb_leb.
  destruct (Z.leb_spec (js_length (words par)) (wordIndex p)); [lia|].
  simpl. destruct p. reflexivity.
Qed.

Lemma clampPosition_dense (b : ProcessedBook) (p : ReadingPosition) :
  chapters b <> [] -> dense b ->
  exists q, clampPosition b p = Normal q /\ valid_position b q.
Proof.
  intros Hne Hd.
  assert (Hlen : 0 < js_length (chapters b)).
  { unfold js_length. destruct (chapters b); [congruence | simpl; lia]. }
  unfold clampPosition.
  set (c0 := Math_max 0 (Math_min (chapterIndex p) (js_length (chapters b) - 1))).
  assert (Hc0 : 0 <= c0 < js_length (chapters b)) by (unfold c0, Math_max, Math_min; lia).
  destruct (js_index_in_range _ _ Hc0) as [ch0 Hch0]. rewrite Hch0.
  assert (Hch0' : chapters b !! Z.to_nat c0 = Some ch0).
  { unfold js_index in Hch0. destruct (c0 <? 0); [discriminate | exact Hch0]. }
  destruct (clamp_walk_spec _ _ _ Hch0') as (k & ch & Hrun & Hle & Hk & _).
  rewrite Hrun.
  assert (Hch : js_index (chapters b) (Z.of_nat k) = Some ch).
  { rewrite js_index_of_nat. exact Hk. }
  destruct (dense_chapter b _ ch Hd Hch) as [Hpars Hwords].
  set (p1 := Math_max 0 (Math_min (paragraphIndex p)
                                   (Math_max 0 (js_length (paragraphs ch) - 1)))).
  assert (Hp1 : 0 <= p1 < js_length (paragraphs ch)) by (unfold p1, Math_max, Math_min; lia).
  destruct (js_index_in_range _ _ Hp1) as [par Hpar]. rewrite Hpar.
  pose proof (dense_paragraph ch _ par Hwords Hpar) as Hw.
  eexists. split; [reflexivity|].
  apply (valid_position_intro b _ ch par); simpl; auto.
  unfold Math_max, Math_min. lia.
Qed.

(** X25. clampPosition returns every valid position as it is, whatever the
    book: a stored position that is valid for the book is restored
    unchanged, and the test that reports a clamped position stays silent. *)
Theorem clampPosition_fixes_valid_positions (b : ProcessedBook) (p : ReadingPosition) :
  valid_position b p -> clampPosition b p = Normal p.
Proof.
  intros Hv.
  destruct (valid_position_elim _ _ Hv) as (ch & par & Hch & Hpar & Hw).
  pose proof (js_index_Some _ _ _ Hch) as Hci.
  pose proof (js_index_Some _ _ _ Hpar) as Hpi.
  unfold clampPosition.
  replace (Math_max 0 (Math_min (chapterIndex p) (js_length (chapters b) - 1)))
    with (chapterIndex p) by (unfold Math_max, Math_min; lia).
  rewrite Hch.
  assert (Hwalk : clamp_walk (chapters b) (Z.to_nat (chapterIndex p)) (Some ch)
                  = Normal (Z.to_nat (chapterIndex p), ch)).
  { destruct (Z.to_nat (chapterIndex p)) as [|k]; simpl; [reflexivity|].
    destruct (Z.eqb_spec (js_length (paragraphs ch)) 0); [lia | reflexivity]. }
  rewrite Hwalk.
  replace (Math_max 0 (Math_min (paragraphIndex p)
                                 (Math_max 0 (js_length (paragraphs ch) - 1))))
    with (paragraphIndex p) by (unfold Math_max, Math_min; lia).
  rewrite Hpar.
  replace (Math_max 0 (Math_min (wordIndex p) (Math_max 0 (js_length (words par) - 1))))
    with (wordIndex p) by (unfold Math_max, Math_min; lia).
  rewrite Z2Nat.id by lia. destruct p. reflexivity.
Qed.

Lemma clampPosition_fixes_valid_positions_witness :
  valid_position book_two (pos 1 0 0) /\
  clampPosition book_two (pos 1 0 0) = Normal (pos 1 0 0).
Proof.
  assert (Hv : valid_position book_two (pos 1 0 0)).
  { apply valid_positionb_spec. reflexivity. }
  split; [exact Hv|]. exact (clampPosition_fixes_valid_positions book_two (pos 1 0 0) Hv).
Defined.

(** X26. Restoring a stored position as openBook does, loadBook and then
    setPosition on the clamped position, always lands on the clamped
    position when the book has a chapter and no empty chapter or paragraph:
    whatever the stored indices and whatever the engine was doing before,
    clampPosition returns a valid position, setPosition accepts it, and the
    engine ends with the book loaded, at that position, in status ready. *)
Theorem restore_lands_on_clamped_position (b : ProcessedBook) (p : ReadingPosition)
    (w : World) :
  chapters b <> [] -> dense b ->
  exists q w',
    clampPosition b p = Normal q /\
    valid_position b q /\
    (loadBook b ;; setPosition q) w = (Normal tt, w') /\
    book (state (engine w')) = Some b /\
    position (state (engine w')) = q /\
    status (state (engine w')) = ready.
Proof.
  intros Hne Hd.
  destruct (clampPosition_dense b p Hne Hd) as (q & Hq & Hv).
  destruct (pause_effect w) as (w1 & Hrun & _).
  assert (Hload : exists w2, loadBook b w = (Normal tt, w2) /\
                             book (state (engine w2)) = Some b /\
                             status (state (engine w2)) = ready).
  { unfold loadBook. rewrite (run_seq _ _ _ _ _ Hrun).
    unfold setStatus, notifyWordChange. unfold_M.
    eexists. split; [reflexivity|]. split; reflexivity. }
  destruct Hload as (w2 & Hload & Hb2 & Hs2).
  exists q. eexists. split; [exact Hq|]. split; [exact Hv|].
  rewrite (run_seq _ _ _ _ _ Hload).
  rewrite (setPosition_valid_run w2 b q Hb2 Hv), notifyWordChange_run.
  split; [reflexivity|]. simpl. auto.
Qed.

Lemma restore_lands_on_clamped_position_witness :
  chapters book_two <> [] /\ dense book_two /\
  exists w', (loadBook book_two ;; setPosition (pos 1 0 0)) world_playing_abc = (Normal tt, w') /\
             position (state (engine w')) = pos 1 0 0.
Proof.
  split; [exact book_two_has_chapters|]. split; [exact book_two_dense|].
  destruct (restore_lands_on_clamped_position book_two (pos 7 7 7) world_playing_abc
              book_two_has_chapters book_two_dense)
    as (q & w' & Hq & _ & Hrun & _ & Hpos & _).
  assert (q = pos 1 0 0) as Heq.
  { assert (Hc : clampPosition book_two (pos 7 7 7) = Normal (pos 1 0 0)) by reflexivity.
    rewrite Hc in Hq. injection Hq as Hq. symmetry. exact Hq. }
  rewrite Heq in Hrun, Hpos. exists w'. split; [exact Hrun | exact Hpos].
Defined.

(** ** Theorems: the progress display *)

Lemma paragraphs_words_app (ps qs : list Paragraph) :
  paragraphs_words (ps ++ qs) = paragraphs_words ps + paragraphs_words qs.
Proof. induction ps as [|p ps IH]; simpl; [reflexivity|]. rewrite IH. lia. Qed.

Lemma chapters_words_app (cs ds : list Chapter) :
  chapters_words (cs ++ ds) = chapters_words cs + chapters_words ds.
Proof. induction cs as [|c cs IH]; simpl; [reflexivity|]. rewrite IH. lia. Qed.

Lemma paragraphs_words_nonneg (ps : list Paragraph) : 0 <= paragraphs_words ps.
Proof. induction ps as [|p ps IH]; simpl; unfold js_length; lia. Qed.

Lemma chapters_words_nonneg (cs : list Chapter) : 0 <= chapters_words cs.
Proof.
  induction cs as [|c cs IH]; simpl; [lia|].
  pose proof (paragraphs_words_nonneg (paragraphs c)). lia.
Qed.

(** The inner loop: the total grows by the words of the paragraphs, and the
    current index is set exactly when the paragraph of the position is among
    them. *)
Lemma progress_paragraphs_run (position : ReadingPosition) (c p : Z)
    (ps : list Paragraph) (total current : Z) :
  progress_paragraphs position c p ps (total, current)
  = (total + paragraphs_words ps,
     if (c =? chapterIndex position) && (p <=? paragraphIndex position)
        && (paragraphIndex position <? p + js_length ps)
     then total + paragraphs_words (take (Z.to_nat (paragraphIndex position - p)) ps)
          + wordIndex position
     else current).
Proof.
  revert p total current. induction ps as [|para rest IH]; intros p total current.
  - simpl. f_equal; [lia|].
    destruct (c =? chapterIndex position); simpl; [|reflexivity].
    destruct (Z.leb_spec p (paragraphIndex position)); simpl; [|reflexivity].
    change (js_length (@nil Paragraph)) with 0.
    destruct (Z.ltb_spec (paragraphIndex position) (p + 0)); [lia | reflexivity].
  - cbn [progress_paragraphs]. rewrite IH. cbn [paragraphs_words fold_right].
    fold (paragraphs_words rest).
    assert (Hlen : js_length (para :: rest) = 1 + js_length rest).
    { unfold js_length. simpl length. lia. }
    rewrite Hlen. f_equal; [lia|].
    destruct (Z.eqb_spec c (chapterIndex position)) as [Hc|Hc]; simpl.
    2:{ destruct (c <? chapterIndex position); reflexivity. }
    destruct (Z.ltb_spec c (chapterIndex position)) as [Hlt|_]; [lia|]. simpl.
    destruct (Z.eqb_spec p (paragraphIndex position)) as [Hp|Hp].
    + rewrite orb_true_r.
      destruct (Z.leb_spec (p + 1) (paragraphIndex position)); [lia|]. simpl.
      destruct (Z.leb_spec p (paragraphIndex position)); [|lia]. simpl.
      pose proof (Zle_0_nat (length rest)). unfold js_length.
      destruct (Z.ltb_spec (paragraphIndex position) (p + (1 + Z.of_nat (length rest))));
        [|lia].
      replace (Z.to_nat (paragraphIndex position - p)) with O by lia. simpl. lia.
    + rewrite orb_false_r.
      destruct (Z.leb_spec (p + 1) (paragraphIndex position)) as [Hle|Hle]; simpl.
      * destruct (Z.leb_spec p (paragraphIndex position)); [|lia]. simpl.
        replace (p + (1 + js_length rest)) with (p + 1 + js_length rest) by lia.
        destruct (paragraphIndex position <? p + 1 + js_length rest).
        -- replace (Z.to_nat (paragraphIndex position - p))
             with (S (Z.to_nat (paragraphIndex position - (p + 1)))) by lia.
           simpl. fold (paragraphs_words
                          (take (Z.to_nat (paragraphIndex position - (p + 1))) rest)).
           lia.
        -- destruct (p <? paragraphIndex position); reflexivity.
      * destruct (Z.leb_spec p (paragraphIndex position)); [lia|]. simpl.
        destruct (Z.ltb_spec p (paragraphIndex position)); [lia | reflexivity].
Qed.

(** The outer loop, for a position whose chapter is among the chapters still
    to visit and whose paragraph is in that chapter. *)
Lemma progress_chapters_run (position : ReadingPosition) (cs : list Chapter) :
  forall (c total current : Z) (ch : Chapter),
    c <= chapterIndex position ->
    cs !! Z.to_nat (chapterIndex position - c) = Some ch ->
    0 <= paragraphIndex position < js_length (paragraphs ch) ->
    progress_chapters position c cs (total, current)
    = (total + chapters_words cs,
       total + chapters_words (take (Z.to_nat (chapterIndex position - c)) cs)
       + paragraphs_words (take (Z.to_nat (paragraphIndex position)) (paragraphs ch))
       + wordIndex position).
Proof.
  assert (Hafter : forall cs' c total current,
            chapterIndex position < c ->
            progress_chapters position c cs' (total, current)
            = (total + chapters_words cs', current)).
  { induction cs' as [|ch' rest IH]; intros c total current Hc; simpl.
    - f_equal. lia.
    - rewrite progress_paragraphs_run.
      destruct (Z.eqb_spec c (chapterIndex position)); [lia|]. simpl.
      rewrite IH by lia. f_equal. lia. }
  induction cs as [|ch' rest IH]; intros c total current ch Hc Hch Hp.
  - rewrite lookup_nil in Hch. discriminate.
  - simpl. rewrite progress_paragraphs_run.
    destruct (Z.eq_dec c (chapterIndex position)) as [Heq|Hne].
    + replace (Z.to_nat (chapterIndex position - c)) with O in * by lia.
      simpl in Hch. injection Hch as ->.
      rewrite (proj2 (Z.eqb_eq c (chapterIndex position)) Heq).
      destruct (Z.leb_spec 0 (paragraphIndex position)); [|lia].
      destruct (Z.ltb_spec (paragraphIndex position) (0 + js_length (paragraphs ch)));
        [|lia].
      simpl. rewrite Hafter by lia. rewrite Z.sub_0_r. f_equal; lia.
    + replace (Z.to_nat (chapterIndex position - c))
        with (S (Z.to_nat (chapterIndex position - (c + 1)))) in * by lia.
      simpl in Hch.
      rewrite (proj2 (Z.eqb_neq c (chapterIndex position)) Hne). simpl.
      rewrite (IH (c + 1) _ _ ch) by (try lia; assumption).
      simpl. fold (chapters_words (take (Z.to_nat (chapterIndex position - (c + 1))) rest)).
      f_equal; lia.
Qed.

Lemma progress_counts_valid (b : ProcessedBook) (p : ReadingPosition) :
  valid_position b p ->
  progress_counts b p = (chapters_words (chapters b), words_before b p).
Proof.
  intros Hv.
  destruct (valid_position_elim _ _ Hv) as (ch & par & Hch & Hpar & Hw).
  pose proof (js_index_Some _ _ _ Hch) as Hci.
  pose proof (js_index_Some _ _ _ Hpar) as Hpi.
  assert (Hch' : chapters b !! Z.to_nat (chapterIndex p - 0) = Some ch).
  { rewrite Z.sub_0_r. unfold js_index in Hch.
    destruct (chapterIndex p <? 0); [discriminate | exact Hch]. }
  unfold progress_counts.
  rewrite (progress_chapters_run p (chapters b) 0 0 0 ch) by (try lia; assumption).
  unfold words_before. rewrite Hch, Z.sub_0_r. f_equal; lia.
Qed.

Lemma words_before_bounds (b : ProcessedBook) (p : ReadingPosition) :
  valid_position b p -> 0 <= words_before b p < chapters_words (chapters b).
Proof.
  intros Hv.
  destruct (valid_position_elim _ _ Hv) as (ch & par & Hch & Hpar & Hw).
  pose proof (js_index_Some _ _ _ Hch) as Hci.
  pose proof (js_index_Some _ _ _ Hpar) as Hpi.
  unfold words_before. rewrite Hch.
  assert (Hch' : chapters b !! Z.to_nat (chapterIndex p) = Some ch).
  { unfold js_index in Hch. destruct (chapterIndex p <? 0); [discriminate | exact Hch]. }
  assert (Hpar' : paragraphs ch !! Z.to_nat (paragraphIndex p) = Some par).
  { unfold js_index in Hpar. destruct (paragraphIndex p <? 0); [discriminate | exact Hpar]. }
  assert (Hcs : chapters_words (chapters b)
                = chapters_words (take (Z.to_nat (chapterIndex p)) (chapters b))
                  + (paragraphs_words (paragraphs ch)
                     + chapters_words (drop (S (Z.to_nat (chapterIndex p))) (chapters b)))).
  { rewrite <- (take_drop_middle _ _ _ Hch') at 1.
    rewrite chapters_words_app. reflexivity. }
  assert (Hps : paragraphs_words (paragraphs ch)
                = paragraphs_words (take (Z.to_nat (paragraphIndex p)) (paragraphs ch))
                  + (js_length (words par)
                     + paragraphs_words (drop (S (Z.to_nat (paragraphIndex p)))
                                              (paragraphs ch)))).
  { rewrite <- (take_drop_middle _ _ _ Hpar') at 1.
    rewrite paragraphs_words_app. reflexivity. }
  pose proof (chapters_words_nonneg (take (Z.to_nat (chapterIndex p)) (chapters b))).
  pose proof (chapters_words_nonneg (drop (S (Z.to_nat (chapterIndex p))) (chapters b))).
  pose proof (paragraphs_words_nonneg (take (Z.to_nat (paragraphIndex p)) (paragraphs ch))).
  pose proof (paragraphs_words_nonneg (drop (S (Z.to_nat (paragraphIndex p))) (paragraphs ch))).
  lia.
Qed.

(** X27. For a valid position, the two loops of updateProgress end with
    totalWords the number of words of the book and currentWordIndex the
    number of words before the current one, paragraph by paragraph and
    chapter by chapter; so 0 <= currentWordIndex < totalWords, the total is
    positive and the fraction shown is below one. *)
Theorem progress_counts_words_before (b : ProcessedBook) (p : ReadingPosition) :
  valid_position b p ->
  progress_counts b p = (chapters_words (chapters b), words_before b p) /\
  0 <= words_before b p < chapters_words (chapters b).
Proof.
  intros Hv. split; [apply progress_counts_valid | apply words_before_bounds]; exact Hv.
Qed.

Lemma progress_counts_words_before_witness :
  valid_position book_two (pos 1 0 0) /\ progress_counts book_two (pos 1 0 0) = (3, 2).
Proof.
  assert (Hv : valid_position book_two (pos 1 0 0)).
  { apply valid_positionb_spec. reflexivity. }
  split; [exact Hv|].
  destruct (progress_counts_words_before book_two (pos 1 0 0) Hv) as [Heq _].
  rewrite Heq. reflexivity.
Defined.

(** Where a word follows, [advance] moves to the position with one more
    word before it. *)
Lemma advance_counts (w : World) (b : ProcessedBook) :
  book (state (engine w)) = Some b ->
  valid_position b (position (state (engine w))) ->
  has_next b (position (state (engine w))) = true ->
  exists p', advance w = (Normal tt, relocate p' w) /\
             words_before b p' = words_before b (position (state (engine w))) + 1 /\
             (dense b -> valid_position b p').
Proof.
  intros Hb Hv Hn.
  destruct (valid_position_elim _ _ Hv) as (ch & par & Hch & Hpar & Hw).
  unfold has_next in Hn. rewrite Hch, Hpar in Hn.
  rewrite (advance_run w b ch par Hb Hch Hpar).
  pose proof (js_index_Some _ _ _ Hch) as Hci.
  pose proof (js_index_Some _ _ _ Hpar) as Hpi.
  set (p := position (state (engine w))) in *.
  assert (Hch' : chapters b !! Z.to_nat (chapterIndex p) = Some ch).
  { unfold js_index in Hch. destruct (chapterIndex p <? 0); [discriminate | exact Hch]. }
  assert (Hpar' : paragraphs ch !! Z.to_nat (paragraphIndex p) = Some par).
  { unfold js_index in Hpar. destruct (paragraphIndex p <? 0); [discriminate | exact Hpar]. }
  destruct (Z.ltb_spec (wordIndex p + 1) (js_length (words par))).
  { eexists. split; [reflexivity|]. split.
    - unfold words_before. simpl. lia.
    - intros _. apply (valid_position_intro b _ ch par); simpl; auto; lia. }
  destruct (Z.ltb_spec (paragraphIndex p + 1) (js_length (paragraphs ch))).
  { eexists. split; [reflexivity|]. split.
    - unfold words_before. simpl. rewrite Hch.
      replace (Z.to_nat (paragraphIndex p + 1)) with (S (Z.to_nat (paragraphIndex p))) by lia.
      rewrite (take_S_r _ _ _ Hpar'), paragraphs_words_app. simpl. lia.
    - intros Hd.
      destruct (js_index_in_range (paragraphs ch) (paragraphIndex p + 1)) as [par' Hpar''];
        [lia|].
      destruct (dense_chapter b _ ch Hd Hch) as [_ Hpars].
      pose proof (dense_paragraph ch _ par' Hpars Hpar'').
      apply (valid_position_intro b _ ch par'); simpl; auto; lia. }
  destruct (Z.ltb_spec (chapterIndex p + 1) (js_length (chapters b))); [|discriminate].
  eexists. split; [reflexivity|]. split.
  - unfold words_before. simpl. rewrite Hch.
    replace (Z.to_nat (chapterIndex p + 1)) with (S (Z.to_nat (chapterIndex p))) by lia.
    rewrite (take_S_r _ _ _ Hch'), chapters_words_app. simpl.
    assert (Hps : paragraphs_words (paragraphs ch)
                  = paragraphs_words (take (Z.to_nat (paragraphIndex p)) (paragraphs ch))
                    + js_length (words par)).
    { rewrite <- (take_drop_middle _ _ _ Hpar') at 1.
      rewrite paragraphs_words_app. simpl.
      rewrite drop_ge by (unfold js_length in *; lia). simpl. lia. }
    assert (Hzero : forall o : option Chapter,
              match o with
              | Some ch0 => paragraphs_words (take 0 (paragraphs ch0))
              | None => 0
              end = 0).
    { intros [ch0|]; reflexivity. }
    rewrite Hzero. lia.
  - intros Hd. apply valid_start_of_chapter; [exact Hd | lia].
Qed.

(** X28. With a book without empty chapters and paragraphs loaded, at a
    valid position that a word follows, nextWord moves the progress display
    by exactly one word: the currentWordIndex that updateProgress computes
    for the new position is one more than for the old, wherever the step
    crosses into the next paragraph or chapter. *)
Theorem nextWord_moves_progress_by_one (w : World) (b : ProcessedBook) :
  book (state (engine w)) = Some b ->
  dense b ->
  valid_position b (position (state (engine w))) ->
  has_next b (position (state (engine w))) = true ->
  exists w', nextWord w = (Normal tt, w') /\
    snd (progress_counts b (position (state (engine w'))))
    = snd (progress_counts b (position (state (engine w)))) + 1 /\
    fst (progress_counts b (position (state (engine w'))))
    = fst (progress_counts b (position (state (engine w)))).
Proof.
  intros Hb Hd Hv Hn.
  destruct (advance_counts w b Hb Hv Hn) as (p' & Hadv & Hstep & Hvalid).
  specialize (Hvalid Hd).
  rewrite (nextWord_with_book w b Hb).
  rewrite (run_seq advance (fun _ => notifyWordChange) _ _ _ Hadv), notifyWordChange_run.
  eexists. split; [reflexivity|]. simpl.
  rewrite (progress_counts_valid b p' Hvalid), (progress_counts_valid b _ Hv). simpl.
  split; [exact Hstep | reflexivity].
Qed.

Lemma nextWord_moves_progress_by_one_witness :
  book (state (engine world_two)) = Some book_two /\
  dense book_two /\
  valid_position book_two (position (state (engine world_two))) /\
  has_next book_two (position (state (engine world_two))) = true /\
  exists w', nextWord world_two = (Normal tt, w') /\
    snd (progress_counts book_two (position (state (engine w'))))
    = snd (progress_counts book_two (position (state (engine world_two)))) + 1.
Proof.
  assert (Hv : valid_position book_two (position (state (engine world_two)))).
  { apply valid_positionb_spec. reflexivity. }
  split; [reflexivity|]. split; [exact book_two_dense|]. split; [exact Hv|].
  split; [reflexivity|].
  destruct (nextWord_moves_progress_by_one world_two book_two eq_refl book_two_dense
              Hv eq_refl) as (w' & Hrun & Hstep & _).
  exists w'. split; [exact Hrun | exact Hstep].
Defined.

(** ** Theorems: the speed keys *)

(** For every integer speed from 100 to 1000 and both steps, the sum and the
    two clamps in binary64 give the clamped integer: checked by evaluating
    them at each speed. *)
Lemma adjustWPM_checked :
  forallb (fun n =>
             forallb (fun d =>
                        Leibniz.eqb
                          (Math_max_number (Number MIN_WPM)
                             (Math_min_number (Number MAX_WPM) (Number n + Number d)))
                          (Number (Z.max MIN_WPM (Z.min MAX_WPM (n + d)))))
                     [WPM_STEP; - WPM_STEP])
          WPM_VALUES = true.
Proof. vm_compute. reflexivity. Qed.

(** X29. When the speed of the engine is an integer from 100 to 1000, a
    speed key (adjustWPM by +25 or -25) sets it to the integer 25 higher or
    lower, clamped into 100..1000, exactly, in binary64 arithmetic; so the
    speed stays an integer from 100 to 1000 whatever keys are pressed.
    Playback, book and position are not touched: a pending timer keeps the
    delay it was armed with. *)
Theorem adjustWPM_keeps_speed_in_range (w : World) (n delta : Z) :
  wpm (state (engine w)) = Number n ->
  MIN_WPM <= n <= MAX_WPM ->
  delta = WPM_STEP \/ delta = - WPM_STEP ->
  exists w', adjustWPM (Number delta) w = (Normal tt, w') /\
    wpm (state (engine w')) = Number (Z.max MIN_WPM (Z.min MAX_WPM (n + delta))) /\
    MIN_WPM <= Z.max MIN_WPM (Z.min MAX_WPM (n + delta)) <= MAX_WPM /\
    same_control w w' /\ same_place w w'.
Proof.
  intros Hw Hn Hd.
  pose proof adjustWPM_checked as Hall.
  rewrite forallb_forall in Hall.
  assert (Hin : In n WPM_VALUES).
  { unfold WPM_VALUES, MIN_WPM, MAX_WPM in *. apply in_map_iff.
    exists (Z.to_nat (n - 100)). split; [lia|]. apply in_seq. lia. }
  specialize (Hall n Hin). rewrite forallb_forall in Hall.
  assert (Hdin : In delta [WPM_STEP; - WPM_STEP]).
  { destruct Hd as [-> | ->]; simpl; auto. }
  specialize (Hall delta Hdin). apply Leibniz.eqb_spec in Hall.
  unfold adjustWPM, getWPM, setWPM. unfold_M.
  eexists. split; [reflexivity|]. simpl. rewrite Hw, Hall.
  split; [reflexivity|]. split; [unfold MIN_WPM, MAX_WPM in *; lia|].
  split; repeat split; reflexivity.
Qed.

Lemma adjustWPM_keeps_speed_in_range_witness :
  wpm (state (engine world_playing_abc)) = Number 300 /\
  MIN_WPM <= 300 <= MAX_WPM /\
  exists w', adjustWPM (Number WPM_STEP) world_playing_abc = (Normal tt, w') /\
             wpm (state (engine w')) = Number 325.
Proof.
  assert (Hw : wpm (state (engine world_playing_abc)) = Number 300) by reflexivity.
  assert (Hn : MIN_WPM <= 300 <= MAX_WPM) by (unfold MIN_WPM, MAX_WPM; lia).
  split; [exact Hw|]. split; [exact Hn|].
  destruct (adjustWPM_keeps_speed_in_range world_playing_abc 300 WPM_STEP Hw Hn
              (or_introl eq_refl)) as (w' & Hrun & Hwpm & _).
  exists w'. split; [exact Hrun | exact Hwpm].
Defined.

(** ** Theorems: the word list *)

Lemma set_ranks_lookup (words : list jsstring) (index : Z) (ranks : gmap jsstring Z)
    (w : jsstring) :
  set_ranks words index ranks !! w
  = match last_place w words with
    | Some i => Some (index + Z.of_nat i + 1)
    | None => ranks !! w
    end.
Proof.
  revert index ranks. induction words as [|x rest IH]; intros index ranks; simpl.
  - reflexivity.
  - rewrite IH. destruct (last_place w rest) as [i|].
    + f_equal. lia.
    + case_bool_decide as Hx.
      * subst x. rewrite lookup_insert. 
        rewrite decide_True by reflexivity. f_equal. lia.
      * rewrite lookup_insert_ne by exact Hx. reflexivity.
Qed.

Lemma last_place_spec (w : jsstring) (words : list jsstring) :
  match last_place w words with
  | Some i => words !! i = Some w /\ w ∉ drop (S i) words
  | None => w ∉ words
  end.
Proof.
  induction words as [|x rest IH]; simpl.
  - apply not_elem_of_nil.
  - destruct (last_place w rest) as [i|].
    + exact IH.
    + case_bool_decide as Hx.
      * subst x. split; [reflexivity|]. rewrite drop_0. exact IH.
      * intros Hin. apply elem_of_cons in Hin as [Heq|Hin]; [congruence | exact (IH Hin)].
Qed.

(** X30. Whatever the value of the word list and whatever fetching gives,
    loadWordlist leaves a word list that is not missing; and once a list is
    there, a later load leaves it as it is, whatever fetching gives then, a
    successful fetch of another text included. From a missing list, a
    failed fetch gives the empty list, and a fetched text gives the list in
    which the rank of a word is the 1-indexed place of the last line that
    lists the word: of a word listed on several lines the later line wins;
    it holds no rank for a word that no line lists, and none for the empty
    word. *)
Theorem loadWordlist_ranks tl (text : jsstring) (w : jsstring) :
  (forall current response, exists ranks, loadWordlist tl current response = Some ranks) /\
  (forall loaded response, loadWordlist tl (Some loaded) response = Some loaded) /\
  (forall current first later,
     loadWordlist tl (loadWordlist tl current first) later = loadWordlist tl current first) /\
  loadWordlist tl None None = Some ∅ /\
  exists ranks,
    loadWordlist tl None (Some text) = Some ranks /\
    ranks !! [] = None /\
    match ranks !! w with
    | Some rank =>
        1 <= rank <= js_length (wordlist_words tl text) /\
        js_index (wordlist_words tl text) (rank - 1) = Some w /\
        w ∉ drop (Z.to_nat rank) (wordlist_words tl text)
    | None => w ∉ wordlist_words tl text
    end.
Proof.
  split.
  { intros [loaded|] [t|]; simpl; eexists; reflexivity. }
  split; [intros loaded response; reflexivity|].
  split.
  { intros [loaded|] [t|] later; reflexivity. }
  split; [reflexivity|].
  exists (set_ranks (wordlist_words tl text) 0 ∅).
  split; [reflexivity|]. split.
  - rewrite set_ranks_lookup.
    pose proof (last_place_spec [] (wordlist_words tl text)) as Hspec.
    destruct (last_place [] (wordlist_words tl text)) as [i|]; [|apply lookup_empty].
    destruct Hspec as [Hi _]. exfalso.
    apply list_elem_of_lookup_2 in Hi. unfold wordlist_words in Hi.
    apply list_elem_of_In, filter_In in Hi as [_ Hlen]. discriminate.
  - rewrite set_ranks_lookup.
    pose proof (last_place_spec w (wordlist_words tl text)) as Hspec.
    destruct (last_place w (wordlist_words tl text)) as [i|].
    + destruct Hspec as [Hi Hlater].
      pose proof (lookup_lt_Some _ _ _ Hi) as Hlt.
      replace (0 + Z.of_nat i + 1 - 1) with (Z.of_nat i) by lia.
      replace (Z.to_nat (0 + Z.of_nat i + 1)) with (S i) by lia.
      rewrite js_index_of_nat. unfold js_length.
      split; [lia|]. split; [exact Hi | exact Hlater].
    + rewrite lookup_empty. exact Hspec.
Qed.
